(** * sound-play: playback registry and launcher

    A shallow embedding of the four copies of the player that the
    repository carries:

    - [src/audio-player.ts]: the TypeScript module ([play] returns an id);
    - the CommonJS module in [src/index.js] (same logic, [on] listeners);
    - the compiled enhanced module ([play] returns [{ id, finished }]);
    - the first, exec-based [src/index.js] (module [Legacy] below).

    JavaScript values are modelled as follows: strings as the bytes of
    their UTF-8 form ([string]), numbers as IEEE binary64 values
    ([spec_float] at precision 53), the [Map] registry as an
    insertion-ordered association list, child processes as references
    into a process table, closures handed to the event emitter as
    first-order callbacks, and the module-level mutable state as an
    explicit [World] threaded by a state monad. A call either returns a
    value or throws: the outcome is a [Completion]. *)

From Stdlib Require Import ZArith QArith Qround Qabs List String Ascii Bool Lia Arith.
From Stdlib Require Import SpecFloat DecimalString.
From Stdlib.Strings Require Import Byte.
Import ListNotations.
Close Scope Q_scope.
Open Scope string_scope.

(* ------------------------------------------------------------------ *)
(** ** JavaScript strings *)
(* ------------------------------------------------------------------ *)

Module JsString.

(** The line feed of a template literal that spans lines. *)
Definition nl : string := String (ascii_of_nat 10) EmptyString.

(** The double quote character (code 34), backslash-escaped in the source. *)
Definition dquote : string := String (ascii_of_nat 34) EmptyString.

(** The single quote character. *)
Definition squote : ascii := ascii_of_nat 39.

(** [s.replace(/c/g, by)] for a one-character pattern [c] and a
    replacement [by] that holds no [$] pattern. *)
Fixpoint replace_char (c : ascii) (by_ : string) (s : string) : string :=
  match s with
  | EmptyString => EmptyString
  | String a rest =>
      if Ascii.eqb a c then by_ ++ replace_char c by_ rest
      else String a (replace_char c by_ rest)
  end.

(** [Array.prototype.join] with a separator. *)
Fixpoint join (sep : string) (l : list string) : string :=
  match l with
  | [] => EmptyString
  | [x] => x
  | x :: rest => x ++ sep ++ join sep rest
  end.

(** The characters of a string. *)
Definition chars (s : string) : list ascii := list_ascii_of_string s.

(** [n] copies of a character. *)
Fixpoint repeat_char (c : ascii) (n : nat) : string :=
  match n with
  | O => EmptyString
  | S k => String c (repeat_char c k)
  end.

End JsString.

(* ------------------------------------------------------------------ *)
(** ** Hexadecimal encoding of a buffer *)
(* ------------------------------------------------------------------ *)

Module Hex.

(** One lowercase hexadecimal digit, for a value below sixteen. *)
Definition digit (n : N) : ascii :=
  if (n <? 10)%N then ascii_of_N (48 + n) else ascii_of_N (87 + n).

(** The two digits of a byte, high nibble first. *)
Definition of_byte (b : byte) : string :=
  let n := Byte.to_N b in
  String (digit (n / 16)) (String (digit (n mod 16)) EmptyString).

(** [buffer.toString('hex')]. *)
Fixpoint encode (buf : list byte) : string :=
  match buf with
  | [] => EmptyString
  | b :: rest => of_byte b ++ encode rest
  end.

(** The value of a hexadecimal digit, [None] for another character. *)
Definition digit_value (a : ascii) : option N :=
  let n := N_of_ascii a in
  if ((48 <=? n) && (n <=? 57))%N then Some (n - 48)%N
  else if ((97 <=? n) && (n <=? 102))%N then Some (n - 87)%N
  else None.

(** A lowercase hexadecimal digit. *)
Definition is_digit (a : ascii) : bool :=
  match digit_value a with Some _ => true | None => false end.

(** Decoding, the inverse of [encode] on its image. *)
Fixpoint decode (s : string) : option (list byte) :=
  match s with
  | EmptyString => Some []
  | String hi (String lo rest) =>
      match digit_value hi, digit_value lo, decode rest with
      | Some h, Some l, Some bs =>
          match Byte.of_N (h * 16 + l) with
          | Some b => Some (b :: bs)
          | None => None
          end
      | _, _, _ => None
      end
  | String _ EmptyString => None
  end.

End Hex.

(* ------------------------------------------------------------------ *)
(** ** JavaScript numbers: IEEE 754 binary64 *)
(* ------------------------------------------------------------------ *)

Module Number.

Definition prec : Z := 53.
Definition emax : Z := 1024.

(** A JavaScript number. *)
Definition number : Type := spec_float.

Definition NaN : number := S754_nan.

(** The number nearest to [m * 2 ^ e]. *)
Definition of_dyadic (m e : Z) : number := binary_normalize prec emax m e false.

(** An integer literal. *)
Definition of_Z (z : Z) : number := of_dyadic z 0.

(** The literals of the source. *)
Definition two : number := of_Z 2.
Definition one : number := of_Z 1.
Definition half : number := of_dyadic 1 (-1).

(** [a * b] and [a / b]. *)
Definition mul (a b : number) : number := SFmul prec emax a b.
Definition div (a b : number) : number := SFdiv prec emax a b.

(** A number that is a value of the format (every JavaScript number is). *)
Definition is_number (x : number) : bool := valid_binary prec emax x.

Definition is_nan (x : number) : bool :=
  match x with S754_nan => true | _ => false end.

(** [a <= b] as JavaScript compares numbers (false on NaN). *)
Definition leb (a b : number) : bool := SFleb a b.

(** [Math.min(a, b)]: NaN when either argument is NaN, and the negative
    zero counts as smaller than the positive one. *)
Definition Math_min (a b : number) : number :=
  if is_nan a || is_nan b then NaN
  else
    match SFcompare a b with
    | Some Lt => a
    | Some Gt => b
    | Some Eq =>
        match a, b with
        | S754_zero sa, S754_zero sb => S754_zero (sa || sb)
        | _, _ => a
        end
    | None => NaN
    end.

(** *** Number::toString, radix 10 (ECMA-262, 6.1.6.1.20) *)

(** The exact value of a finite positive number [m * 2 ^ e]. *)
Definition value (m : positive) (e : Z) : Q := inject_Z (Zpos m) * Qpower 2 e.

Definition pow10 (p : Z) : Q := Qpower 10 p.

(** The rationals that round to [m * 2 ^ e]: the interval between the
    midpoints to the neighbouring numbers, closed when [m] is even. *)
Definition lower_mid (m : positive) (e : Z) : Q :=
  if (Zpos m =? 2 ^ (prec - 1))%Z && (emin prec emax <? e)%Z
  then inject_Z (4 * Zpos m - 1) * Qpower 2 (e - 2)
  else inject_Z (2 * Zpos m - 1) * Qpower 2 (e - 1).

Definition upper_mid (m : positive) (e : Z) : Q :=
  inject_Z (2 * Zpos m + 1) * Qpower 2 (e - 1).

Definition Qltb (a b : Q) : bool :=
  match Qcompare a b with Lt => true | _ => false end.

Definition rounds_to (m : positive) (e : Z) (q : Q) : bool :=
  if Z.even (Zpos m)
  then Qle_bool (lower_mid m e) q && Qle_bool q (upper_mid m e)
  else Qltb (lower_mid m e) q && Qltb q (upper_mid m e).

(** The [n] with [10 ^ (n - 1) <= x < 10 ^ n], searched upwards from an
    estimate by the binary logarithm. *)
Fixpoint decimal_exponent_from (fuel : nat) (x : Q) (n : Z) : Z :=
  match fuel with
  | O => n
  | S k => if Qltb x (pow10 n) then n else decimal_exponent_from k x (n + 1)
  end.

Definition decimal_exponent (m : positive) (e : Z) : Z :=
  let guess := ((Z.log2 (Zpos m) + e) * 1233 / 4096 - 2)%Z in
  decimal_exponent_from 8 (value m e) guess.

(** The candidates [(s, n)] with [k] digits: [s * 10 ^ (n - k)] rounds
    to the number and [10 ^ (k - 1) <= s < 10 ^ k]. *)
Definition candidates (m : positive) (e : Z) (k n : Z) : list (Z * Z) :=
  let p := (n - k)%Z in
  let f := Qfloor (value m e / pow10 p) in
  filter
    (fun sn : Z * Z =>
       let s := fst sn in
       (10 ^ (k - 1) <=? s)%Z && (s <? 10 ^ k)%Z
       && rounds_to m e (inject_Z s * pow10 p))
    [(f, n); ((f + 1)%Z, n)].

(** The distance of a candidate from the number. *)
Definition distance (m : positive) (e : Z) (k : Z) (sn : Z * Z) : Q :=
  Qabs (inject_Z (fst sn) * pow10 (snd sn - k) - value m e).

(** The closest candidate, the even one on a tie. *)
Fixpoint closest (m : positive) (e : Z) (k : Z) (best : Z * Z)
    (rest : list (Z * Z)) : Z * Z :=
  match rest with
  | [] => best
  | c :: rest' =>
      match Qcompare (distance m e k c) (distance m e k best) with
      | Lt => closest m e k c rest'
      | Eq => closest m e k (if Z.even (fst c) then c else best) rest'
      | Gt => closest m e k best rest'
      end
  end.

(** The least [k] from [k] on that has a candidate, with its [(s, n)]. *)
Fixpoint shortest (fuel : nat) (m : positive) (e : Z) (k : Z) : Z * (Z * Z) :=
  let nx := decimal_exponent m e in
  let cs := (candidates m e k (nx - 1) ++ candidates m e k nx
             ++ candidates m e k (nx + 1))%list in
  match cs, fuel with
  | c :: rest, _ => (k, closest m e k c rest)
  | [], S fuel' => shortest fuel' m e (k + 1)%Z
  | [], O => (k, (Qfloor (value m e / pow10 (nx - k)), nx))
  end.

(** The decimal digits of a non-negative integer. *)
Definition digits (z : Z) : string :=
  NilZero.string_of_uint (N.to_uint (Z.to_N z)).

Definition zeros (n : Z) : string :=
  JsString.repeat_char "0"%char (Z.to_nat n).

(** Steps 6 to 10: the layout for digits [s], their count [k] and the
    decimal exponent [n]. *)
Definition layout (k n s : Z) : string :=
  let ds := digits s in
  if ((k <=? n) && (n <=? 21))%Z then ds ++ zeros (n - k)
  else if ((0 <? n) && (n <=? 21))%Z then
    substring 0 (Z.to_nat n) ds ++ "."
      ++ substring (Z.to_nat n) (Z.to_nat (k - n)) ds
  else if ((-6 <? n) && (n <=? 0))%Z then "0." ++ zeros (- n) ++ ds
  else
    let ex := (n - 1)%Z in
    let sign := if (ex <? 0)%Z then "-" else "+" in
    if (k =? 1)%Z then ds ++ "e" ++ sign ++ digits (Z.abs ex)
    else substring 0 1 ds ++ "." ++ substring 1 (Z.to_nat (k - 1)) ds
           ++ "e" ++ sign ++ digits (Z.abs ex).

(** [String(x)] and the [${x}] of a template literal, for a number. *)
Definition toString (x : number) : string :=
  match x with
  | S754_nan => "NaN"
  | S754_zero _ => "0"
  | S754_infinity s => if s then "-Infinity" else "Infinity"
  | S754_finite sgn m e =>
      let '(k, (s, n)) := shortest 17 m e 1 in
      (if sgn then "-" else "") ++ layout k n s
  end.

End Number.

(* ------------------------------------------------------------------ *)
(** ** The host: what the runtime and the operating system provide *)
(* ------------------------------------------------------------------ *)

(** [process.platform]; [path.resolve], which depends on the working
    directory and on the path rules of the host; and the error code, if
    any, with which the operating system refuses a command at once and
    which [spawn] throws instead of reporting it by an [error] event
    (any code but [EACCES], [EAGAIN], [EMFILE], [ENFILE] and [ENOENT],
    for instance [E2BIG] for an argument that is too long).

    [path.resolve] is taken to return: the host has a working directory
    (the call throws when that directory has been removed). *)
Record Host : Type := {
  platform : string;
  path_resolve : string -> string;
  spawn_errno : string -> list string -> option string
}.

Definition is_darwin (h : Host) : bool := String.eqb (platform h) "darwin".

(** A default parameter [x = d]: the default stands in for [undefined]. *)
Definition with_default {A : Type} (d : A) (x : option A) : A :=
  match x with Some v => v | None => d end.

(* ------------------------------------------------------------------ *)
(** ** Command builders of the spawn-based modules *)
(* ------------------------------------------------------------------ *)

Module Command.
Import JsString Number.

Definition macPlayCommand (filePath : string) (volume : number) : list string :=
  [ "afplay"; filePath; "-v"; Number.toString volume ].

(** The path as it is written into the script: quotes doubled. *)
Definition escaped (filePath : string) : string :=
  replace_char squote "''" filePath.

Definition windowsPowerShellScript (filePath : string) (volume : number) : string :=
  nl ++ "Add-Type -AssemblyName presentationCore;" ++ nl
  ++ "$player = New-Object system.windows.media.mediaplayer;" ++ nl
  ++ "$player.open('" ++ escaped filePath ++ "');" ++ nl
  ++ "$player.Volume = " ++ Number.toString volume ++ ";" ++ nl
  ++ "$player.Play();" ++ nl
  ++ "# Keep the process alive until the media finishes" ++ nl
  ++ "Start-Sleep -s $player.NaturalDuration.TimeSpan.TotalSeconds;" ++ nl.

Definition windowsPlayCommand (filePath : string) (volume : number) : list string :=
  [ "powershell"; "-NoProfile"; "-Command";
    windowsPowerShellScript filePath volume ].

(** The platform-adjusted volume of [play]. *)
Definition volForOs (h : Host) (volume : number) : number :=
  if is_darwin h then Math_min two (mul volume two) else volume.

(** The array that [play] destructures into [cmd] and [args]. *)
Definition playCommand (h : Host) (absolutePath : string) (vol : number)
  : list string :=
  if is_darwin h then macPlayCommand absolutePath vol
  else windowsPlayCommand absolutePath vol.

End Command.

(* ------------------------------------------------------------------ *)
(** ** The single-quoted literal of the PowerShell language *)
(* ------------------------------------------------------------------ *)

(** This part is not code of the repository: it is the lexical grammar
    of the language in which the generated script is written (PowerShell
    language specification, 2.3.5.2, verbatim string literals), needed
    to say what the literal built around the path denotes. *)
Module PowerShell.
Import JsString.

(** The three bytes of one of the typographic single quotes U+2018,
    U+2019, U+201A and U+201B, which the language accepts wherever it
    accepts the ASCII quote. *)
Definition typographic (a b c : ascii) : bool :=
  ((N_of_ascii a =? 226) && (N_of_ascii b =? 128)
   && (152 <=? N_of_ascii c) && (N_of_ascii c <=? 155))%N.

(** The text starts with a typographic single quote. *)
Definition starts_typographic (s : string) : bool :=
  match s with
  | String a (String b (String c _)) => typographic a b c
  | _ => false
  end.

(** The text starts with a single-quote character of the language. *)
Definition starts_with_quote (s : string) : bool :=
  match s with
  | String a _ => Ascii.eqb a squote || starts_typographic s
  | EmptyString => false
  end.

Definition push (a : ascii) (r : option (string * string))
  : option (string * string) :=
  match r with
  | Some (text, after) => Some (String a text, after)
  | None => None
  end.

(** The body of a single-quoted literal, read from the character after
    the opening quote: a single-quote character followed by another one
    stands for the second of the two, a single-quote character followed
    by anything else ends the literal. The result is the text of the
    literal and what follows its closing quote, [None] when the literal
    is not closed. *)
Fixpoint read_literal (s : string) : option (string * string) :=
  match s with
  | EmptyString => None
  | String a rest =>
      if Ascii.eqb a squote then
        match rest with
        | String b rest1 =>
            if Ascii.eqb b squote then push b (read_literal rest1)
            else if starts_typographic rest then
              match rest1 with
              | String c (String d rest3) =>
                  push b (push c (push d (read_literal rest3)))
              | _ => None
              end
            else Some (EmptyString, rest)
        | EmptyString => Some (EmptyString, EmptyString)
        end
      else if starts_typographic s then
        match rest with
        | String _ (String _ rest2) =>
            match rest2 with
            | String b rest3 =>
                if Ascii.eqb b squote then push b (read_literal rest3)
                else if starts_typographic rest2 then
                  match rest3 with
                  | String c (String d rest5) =>
                      push b (push c (push d (read_literal rest5)))
                  | _ => None
                  end
                else Some (EmptyString, rest2)
            | EmptyString => Some (EmptyString, EmptyString)
            end
        | _ => None
        end
      else push a (read_literal rest)
  end.

(** No typographic single quote occurs in the text. *)
Fixpoint typographic_quote_free (s : string) : bool :=
  match s with
  | EmptyString => true
  | String _ rest => negb (starts_typographic s) && typographic_quote_free rest
  end.

End PowerShell.

(* ------------------------------------------------------------------ *)
(** ** The exec-based module (first [index.js]) *)
(* ------------------------------------------------------------------ *)

Module Legacy.
Import JsString Number.

Definition macPlayCommand (path : string) (volume rate : number) : string :=
  "afplay " ++ dquote ++ path ++ dquote ++ " -v " ++ Number.toString volume
  ++ " -r " ++ Number.toString rate.

Definition addPresentationCore : string :=
  "Add-Type -AssemblyName presentationCore;".
Definition createMediaPlayer : string :=
  "$player = New-Object system.windows.media.mediaplayer;".
Definition loadAudioFile (path : string) : string :=
  "$player.open('" ++ path ++ "');".
Definition playAudio : string := "$player.Play();".
Definition stopAudio : string :=
  "Start-Sleep 1; Start-Sleep -s $player.NaturalDuration.TimeSpan.TotalSeconds;Exit;".

Definition windowPlayCommand (path : string) (volume : number) : string :=
  "powershell -c " ++ addPresentationCore ++ " " ++ createMediaPlayer ++ " "
  ++ loadAudioFile path ++ " $player.Volume = " ++ Number.toString volume ++ "; "
  ++ playAudio ++ " " ++ stopAudio.

(** What [execPromise] settles with once the command has run. *)
Inductive ExecResult : Type :=
| ExecDone (stdout stderr : string)
| ExecFailed (err : string).

(** The settled state of the promise an [async] function returns. *)
Inductive Settled : Type :=
| Resolved
| RejectedWith (err : string).

Definition volumeAdjustedByOS (h : Host) (volume : number) : number :=
  if is_darwin h then Math_min two (mul volume two) else volume.

Definition playCommand (h : Host) (path : string) (volume rate : number) : string :=
  if is_darwin h
  then macPlayCommand path (volumeAdjustedByOS h volume) rate
  else windowPlayCommand path (volumeAdjustedByOS h volume).

(** [play]: the command is handed to [exec] with [windowsHide]; the
    promise of the call settles when the command has finished, and an
    error of [exec] is thrown again, which rejects the promise. An
    exception that [exec] throws at once is caught in the same way, so
    it is among the failures of [exec] here. *)
Definition play (h : Host) (exec : string -> bool -> ExecResult)
    (path : string) (volume rate : option number) : Settled :=
  let volume := with_default half volume in
  let rate := with_default one rate in
  match exec (playCommand h path volume rate) true with
  | ExecDone _ _ => Resolved
  | ExecFailed err => RejectedWith err
  end.

End Legacy.

(* ------------------------------------------------------------------ *)
(** ** The registry: a JavaScript [Map] with string keys *)
(* ------------------------------------------------------------------ *)

Module JsMap.

Section WithValues.
Context {V : Type}.

(** Entries in insertion order, as [Map] iterates them. *)
Definition t : Type := list (string * V).

Definition empty : t := [].

Fixpoint get (k : string) (m : t) : option V :=
  match m with
  | [] => None
  | (k', v) :: rest => if String.eqb k' k then Some v else get k rest
  end.

Definition has (k : string) (m : t) : bool :=
  match get k m with Some _ => true | None => false end.

(** [set] keeps the place of a key that is present, and appends a new
    one. *)
Fixpoint set (k : string) (v : V) (m : t) : t :=
  match m with
  | [] => [(k, v)]
  | (k', v') :: rest =>
      if String.eqb k' k then (k, v) :: rest else (k', v') :: set k v rest
  end.

Fixpoint delete (k : string) (m : t) : t :=
  match m with
  | [] => []
  | (k', v) :: rest =>
      if String.eqb k' k then delete k rest else (k', v) :: delete k rest
  end.

Definition keys (m : t) : list string := map fst m.

Definition values (m : t) : list V := map snd m.

(** A [Map] holds a key once. *)
Definition wf (m : t) : Prop := NoDup (keys m).

End WithValues.

Arguments t : clear implicits.

End JsMap.

(* ------------------------------------------------------------------ *)
(** ** The world: registry, process table, promises, random source *)
(* ------------------------------------------------------------------ *)

Definition PlaybackId : Type := string.

(** A child process object, by reference into the process table. *)
Definition ChildRef : Type := nat.

(** A promise object, by reference into the table of promises. *)
Definition PromiseRef : Type := nat.

Inductive Signal : Type := SIGTERM.

Inductive EventName : Type := ExitEvent | ErrorEvent.

Definition EventName_eqb (a b : EventName) : bool :=
  match a, b with
  | ExitEvent, ExitEvent | ErrorEvent, ErrorEvent => true
  | _, _ => false
  end.

(** The closures the modules hand to the event emitter. *)
Inductive Callback : Type :=
| DeleteId (id : PlaybackId)
    (** [() => activeChildren.delete(id)] *)
| DeleteAndResolve (id : PlaybackId) (resolveFinished : PromiseRef).
    (** [() => { activeChildren.delete(id); resolveFinished(); }] *)

Record Listener : Type := {
  event : EventName;
  once : bool;
  callback : Callback
}.

Record SpawnOptions : Type := {
  detached : bool;
  windowsHide : bool
}.

Record ChildProcess : Type := {
  spawnfile : string;
  spawnargs : list string;
  options : SpawnOptions;
  listeners : list Listener;
  signals : list Signal
}.

Inductive PromiseState : Type := Pending | Fulfilled | Rejected.

Record World : Type := {
  activeChildren : JsMap.t ChildRef;
  processes : list ChildProcess;
  promises : list PromiseState;
  (** the promises in the order in which they were fulfilled *)
  fulfilments : list PromiseRef;
  (** the bytes of the random source, and how many were drawn *)
  entropy : nat -> byte;
  drawn : nat
}.

(** The world when the module is loaded. *)
Definition initial (rnd : nat -> byte) : World := {|
  activeChildren := JsMap.empty;
  processes := [];
  promises := [];
  fulfilments := [];
  entropy := rnd;
  drawn := 0
|}.

Definition set_activeChildren (m : JsMap.t ChildRef) (w : World) : World := {|
  activeChildren := m;
  processes := processes w;
  promises := promises w;
  fulfilments := fulfilments w;
  entropy := entropy w;
  drawn := drawn w
|}.

Definition set_processes (ps : list ChildProcess) (w : World) : World := {|
  activeChildren := activeChildren w;
  processes := ps;
  promises := promises w;
  fulfilments := fulfilments w;
  entropy := entropy w;
  drawn := drawn w
|}.

Definition set_promises (ps : list PromiseState) (log : list PromiseRef)
    (w : World) : World := {|
  activeChildren := activeChildren w;
  processes := processes w;
  promises := ps;
  fulfilments := log;
  entropy := entropy w;
  drawn := drawn w
|}.

Definition set_drawn (n : nat) (w : World) : World := {|
  activeChildren := activeChildren w;
  processes := processes w;
  promises := promises w;
  fulfilments := fulfilments w;
  entropy := entropy w;
  drawn := n
|}.

(** Replace the element at an index; nothing happens out of range. *)
Fixpoint update_nth {A : Type} (n : nat) (f : A -> A) (l : list A) : list A :=
  match l, n with
  | [], _ => []
  | x :: rest, O => f x :: rest
  | x :: rest, S k => x :: update_nth k f rest
  end.

(* ------------------------------------------------------------------ *)
(** ** The state monad of module code *)
(* ------------------------------------------------------------------ *)

Definition JS (A : Type) : Type := World -> A * World.

Definition ret {A : Type} (a : A) : JS A := fun w => (a, w).

Definition bind {A B : Type} (m : JS A) (k : A -> JS B) : JS B :=
  fun w => let (a, w') := m w in k a w'.

Declare Scope js_scope.
Delimit Scope js_scope with js.
Notation "x <- m ;; k" := (bind m (fun x => k))
  (at level 61, m at next level, right associativity) : js_scope.
Notation "m ;; k" := (bind m (fun _ => k))
  (at level 61, right associativity) : js_scope.
Open Scope js_scope.

(** The world after a computation, and its result. *)
Definition exec {A : Type} (m : JS A) (w : World) : World := snd (m w).
Definition eval {A : Type} (m : JS A) (w : World) : A := fst (m w).

(** [for (const x of xs) body(x)]. *)
Fixpoint for_of {A : Type} (xs : list A) (body : A -> JS unit) : JS unit :=
  match xs with
  | [] => ret tt
  | x :: rest => body x ;; for_of rest body
  end.

(** *** Exceptions *)

(** The exceptions that the code of the modules can meet. *)
Inductive JsError : Type :=
| ERR_INVALID_ARG_VALUE
    (** the [TypeError] of the argument check of [spawn] *)
| ErrnoException (code : string)
    (** the error that [spawn] throws for an error code of the system *)
| TypeError_not_a_function.
    (** calling a property that is not a function *)

(** How a call ends: with a value, or with an exception. *)
Inductive Completion (A : Type) : Type :=
| Normal (a : A)
| Throw (e : JsError).

Arguments Normal {A} a.
Arguments Throw {A} e.

(** Sequencing of a call that can throw: an exception ends the function
    that makes the call, with the world as the call left it. *)
Definition bind_normal {A B : Type} (m : JS (Completion A))
    (k : A -> JS (Completion B)) : JS (Completion B) :=
  fun w =>
    match m w with
    | (Normal a, w') => k a w'
    | (Throw e, w') => (Throw e, w')
    end.

Notation "x <-! m ;; k" := (bind_normal m (fun x => k))
  (at level 61, m at next level, right associativity) : js_scope.

(** [for (const x of xs) body(x)] with a body that can throw. *)
Fixpoint for_of_throwing {A : Type} (xs : list A)
    (body : A -> JS (Completion unit)) : JS (Completion unit) :=
  match xs with
  | [] => ret (Normal tt)
  | x :: rest => _ <-! body x ;; for_of_throwing rest body
  end.

(* ------------------------------------------------------------------ *)
(** ** Runtime primitives *)
(* ------------------------------------------------------------------ *)

Module Runtime.

(** [crypto.randomBytes(n)]: the next [n] bytes of the source. The
    source is taken to deliver (the call throws when the random source
    of the system fails). *)
Definition randomBytes (n : nat) : JS (list byte) :=
  fun w => (map (entropy w) (seq (drawn w) n), set_drawn (drawn w + n) w).

(** A string that holds the character of code zero. *)
Fixpoint has_nul (s : string) : bool :=
  match s with
  | EmptyString => false
  | String a rest => Ascii.eqb a Ascii.zero || has_nul rest
  end.

(** The argument check of [spawn]: the command is not empty, and neither
    the command nor an argument holds the character of code zero. *)
Definition rejected_arguments (cmd : string) (args : list string) : bool :=
  String.eqb cmd EmptyString || has_nul cmd || existsb has_nul args.

(** The exception with which [spawn] ends for a command, if any: the
    one of the argument check, or the one for an error code that the
    system reports at once and that is not left to the [error] event. *)
Definition spawn_error (h : Host) (cmd : string) (args : list string)
  : option JsError :=
  if rejected_arguments cmd args then Some ERR_INVALID_ARG_VALUE
  else
    match spawn_errno h cmd args with
    | Some code => Some (ErrnoException code)
    | None => None
    end.

(** [spawn(cmd, args, options)]: a new child process object, unless the
    call throws. When it returns, it returns a handle whether or not the
    program can be started; a failure to find or to start the program is
    reported later, by the [error] event of the handle. When it throws,
    no process object is left behind. *)
Definition spawn (h : Host) (cmd : string) (args : list string)
    (opts : SpawnOptions) : JS (Completion ChildRef) :=
  fun w =>
    match spawn_error h cmd args with
    | Some e => (Throw e, w)
    | None =>
        let child := {| spawnfile := cmd; spawnargs := args; options := opts;
                        listeners := []; signals := [] |} in
        (Normal (List.length (processes w)),
         set_processes (processes w ++ [child])%list w)
    end.

Definition add_listener (l : Listener) (p : ChildProcess) : ChildProcess := {|
  spawnfile := spawnfile p; spawnargs := spawnargs p; options := options p;
  listeners := (listeners p ++ [l])%list; signals := signals p
|}.

Definition set_listeners (ls : list Listener) (p : ChildProcess) : ChildProcess := {|
  spawnfile := spawnfile p; spawnargs := spawnargs p; options := options p;
  listeners := ls; signals := signals p
|}.

Definition add_signal (s : Signal) (p : ChildProcess) : ChildProcess := {|
  spawnfile := spawnfile p; spawnargs := spawnargs p; options := options p;
  listeners := listeners p; signals := (signals p ++ [s])%list
|}.

(** [child.on(event, callback)] and [child.once(event, callback)]. *)
Definition child_on (c : ChildRef) (ev : EventName) (cb : Callback) : JS unit :=
  fun w =>
    (tt, set_processes
           (update_nth c (add_listener {| event := ev; once := false; callback := cb |})
              (processes w)) w).

Definition child_once (c : ChildRef) (ev : EventName) (cb : Callback) : JS unit :=
  fun w =>
    (tt, set_processes
           (update_nth c (add_listener {| event := ev; once := true; callback := cb |})
              (processes w)) w).

(** [child.kill()]: the default signal is sent to the process. *)
Definition child_kill (c : ChildRef) : JS unit :=
  fun w => (tt, set_processes (update_nth c (add_signal SIGTERM) (processes w)) w).

(** The registry operations. *)
Definition activeChildren_get (id : PlaybackId) : JS (option ChildRef) :=
  fun w => (JsMap.get id (activeChildren w), w).

Definition activeChildren_set (id : PlaybackId) (c : ChildRef) : JS unit :=
  fun w => (tt, set_activeChildren (JsMap.set id c (activeChildren w)) w).

Definition activeChildren_delete (id : PlaybackId) : JS unit :=
  fun w => (tt, set_activeChildren (JsMap.delete id (activeChildren w)) w).

(** [Array.from(activeChildren.keys())]: the keys at the time of the call. *)
Definition activeChildren_keys : JS (list PlaybackId) :=
  fun w => (JsMap.keys (activeChildren w), w).

(** [new Promise((resolve) => ...)]: a pending promise; its executor only
    stores [resolve]. *)
Definition new_Promise : JS PromiseRef :=
  fun w => (List.length (promises w),
            set_promises (promises w ++ [Pending])%list (fulfilments w) w).

Definition promise_state (p : PromiseRef) (w : World) : option PromiseState :=
  nth_error (promises w) p.

(** The [resolve] function of a promise, called without a value: a pending
    promise is fulfilled, a settled one is left as it is. *)
Definition resolve (p : PromiseRef) : JS unit :=
  fun w =>
    match promise_state p w with
    | Some Pending =>
        (tt, set_promises (update_nth p (fun _ => Fulfilled) (promises w))
               (fulfilments w ++ [p])%list w)
    | _ => (tt, w)
    end.

(** Calling a closure. *)
Definition call (cb : Callback) : JS unit :=
  match cb with
  | DeleteId id => activeChildren_delete id
  | DeleteAndResolve id resolveFinished =>
      activeChildren_delete id ;; resolve resolveFinished
  end.

Definition listens (ev : EventName) (l : Listener) : bool :=
  EventName_eqb (event l) ev.

(** The child emits an event: its listeners for the event are called in
    the order of their registration, and those registered with [once]
    are removed before they run. *)
Definition emit (c : ChildRef) (ev : EventName) : JS unit :=
  fun w =>
    match nth_error (processes w) c with
    | None => (tt, w)
    | Some p =>
        let fired := filter (listens ev) (listeners p) in
        let kept := filter (fun l => negb (listens ev l && once l)) (listeners p) in
        for_of fired (fun l => call (callback l))
          (set_processes (update_nth c (set_listeners kept) (processes w)) w)
    end.

End Runtime.

(* ------------------------------------------------------------------ *)
(** ** The spawn-based modules *)
(* ------------------------------------------------------------------ *)

Import Runtime.

(** [makeId]: four random bytes as eight hexadecimal characters. The
    three modules carry the same text. *)
Definition makeId : JS PlaybackId :=
  buf <- randomBytes 4 ;;
  ret (Hex.encode buf).

(** [const [cmd, ...args] = array]. *)
Definition cmd_of (argv : list string) : string := List.hd EmptyString argv.
Definition args_of (argv : list string) : list string := List.tl argv.

Definition spawn_options : SpawnOptions :=
  {| detached := false; windowsHide := true |}.

(** [stop], the same text in the three modules. It calls no function of
    the module, so the receiver of the call plays no part. *)
Definition stop (id : PlaybackId) : JS bool :=
  child <- activeChildren_get id ;;
  match child with
  | None => ret false
  | Some c =>
      child_kill c ;;
      activeChildren_delete id ;;
      ret true
  end.

(** [stopAll] of [src/audio-player.ts] and of the enhanced module, the same
    text in both: the loop calls the function [stop] of the module
    scope. *)
Definition stopAll : JS unit :=
  ids <- activeChildren_keys ;;
  for_of ids (fun id => stop id ;; ret tt).

(** [src/audio-player.ts]. *)
Module AudioPlayer.

Definition play (h : Host) (filePath : string) (volume : option Number.number)
  : JS (Completion PlaybackId) :=
  let volume := with_default Number.half volume in
  let absolutePath := path_resolve h filePath in
  let volForOs := Command.volForOs h volume in
  let argv := Command.playCommand h absolutePath volForOs in
  child <-! spawn h (cmd_of argv) (args_of argv) spawn_options ;;
  id <- makeId ;;
  activeChildren_set id child ;;
  let cleanup := DeleteId id in
  child_once child ExitEvent cleanup ;;
  child_once child ErrorEvent cleanup ;;
  ret (Normal id).

End AudioPlayer.

(** The CommonJS module of [src/index.js]. *)
Module CommonJS.

Definition play (h : Host) (filePath : string) (volume : option Number.number)
  : JS (Completion PlaybackId) :=
  let volume := with_default Number.half volume in
  let absolutePath := path_resolve h filePath in
  let volForOs := Command.volForOs h volume in
  let argv := Command.playCommand h absolutePath volForOs in
  child <-! spawn h (cmd_of argv) (args_of argv) spawn_options ;;
  id <- makeId ;;
  activeChildren_set id child ;;
  child_on child ExitEvent (DeleteId id) ;;
  child_on child ErrorEvent (DeleteId id) ;;
  ret (Normal id).

(** The receiver of a call of [stopAll]: the exported object, whose
    [stop] property is the function [stop] of the module, as in
    [player.stopAll()]; or a value without a callable [stop], as when
    the function is called on its own after
    [const { stopAll } = require(...)]. A receiver that brings a [stop]
    function of its own makes the loop run that function, which is code
    from outside the module; such receivers are not among the cases. *)
Inductive Receiver : Type := ExportsObject | NoStopMethod.

(** [this.stop(id)]. *)
Definition this_stop (this_ : Receiver) (id : PlaybackId)
  : JS (Completion bool) :=
  match this_ with
  | ExportsObject => stopped <- stop id ;; ret (Normal stopped)
  | NoStopMethod => ret (Throw TypeError_not_a_function)
  end.

(** [stopAll]: the loop calls [this.stop(id)]. *)
Definition stopAll (this_ : Receiver) : JS (Completion unit) :=
  ids <- activeChildren_keys ;;
  for_of_throwing ids (fun id => _ <-! this_stop this_ id ;; ret (Normal tt)).

End CommonJS.

(** The enhanced module: [play] returns [{ id, finished }]. *)
Module Enhanced.

Record PlayResult : Type := {
  id : PlaybackId;
  finished : PromiseRef
}.

Definition play (h : Host) (filePath : string) (volume : option Number.number)
  : JS (Completion PlayResult) :=
  let volume := with_default Number.half volume in
  let absolutePath := path_resolve h filePath in
  let volForOs := Command.volForOs h volume in
  let argv := Command.playCommand h absolutePath volForOs in
  child <-! spawn h (cmd_of argv) (args_of argv) spawn_options ;;
  id <- makeId ;;
  activeChildren_set id child ;;
  resolveFinished <- new_Promise ;;
  let cleanup := DeleteAndResolve id resolveFinished in
  child_once child ExitEvent cleanup ;;
  child_once child ErrorEvent cleanup ;;
  ret (Normal {| id := id; finished := resolveFinished |}).

End Enhanced.

(* ------------------------------------------------------------------ *)
(** ** Runs of a module *)
(* ------------------------------------------------------------------ *)

(** Which of the three spawn-based modules is loaded. *)
Inductive Flavour : Type := TypeScript | CommonJs | EnhancedJs.

(** What happens to a loaded module: calls of its operations by the
    program, and events that the child processes emit. A call of
    [stopAll] comes with its receiver, which only the CommonJS module
    looks at. *)
Inductive Op : Type :=
| Play (filePath : string) (volume : option Number.number)
| Stop (id : PlaybackId)
| StopAll (this_ : CommonJS.Receiver)
| Emit (c : ChildRef) (ev : EventName).

(** [play] of a module, with the id of its result. *)
Definition play_of (fl : Flavour) (h : Host) (filePath : string)
    (volume : option Number.number) : JS (Completion PlaybackId) :=
  match fl with
  | TypeScript => AudioPlayer.play h filePath volume
  | CommonJs => CommonJS.play h filePath volume
  | EnhancedJs =>
      r <-! Enhanced.play h filePath volume ;; ret (Normal (Enhanced.id r))
  end.

(** [stopAll] of a module. *)
Definition stopAll_of (fl : Flavour) (this_ : CommonJS.Receiver)
  : JS (Completion unit) :=
  match fl with
  | CommonJs => CommonJS.stopAll this_
  | _ => stopAll ;; ret (Normal tt)
  end.

(** One operation of a run. An exception of a call goes to the caller:
    the module goes on from the world in which the call ended. *)
Definition step (fl : Flavour) (h : Host) (op : Op) : JS unit :=
  match op with
  | Play filePath volume => play_of fl h filePath volume ;; ret tt
  | Stop id => stop id ;; ret tt
  | StopAll this_ => stopAll_of fl this_ ;; ret tt
  | Emit c ev => emit c ev
  end.

Definition run (fl : Flavour) (h : Host) (ops : list Op) : JS unit :=
  for_of ops (step fl h).

(** The worlds a loaded module can be in. *)
Definition reachable (fl : Flavour) (h : Host) (w : World) : Prop :=
  exists rnd ops, w = exec (run fl h ops) (initial rnd).

(** The child that the next [spawn] creates. *)
Definition next_child (w : World) : ChildRef := List.length (processes w).

(** The promise that the next [new Promise] creates. *)
Definition next_promise (w : World) : PromiseRef := List.length (promises w).

(** The bytes that the next [makeId] draws. *)
Definition next_bytes (w : World) : list byte :=
  map (entropy w) (seq (drawn w) 4).

(** The child process object behind a reference. *)
Definition process (c : ChildRef) (w : World) : option ChildProcess :=
  nth_error (processes w) c.

(** The signals that a child has been sent. *)
Definition signals_of (c : ChildRef) (w : World) : list Signal :=
  match process c w with Some p => signals p | None => [] end.

(** The listeners registered on a child. *)
Definition listeners_of (c : ChildRef) (w : World) : list Listener :=
  match process c w with Some p => listeners p | None => [] end.

(* ------------------------------------------------------------------ *)
(** ** Vocabulary of the specification *)
(* ------------------------------------------------------------------ *)

(** The registry of a well-formed world: every key is held once, every
    handle is a process of the table, and no two ids share a handle. *)
Record registry_ok (w : World) : Prop := {
  keys_once : NoDup (JsMap.keys (activeChildren w));
  handles_once : NoDup (JsMap.values (activeChildren w));
  handles_live : forall c, In c (JsMap.values (activeChildren w)) ->
                           c < List.length (processes w)
}.

(** The registry after a sequence of [delete] calls. *)
Definition deletes (ks : list PlaybackId) (m : JsMap.t ChildRef) : JsMap.t ChildRef :=
  fold_left (fun m' k => JsMap.delete k m') ks m.

(** The id that a closure deletes from the registry. *)
Definition deleted_id (cb : Callback) : PlaybackId :=
  match cb with
  | DeleteId id => id
  | DeleteAndResolve id _ => id
  end.

(** The promise that a closure resolves, if any. *)
Definition resolved_promise (cb : Callback) : option PromiseRef :=
  match cb with
  | DeleteId _ => None
  | DeleteAndResolve _ p => Some p
  end.

(** The ids that the [Play] calls of a run return, in order. *)
Fixpoint played_ids (fl : Flavour) (h : Host) (ops : list Op) (w : World)
  : list PlaybackId :=
  match ops with
  | [] => []
  | op :: rest =>
      let w' := exec (step fl h op) w in
      match op with
      | Play filePath volume =>
          match eval (play_of fl h filePath volume) w with
          | Normal id => id :: played_ids fl h rest w'
          | Throw _ => played_ids fl h rest w'
          end
      | _ => played_ids fl h rest w'
      end
  end.

(** The results of the [Stop id] calls of a run, in order. *)
Fixpoint stop_results (fl : Flavour) (h : Host) (id : PlaybackId)
    (ops : list Op) (w : World) : list bool :=
  match ops with
  | [] => []
  | op :: rest =>
      let w' := exec (step fl h op) w in
      match op with
      | Stop id' =>
          if String.eqb id' id
          then eval (stop id') w :: stop_results fl h id rest w'
          else stop_results fl h id rest w'
      | _ => stop_results fl h id rest w'
      end
  end.

(** How many of the results are [true]. *)
Definition count_true (l : list bool) : nat := List.length (filter (fun b => b) l).

(** How often a promise was fulfilled. *)
Definition fulfilled_times (p : PromiseRef) (w : World) : nat :=
  count_occ (A := PromiseRef) Nat.eq_dec (fulfilments w) p.

(** Every character is a lowercase hexadecimal digit. *)
Definition all_hex (s : string) : bool :=
  forallb Hex.is_digit (JsString.chars s).

(** Sample hosts. *)
Definition darwin_host : Host :=
  {| platform := "darwin"; path_resolve := fun p => "/Users/me/" ++ p;
     spawn_errno := fun _ _ => None |}.

Definition win32_host : Host :=
  {| platform := "win32"; path_resolve := fun p => "C:\sounds\" ++ p;
     spawn_errno := fun _ _ => None |}.

(** Sample random sources: one that never repeats a block of four bytes
    within the first draws, and one that always yields the same byte. *)
Definition counting_bytes : nat -> byte :=
  fun n => match Byte.of_N (N.of_nat (n * 37 mod 256)) with
           | Some b => b
           | None => x00
           end.

Definition constant_bytes : nat -> byte := fun _ => x2a.

(** The number nearest to eight tenths, the literal [0.8]. *)
Definition zero_point_eight : Number.number :=
  Number.div (Number.of_Z 8) (Number.of_Z 10).

(** An [exec] that cannot start the program. *)
Definition failing_exec : string -> bool -> Legacy.ExecResult :=
  fun _ _ => Legacy.ExecFailed "spawn afplay ENOENT".

(** The process object that [play] creates, with the listeners [ls] that
    the module registers on it. *)
Definition launched (h : Host) (filePath : string)
    (volume : option Number.number) (ls : list Listener) : ChildProcess :=
  let argv :=
    Command.playCommand h (path_resolve h filePath)
      (Command.volForOs h (with_default Number.half volume)) in
  {| spawnfile := cmd_of argv; spawnargs := args_of argv;
     options := spawn_options; listeners := ls; signals := [] |}.

Definition on_exit (once_ : bool) (cb : Callback) : Listener :=
  {| event := ExitEvent; once := once_; callback := cb |}.

Definition on_error (once_ : bool) (cb : Callback) : Listener :=
  {| event := ErrorEvent; once := once_; callback := cb |}.

(** The command line of a child: the program and its arguments. *)
Definition spawned_command (c : ChildRef) (w : World) : option (list string) :=
  match process c w with
  | Some p => Some (spawnfile p :: spawnargs p)
  | None => None
  end.

(** An id that can be looked up and stopped: it is registered with a
    process of the table, [stop] on it returns [true], signals that
    process and leaves the id unregistered. *)
Definition stoppable (id : PlaybackId) (c : ChildRef) (w : World) : Prop :=
  JsMap.get id (activeChildren w) = Some c
  /\ c < List.length (processes w)
  /\ eval (stop id) w = true
  /\ signals_of c (exec (stop id) w) = (signals_of c w ++ [SIGTERM])%list
  /\ JsMap.get id (activeChildren (exec (stop id) w)) = None.

(** The text that follows the first occurrence of [needle]. *)
Fixpoint strip_prefix (needle s : string) : option string :=
  match needle, s with
  | EmptyString, _ => Some s
  | String a needle', String b s' =>
      if Ascii.eqb a b then strip_prefix needle' s' else None
  | String _ _, EmptyString => None
  end.

Fixpoint text_after (needle s : string) : option string :=
  match strip_prefix needle s with
  | Some rest => Some rest
  | None =>
      match s with
      | EmptyString => None
      | String _ rest => text_after needle rest
      end
  end.

(** The file name that a script text hands to [$player.open]: the text of
    the single-quoted literal that follows [$player.open(], as the
    grammar of the language reads it. The script text is taken as it is
    built; what a shell between [exec] and the interpreter makes of it is
    not part of this reading. *)
Definition opened_file (script : string) : option string :=
  match text_after "$player.open('" script with
  | Some rest =>
      match PowerShell.read_literal rest with
      | Some (text, _) => Some text
      | None => None
      end
  | None => None
  end.

Definition zero : Number.number := Number.of_Z 0.

(** The listeners that each module registers on the child of a [play]
    that returns [id]; [p] is the promise of the enhanced module. *)
Definition registered_listeners (fl : Flavour) (id : PlaybackId) (p : PromiseRef)
  : list Listener :=
  match fl with
  | TypeScript => [on_exit true (DeleteId id); on_error true (DeleteId id)]
  | CommonJs => [on_exit false (DeleteId id); on_error false (DeleteId id)]
  | EnhancedJs =>
      [on_exit true (DeleteAndResolve id p); on_error true (DeleteAndResolve id p)]
  end.

(** The promises after a [play] of each module. *)
Definition promises_after_play (fl : Flavour) (ps : list PromiseState)
  : list PromiseState :=
  match fl with
  | EnhancedJs => (ps ++ [Pending])%list
  | _ => ps
  end.

(** The handles that the registry holds for a list of ids, in order. *)
Definition handles_of (ids : list PlaybackId) (m : JsMap.t ChildRef)
  : list ChildRef :=
  flat_map (fun id => match JsMap.get id m with Some c => [c] | None => [] end) ids.

(** The process table after [kill] on each child of a list. *)
Definition kills (cs : list ChildRef) (ps : list ChildProcess) : list ChildProcess :=
  fold_left (fun ps' c => update_nth c (add_signal SIGTERM) ps') cs ps.

(** The signals of a child in a process table. *)
Definition signals_in (ps : list ChildProcess) (c : ChildRef) : list Signal :=
  match nth_error ps c with Some p => signals p | None => [] end.

(** Two worlds with the same promises, the same log and the same
    listeners on every child: they differ at most in the registry, in the
    signals sent and in the random bytes drawn. *)
Record same_observers (w w' : World) : Prop := {
  same_promises : promises w' = promises w;
  same_fulfilments : fulfilments w' = fulfilments w;
  same_listeners : forall c, listeners_of c w' = listeners_of c w;
  same_size : List.length (processes w') = List.length (processes w)
}.

(** The state of the promises and the log of fulfilments agree: a
    fulfilled promise is logged once, any other not at all, and no
    promise is rejected. *)
Definition log_ok (ps : list PromiseState) (log : list PromiseRef) : Prop :=
  forall q,
    count_occ (A := PromiseRef) Nat.eq_dec log q
    = match nth_error ps q with Some Fulfilled => 1 | _ => 0 end
    /\ nth_error ps q <> Some Rejected.

Definition promises_ok (w : World) : Prop := log_ok (promises w) (fulfilments w).

(** The closures registered on the children resolve promises that
    exist. *)
Definition closures_ok (w : World) : Prop :=
  forall c l q,
    In l (listeners_of c w) ->
    resolved_promise (callback l) = Some q ->
    q < List.length (promises w).

(** The observer of [ev] that the enhanced [play] registers. *)
Definition cleanup_on (ev : EventName) (id : PlaybackId) (p : PromiseRef) : Listener :=
  {| event := ev; once := true; callback := DeleteAndResolve id p |}.

(** The playback [id] with completion signal [p] on child [c] is armed:
    the promise exists; for each event, the promise is fulfilled or the
    observer of the event is still registered on the child; and every
    closure that resolves [p] deletes [id]. *)
Record armed (id : PlaybackId) (p : PromiseRef) (c : ChildRef) (w : World)
  : Prop := {
  armed_exists : p < List.length (promises w);
  armed_child : c < List.length (processes w);
  armed_observers : forall ev,
      promise_state p w = Some Fulfilled
      \/ In (cleanup_on ev id p) (listeners_of c w);
  armed_owner : forall c' l,
      In l (listeners_of c' w) ->
      resolved_promise (callback l) = Some p ->
      deleted_id (callback l) = id
}.

(** One call of a [resolve] function, on the promises and the log. *)
Definition settle (q : PromiseRef) (st : list PromiseState * list PromiseRef)
  : list PromiseState * list PromiseRef :=
  match nth_error (fst st) q with
  | Some Pending => (update_nth q (fun _ => Fulfilled) (fst st), (snd st ++ [q])%list)
  | _ => st
  end.

Definition settle_all (qs : list PromiseRef)
    (st : list PromiseState * list PromiseRef)
  : list PromiseState * list PromiseRef :=
  fold_left (fun st' q => settle q st') qs st.

(** The promises that the closures of a list of listeners resolve. *)
Definition promises_resolved_by (ls : list Listener) : list PromiseRef :=
  flat_map (fun l => match resolved_promise (callback l) with
                     | Some q => [q]
                     | None => []
                     end) ls.

(** The listeners of a child that an event leaves in place. *)
Definition kept_listeners (ev : EventName) (ls : list Listener) : list Listener :=
  filter (fun l => negb (listens ev l && once l)) ls.

(** An event operation on the child [c]. *)
Definition emits_on (c : ChildRef) (op : Op) : bool :=
  match op with
  | Emit c' _ => Nat.eqb c' c
  | _ => false
  end.

(** A run in which the child [c] emits no event. *)
Definition silent_on (c : ChildRef) (ops : list Op) : bool :=
  forallb (fun op => negb (emits_on c op)) ops.

(** An id as the generator makes them: eight lowercase hexadecimal
    characters. *)
Definition generated_id (k : PlaybackId) : Prop :=
  String.length k = 8 /\ all_hex k = true.

(** Every closure registered on the child [c] deletes the id [id]. *)
Definition deletes_only (id : PlaybackId) (c : ChildRef) (w : World) : Prop :=
  forall l, In l (listeners_of c w) -> deleted_id (callback l) = id.

(** The signals sent so far: a registered process has been sent none, and
    no process has been sent more than one. *)
Record signals_ok (w : World) : Prop := {
  registered_unsignalled :
    forall c, In c (JsMap.values (activeChildren w)) -> signals_of c w = [];
  signalled_once : forall c, List.length (signals_of c w) <= 1
}.

(** The promise [p] is pending and only closures on the child [c] resolve
    it. *)
Record waiting_on (p : PromiseRef) (c : ChildRef) (w : World) : Prop := {
  waiting_pending : promise_state p w = Some Pending;
  waiting_child : c < List.length (processes w);
  waiting_owner : forall c' l,
      In l (listeners_of c' w) ->
      resolved_promise (callback l) = Some p ->
      c' = c
}.

(** The number five and the number minus one. *)
Definition five : Number.number := Number.of_Z 5.
Definition minus_one : Number.number := Number.of_Z (-1).

(** Every registered playback is still observed: for each event, the
    process of a registered id carries an observer of the event that
    deletes that id. *)
Definition observed (w : World) : Prop :=
  forall id c ev,
    JsMap.get id (activeChildren w) = Some c ->
    exists l, In l (listeners_of c w)
              /\ listens ev l = true
              /\ deleted_id (callback l) = id.

(** The number of [play] calls in a run. *)
Definition count_plays (ops : list Op) : nat :=
  List.length (filter (fun op => match op with Play _ _ => true | _ => false end) ops).

(** The player program of the platform. *)
Definition player (h : Host) : string :=
  if is_darwin h then "afplay" else "powershell".

(** A process as the modules spawn them: the player of the platform, not
    detached, with its window hidden. *)
Definition spawned_by_play (h : Host) (p : ChildProcess) : Prop :=
  spawnfile p = player h
  /\ detached (options p) = false
  /\ windowsHide (options p) = true.

(** The exception with which [play] ends, if any: the one that [spawn]
    throws for the command of the platform. *)
Definition play_error (h : Host) (filePath : string)
    (volume : option Number.number) : option JsError :=
  let argv :=
    Command.playCommand h (path_resolve h filePath)
      (Command.volForOs h (with_default Number.half volume)) in
  spawn_error h (cmd_of argv) (args_of argv).

(** The call of [stopAll] throws: the receiver has no [stop] and there
    is an id to stop. *)
Definition stopAll_throws (fl : Flavour) (this_ : CommonJS.Receiver)
    (w : World) : bool :=
  match fl, this_, activeChildren w with
  | CommonJs, CommonJS.NoStopMethod, _ :: _ => true
  | _, _, _ => false
  end.

(** The negative infinity. *)
Definition minus_infinity : Number.number := S754_infinity true.

(** The character of code zero. *)
Definition nul : string := String Ascii.zero EmptyString.

(** The file name [it's.wav] written with the typographic apostrophe
    U+2019, whose UTF-8 form is the bytes 226, 128 and 153. *)
Definition its_wav : string :=
  "it" ++ String (ascii_of_nat 226) (String (ascii_of_nat 128)
            (String (ascii_of_nat 153) "s.wav")).

(* ------------------------------------------------------------------ *)
(** ** Facts about the registry map *)
(* ------------------------------------------------------------------ *)

Section MapFacts.
Context {V : Type}.
Implicit Types (m : JsMap.t V) (k : string) (v : V).

Lemma get_delete_same k m : JsMap.get k (JsMap.delete k m) = None.
Proof.
  induction m as [|[k' v'] m IH]; simpl; [reflexivity|].
  destruct (String.eqb k' k) eqn:E; simpl; [exact IH|].
  rewrite E. exact IH.
Qed.

Lemma get_delete_other k k' m :
  k' <> k -> JsMap.get k' (JsMap.delete k m) = JsMap.get k' m.
Proof.
  intro Hne. induction m as [|[k0 v0] m IH]; simpl; [reflexivity|].
  destruct (String.eqb k0 k) eqn:E; simpl.
  - apply String.eqb_eq in E. subst k0.
    destruct (String.eqb k k') eqn:E'; [|exact IH].
    apply String.eqb_eq in E'. congruence.
  - rewrite IH. reflexivity.
Qed.

Lemma delete_absent k m : JsMap.get k m = None -> JsMap.delete k m = m.
Proof.
  induction m as [|[k0 v0] m IH]; simpl; [reflexivity|].
  destruct (String.eqb k0 k); [discriminate|].
  intro H. rewrite (IH H). reflexivity.
Qed.

Lemma get_set_same k v m : JsMap.get k (JsMap.set k v m) = Some v.
Proof.
  induction m as [|[k0 v0] m IH]; simpl.
  - rewrite String.eqb_refl. reflexivity.
  - destruct (String.eqb k0 k) eqn:E; simpl.
    + rewrite String.eqb_refl. reflexivity.
    + rewrite E. exact IH.
Qed.

Lemma get_set_other k k' v m :
  k' <> k -> JsMap.get k' (JsMap.set k v m) = JsMap.get k' m.
Proof.
  intro Hne. induction m as [|[k0 v0] m IH]; simpl.
  - destruct (String.eqb k k') eqn:E; [|reflexivity].
    apply String.eqb_eq in E. congruence.
  - destruct (String.eqb k0 k) eqn:E; simpl.
    + apply String.eqb_eq in E. subst k0.
      destruct (String.eqb k k') eqn:E'; [|reflexivity].
      apply String.eqb_eq in E'. congruence.
    + rewrite IH. reflexivity.
Qed.

Lemma get_None_iff k m : JsMap.get k m = None <-> ~ In k (JsMap.keys m).
Proof.
  induction m as [|[k0 v0] m IH]; simpl.
  - split; [intros _ []|reflexivity].
  - destruct (String.eqb k0 k) eqn:E.
    + apply String.eqb_eq in E. split; [discriminate|]. intro H. exfalso. auto.
    + apply String.eqb_neq in E. rewrite IH. tauto.
Qed.

Lemma has_true_iff k m : JsMap.has k m = true <-> In k (JsMap.keys m).
Proof.
  unfold JsMap.has. destruct (JsMap.get k m) eqn:E.
  - split; [intros _|reflexivity].
    destruct (in_dec string_dec k (JsMap.keys m)) as [Hin|Hn]; [exact Hin|].
    apply get_None_iff in Hn. congruence.
  - split; [discriminate|]. intro Hin. apply get_None_iff in E. contradiction.
Qed.

Lemma get_Some_In k v m : JsMap.get k m = Some v -> In (k, v) m.
Proof.
  induction m as [|[k0 v0] m IH]; simpl; [discriminate|].
  destruct (String.eqb k0 k) eqn:E.
  - apply String.eqb_eq in E. intro H. inversion H. subst. left. reflexivity.
  - intro H. right. exact (IH H).
Qed.

Lemma keys_delete k m :
  JsMap.keys (JsMap.delete k m)
  = filter (fun k' => negb (String.eqb k' k)) (JsMap.keys m).
Proof.
  induction m as [|[k0 v0] m IH]; simpl; [reflexivity|].
  destruct (String.eqb k0 k); simpl; rewrite IH; reflexivity.
Qed.

Lemma In_delete k e m : In e (JsMap.delete k m) <-> In e m /\ fst e <> k.
Proof.
  induction m as [|[k0 v0] m IH]; simpl; [tauto|].
  destruct (String.eqb k0 k) eqn:E.
  - apply String.eqb_eq in E. subst k0. rewrite IH.
    split; [tauto|]. intros [[He|Hin] Hne]; [subst e; simpl in Hne; congruence|tauto].
  - apply String.eqb_neq in E. simpl. rewrite IH.
    split; [intros [He|[Hin Hne]]; [subst e; simpl; tauto|tauto]|tauto].
Qed.

Lemma keys_set k v m :
  JsMap.keys (JsMap.set k v m)
  = if JsMap.has k m then JsMap.keys m else (JsMap.keys m ++ [k])%list.
Proof.
  unfold JsMap.has.
  induction m as [|[k0 v0] m IH]; simpl; [reflexivity|].
  destruct (String.eqb k0 k) eqn:E; simpl.
  - apply String.eqb_eq in E. subst k0. reflexivity.
  - rewrite IH. destruct (JsMap.get k m); reflexivity.
Qed.

Lemma In_values_set k v x m :
  In x (JsMap.values (JsMap.set k v m)) -> x = v \/ In x (JsMap.values m).
Proof.
  induction m as [|[k0 v0] m IH]; simpl.
  - intros [H|[]]. left. symmetry. exact H.
  - destruct (String.eqb k0 k); simpl.
    + intros [H|H]; [left; symmetry; exact H|right; right; exact H].
    + intros [H|H]; [right; left; exact H|].
      destruct (IH H) as [H'|H']; [left; exact H'|right; right; exact H'].
Qed.

Lemma In_values_delete k x m :
  In x (JsMap.values (JsMap.delete k m)) -> In x (JsMap.values m).
Proof.
  induction m as [|[k0 v0] m IH]; simpl; [tauto|].
  destruct (String.eqb k0 k); simpl; [intro H; right; exact (IH H)|].
  intros [H|H]; [left; exact H|right; exact (IH H)].
Qed.

Lemma NoDup_keys_delete k m : JsMap.wf m -> JsMap.wf (JsMap.delete k m).
Proof.
  unfold JsMap.wf. intro H. rewrite keys_delete. apply NoDup_filter. exact H.
Qed.

Lemma NoDup_keys_set k v m : JsMap.wf m -> JsMap.wf (JsMap.set k v m).
Proof.
  unfold JsMap.wf. intro H. rewrite keys_set.
  destruct (JsMap.has k m) eqn:E; [exact H|].
  apply NoDup_app; [exact H|constructor; [intros []|constructor]|].
  intros x Hx [Hk|[]]. subst x. apply has_true_iff in Hx. congruence.
Qed.

Lemma NoDup_values_delete k m :
  NoDup (JsMap.values m) -> NoDup (JsMap.values (JsMap.delete k m)).
Proof.
  induction m as [|[k0 v0] m IH]; simpl; [tauto|].
  intro H. inversion H as [|x l Hx Hl]; subst.
  destruct (String.eqb k0 k); simpl; [exact (IH Hl)|].
  constructor; [|exact (IH Hl)].
  intro Hin. apply Hx. exact (In_values_delete _ _ _ Hin).
Qed.

Lemma NoDup_values_set k v m :
  NoDup (JsMap.values m) -> ~ In v (JsMap.values m) ->
  NoDup (JsMap.values (JsMap.set k v m)).
Proof.
  induction m as [|[k0 v0] m IH]; simpl.
  - intros _ _. constructor; [intros []|constructor].
  - intros H Hv. inversion H as [|x l Hx Hl]; subst.
    destruct (String.eqb k0 k); simpl.
    + constructor; [tauto|exact Hl].
    + constructor; [|apply IH; tauto].
      intro Hin. apply In_values_set in Hin. destruct Hin as [Hin|Hin]; [|tauto].
      subst v0. tauto.
Qed.

Lemma get_Some_value k v m : JsMap.get k m = Some v -> In v (JsMap.values m).
Proof.
  intro H. apply get_Some_In in H. apply (in_map snd) in H. exact H.
Qed.

End MapFacts.

(* ------------------------------------------------------------------ *)
(** ** Facts about the monad and the process table *)
(* ------------------------------------------------------------------ *)

Lemma exec_bind {A B : Type} (m : JS A) (k : A -> JS B) (w : World) :
  exec (bind m k) w = exec (k (eval m w)) (exec m w).
Proof. unfold exec, eval, bind. destruct (m w). reflexivity. Qed.

Lemma eval_bind {A B : Type} (m : JS A) (k : A -> JS B) (w : World) :
  eval (bind m k) w = eval (k (eval m w)) (exec m w).
Proof. unfold exec, eval, bind. destruct (m w). reflexivity. Qed.

Lemma exec_for_of_cons {A : Type} (x : A) (xs : list A) (body : A -> JS unit) w :
  exec (for_of (x :: xs) body) w = exec (for_of xs body) (exec (body x) w).
Proof. simpl. rewrite exec_bind. reflexivity. Qed.

Lemma exec_for_of_app {A : Type} (xs ys : list A) (body : A -> JS unit) w :
  exec (for_of (xs ++ ys)%list body) w
  = exec (for_of ys body) (exec (for_of xs body) w).
Proof.
  revert w. induction xs as [|x xs IH]; intro w; [reflexivity|].
  rewrite <- app_comm_cons, !exec_for_of_cons. apply IH.
Qed.

Lemma run_app fl h (ops1 ops2 : list Op) w :
  exec (run fl h (ops1 ++ ops2)%list) w
  = exec (run fl h ops2) (exec (run fl h ops1) w).
Proof. apply exec_for_of_app. Qed.

Lemma run_cons fl h (op : Op) (ops : list Op) w :
  exec (run fl h (op :: ops)) w = exec (run fl h ops) (exec (step fl h op) w).
Proof. apply exec_for_of_cons. Qed.

Section UpdateNth.
Context {A : Type}.
Implicit Types (f : A -> A) (l : list A).

Lemma length_update_nth n f l : List.length (update_nth n f l) = List.length l.
Proof.
  revert n. induction l as [|x l IH]; intros [|n]; simpl; auto.
Qed.

Lemma nth_error_update_nth_same n f l :
  nth_error (update_nth n f l) n = option_map f (nth_error l n).
Proof.
  revert n. induction l as [|x l IH]; intros [|n]; simpl; auto.
Qed.

Lemma nth_error_update_nth_other n k f l :
  k <> n -> nth_error (update_nth n f l) k = nth_error l k.
Proof.
  revert n k. induction l as [|x l IH]; intros [|n] [|k] Hne; simpl; auto;
    try congruence.
Qed.

Lemma update_nth_out_of_range n f l :
  List.length l <= n -> update_nth n f l = l.
Proof.
  revert n. induction l as [|x l IH]; intros [|n] Hn; simpl in *; auto.
  - lia.
  - f_equal. apply IH. lia.
Qed.
End UpdateNth.

(* ------------------------------------------------------------------ *)
(** ** [stop] *)
(* ------------------------------------------------------------------ *)

Lemma stop_absent w id :
  JsMap.get id (activeChildren w) = None -> stop id w = (false, w).
Proof.
  intro H. unfold stop, bind, activeChildren_get. rewrite H. reflexivity.
Qed.

Lemma stop_present w id c :
  JsMap.get id (activeChildren w) = Some c ->
  stop id w
  = (true,
     set_activeChildren (JsMap.delete id (activeChildren w))
       (set_processes (update_nth c (add_signal SIGTERM) (processes w)) w)).
Proof.
  intro H. unfold stop, bind, activeChildren_get. rewrite H. reflexivity.
Qed.

Lemma stop_registry w id :
  activeChildren (exec (stop id) w) = JsMap.delete id (activeChildren w).
Proof.
  destruct (JsMap.get id (activeChildren w)) as [c|] eqn:E.
  - unfold exec. rewrite (stop_present _ _ _ E). reflexivity.
  - unfold exec. rewrite (stop_absent _ _ E). simpl.
    symmetry. apply delete_absent. exact E.
Qed.

Lemma stop_result w id :
  eval (stop id) w = JsMap.has id (activeChildren w).
Proof.
  unfold JsMap.has.
  destruct (JsMap.get id (activeChildren w)) as [c|] eqn:E.
  - unfold eval. rewrite (stop_present _ _ _ E). reflexivity.
  - unfold eval. rewrite (stop_absent _ _ E). reflexivity.
Qed.

Lemma signals_after_kill c w :
  c < List.length (processes w) ->
  signals_of c (set_processes (update_nth c (add_signal SIGTERM) (processes w)) w)
  = (signals_of c w ++ [SIGTERM])%list.
Proof.
  intro Hc. unfold signals_of, process. simpl.
  rewrite nth_error_update_nth_same.
  destruct (nth_error (processes w) c) as [p|] eqn:E; [reflexivity|].
  apply nth_error_None in E. lia.
Qed.

(* ------------------------------------------------------------------ *)
(** ** How each operation changes the registry *)
(* ------------------------------------------------------------------ *)

Lemma get_deletes_absent ks id (m : JsMap.t ChildRef) :
  JsMap.get id m = None -> JsMap.get id (deletes ks m) = None.
Proof.
  revert m. induction ks as [|k ks IH]; intros m H; simpl; [exact H|].
  apply IH. destruct (string_dec id k) as [->|Hne].
  - apply get_delete_same.
  - rewrite get_delete_other; auto.
Qed.

Lemma get_deletes_other ks id (m : JsMap.t ChildRef) :
  ~ In id ks -> JsMap.get id (deletes ks m) = JsMap.get id m.
Proof.
  revert m. induction ks as [|k ks IH]; intros m H; simpl; [reflexivity|].
  rewrite IH by (intro; apply H; right; assumption).
  apply get_delete_other. intro. apply H. left. congruence.
Qed.

Lemma get_deletes_member ks id (m : JsMap.t ChildRef) :
  In id ks -> JsMap.get id (deletes ks m) = None.
Proof.
  revert m. induction ks as [|k ks IH]; intros m H; simpl; [destruct H|].
  destruct (string_dec k id) as [->|Hne].
  - apply get_deletes_absent, get_delete_same.
  - apply IH. destruct H; [contradiction|assumption].
Qed.

Lemma empty_of_no_key (m : JsMap.t ChildRef) :
  (forall k, JsMap.get k m = None) -> m = [].
Proof.
  destruct m as [|[k v] m]; [reflexivity|].
  intro H. specialize (H k). simpl in H. rewrite String.eqb_refl in H. discriminate.
Qed.

Lemma deletes_all_keys (m : JsMap.t ChildRef) : deletes (JsMap.keys m) m = [].
Proof.
  apply empty_of_no_key. intro k.
  destruct (in_dec string_dec k (JsMap.keys m)) as [Hin|Hn].
  - apply get_deletes_member. exact Hin.
  - apply get_deletes_absent. apply get_None_iff. exact Hn.
Qed.

Lemma stop_loop_registry ids w :
  activeChildren (exec (for_of ids (fun id => stop id ;; ret tt)) w)
  = deletes ids (activeChildren w).
Proof.
  revert w. induction ids as [|id ids IH]; intro w; [reflexivity|].
  rewrite exec_for_of_cons, IH. simpl. f_equal.
  rewrite exec_bind. simpl. apply stop_registry.
Qed.

Lemma stopAll_unfold w :
  stopAll w = for_of (JsMap.keys (activeChildren w)) (fun id => stop id ;; ret tt) w.
Proof. reflexivity. Qed.

Lemma stopAll_registry w : activeChildren (exec stopAll w) = [].
Proof.
  unfold exec. rewrite stopAll_unfold. fold (exec (for_of (JsMap.keys (activeChildren w)) (fun id => stop id ;; ret tt)) w).
  rewrite stop_loop_registry. apply deletes_all_keys.
Qed.

Lemma call_registry cb w :
  activeChildren (exec (call cb) w) = JsMap.delete (deleted_id cb) (activeChildren w).
Proof.
  destruct cb as [id|id p]; simpl; [reflexivity|].
  rewrite exec_bind. unfold exec at 1, resolve.
  destruct (promise_state p _) as [[| |]|]; reflexivity.
Qed.

Lemma call_loop_registry (ls : list Listener) w :
  activeChildren (exec (for_of ls (fun l => call (callback l))) w)
  = deletes (map (fun l => deleted_id (callback l)) ls) (activeChildren w).
Proof.
  revert w. induction ls as [|l ls IH]; intro w; [reflexivity|].
  rewrite exec_for_of_cons, IH. simpl. f_equal. apply call_registry.
Qed.

Lemma emit_registry c ev w :
  activeChildren (exec (emit c ev) w)
  = deletes (map (fun l => deleted_id (callback l))
               (filter (listens ev) (listeners_of c w)))
      (activeChildren w).
Proof.
  unfold exec, emit, listeners_of, process.
  destruct (nth_error (processes w) c) as [p|]; [|reflexivity].
  match goal with |- activeChildren (snd (for_of ?fired ?body ?w')) = _ =>
    exact (call_loop_registry fired w') end.
Qed.

(** A [play] whose [spawn] throws ends with that exception and leaves
    the world as it was. *)
Lemma play_of_throws fl h filePath volume e w :
  play_error h filePath volume = Some e ->
  play_of fl h filePath volume w = (Throw e, w).
Proof.
  unfold play_error. intro E.
  destruct fl;
    cbv beta zeta delta [play_of AudioPlayer.play CommonJS.play Enhanced.play
                           bind_normal spawn];
    rewrite E; reflexivity.
Qed.

Lemma play_of_id fl h filePath volume w :
  play_error h filePath volume = None ->
  eval (play_of fl h filePath volume) w = Normal (Hex.encode (next_bytes w)).
Proof.
  unfold play_error. intro E.
  destruct fl; unfold eval;
    cbv beta zeta delta [play_of AudioPlayer.play CommonJS.play Enhanced.play
                           bind_normal spawn];
    rewrite E; reflexivity.
Qed.

Lemma play_of_registry fl h filePath volume w :
  play_error h filePath volume = None ->
  activeChildren (exec (play_of fl h filePath volume) w)
  = JsMap.set (Hex.encode (next_bytes w)) (next_child w) (activeChildren w).
Proof.
  unfold play_error. intro E.
  destruct fl; unfold exec;
    cbv beta zeta delta [play_of AudioPlayer.play CommonJS.play Enhanced.play
                           bind_normal spawn];
    rewrite E; reflexivity.
Qed.

(** A [play] that returns an id: [spawn] did not throw, and the id is
    the encoding of the next four bytes. *)
Lemma play_of_returns fl h filePath volume w id :
  eval (play_of fl h filePath volume) w = Normal id ->
  play_error h filePath volume = None /\ id = Hex.encode (next_bytes w).
Proof.
  intro H. destruct (play_error h filePath volume) as [e|] eqn:E.
  - unfold eval in H. rewrite (play_of_throws _ _ _ _ _ _ E) in H. discriminate.
  - rewrite (play_of_id _ _ _ _ _ E) in H. split; congruence.
Qed.

Lemma exec_play_of_throws fl h filePath volume e w :
  play_error h filePath volume = Some e ->
  exec (play_of fl h filePath volume) w = w.
Proof. intro E. unfold exec. rewrite (play_of_throws _ _ _ _ _ _ E). reflexivity. Qed.

Lemma exec_step_play fl h filePath volume w :
  exec (step fl h (Play filePath volume)) w
  = exec (play_of fl h filePath volume) w.
Proof. simpl. rewrite exec_bind. reflexivity. Qed.

Lemma exec_step_stop fl h id w :
  exec (step fl h (Stop id)) w = exec (stop id) w.
Proof. simpl. rewrite exec_bind. reflexivity. Qed.

(** [stopAll] of the CommonJS module on the exported object does what
    the loop over [stop] does. *)
Lemma this_stop_loop ids w :
  for_of_throwing ids
    (fun id => _ <-! CommonJS.this_stop CommonJS.ExportsObject id ;; ret (Normal tt)) w
  = (Normal tt, exec (for_of ids (fun id => stop id ;; ret tt)) w).
Proof.
  revert w. induction ids as [|id ids IH]; intro w; [reflexivity|].
  rewrite exec_for_of_cons. rewrite <- IH.
  cbn [for_of_throwing]. unfold bind_normal at 1.
  unfold bind_normal at 1. unfold CommonJS.this_stop, bind, ret, exec.
  destruct (stop id w) as [b w']. reflexivity.
Qed.

Lemma CommonJS_stopAll_bound w :
  CommonJS.stopAll CommonJS.ExportsObject w = (Normal tt, exec stopAll w).
Proof. exact (this_stop_loop (JsMap.keys (activeChildren w)) w). Qed.

(** Without a [stop] on the receiver the first turn of the loop throws:
    nothing is stopped. With no id to stop the loop makes no turn. *)
Lemma CommonJS_stopAll_unbound w :
  CommonJS.stopAll CommonJS.NoStopMethod w
  = match activeChildren w with
    | [] => (Normal tt, w)
    | _ :: _ => (Throw TypeError_not_a_function, w)
    end.
Proof.
  unfold CommonJS.stopAll, bind, activeChildren_keys.
  destruct (activeChildren w) as [|[k c] m]; reflexivity.
Qed.

Lemma stopAll_of_cases fl this_ w :
  stopAll_of fl this_ w
  = if stopAll_throws fl this_ w then (Throw TypeError_not_a_function, w)
    else (Normal tt, exec stopAll w).
Proof.
  destruct fl, this_; try reflexivity;
    unfold stopAll_of, stopAll_throws.
  - unfold exec, bind, ret. destruct (stopAll w) as [[] w']. reflexivity.
  - unfold exec, bind, ret. destruct (stopAll w) as [[] w']. reflexivity.
  - rewrite CommonJS_stopAll_bound. destruct (activeChildren w); reflexivity.
  - rewrite CommonJS_stopAll_unbound.
    destruct (activeChildren w) as [|[k c] m] eqn:E; [|reflexivity].
    unfold exec, stopAll, bind, activeChildren_keys. rewrite E. reflexivity.
  - unfold exec, bind, ret. destruct (stopAll w) as [[] w']. reflexivity.
  - unfold exec, bind, ret. destruct (stopAll w) as [[] w']. reflexivity.
Qed.

Lemma exec_step_stopAll fl h this_ w :
  exec (step fl h (StopAll this_)) w
  = if stopAll_throws fl this_ w then w else exec stopAll w.
Proof.
  cbn [step]. rewrite exec_bind. cbn [ret exec snd].
  unfold exec at 1. rewrite stopAll_of_cases.
  destruct (stopAll_throws fl this_ w); reflexivity.
Qed.

(** An id that is not registered stays so under every operation but a
    [play] that returns it. *)
Lemma step_keeps_absent fl h op w id :
  JsMap.get id (activeChildren w) = None ->
  ~ In id (played_ids fl h [op] w) ->
  JsMap.get id (activeChildren (exec (step fl h op) w)) = None.
Proof.
  intros Habs Hplay. destruct op as [filePath volume|id'|this_|c ev].
  - rewrite exec_step_play.
    destruct (play_error h filePath volume) as [e|] eqn:Ep;
      [rewrite (exec_play_of_throws _ _ _ _ _ _ Ep); exact Habs|].
    rewrite (play_of_registry _ _ _ _ _ Ep).
    cbn [played_ids] in Hplay. rewrite (play_of_id _ _ _ _ _ Ep) in Hplay.
    rewrite get_set_other; [exact Habs|]. intro E. apply Hplay. left. congruence.
  - rewrite exec_step_stop, stop_registry.
    apply (get_deletes_absent [id']). exact Habs.
  - rewrite exec_step_stopAll.
    destruct (stopAll_throws fl this_ w); [exact Habs|].
    rewrite stopAll_registry. reflexivity.
  - simpl. rewrite emit_registry. apply get_deletes_absent. exact Habs.
Qed.

Lemma played_ids_cons fl h op ops w :
  played_ids fl h (op :: ops) w
  = (played_ids fl h [op] w ++ played_ids fl h ops (exec (step fl h op) w))%list.
Proof.
  destruct op as [filePath volume|id|this_|c ev]; try reflexivity.
  cbn [played_ids]. destruct (eval (play_of fl h filePath volume) w); reflexivity.
Qed.

Lemma absent_run fl h id ops w :
  JsMap.get id (activeChildren w) = None ->
  ~ In id (played_ids fl h ops w) ->
  JsMap.get id (activeChildren (exec (run fl h ops) w)) = None
  /\ Forall (fun b => b = false) (stop_results fl h id ops w).
Proof.
  revert w. induction ops as [|op ops IH]; intros w Habs Hplay.
  - split; [exact Habs|constructor].
  - rewrite played_ids_cons in Hplay.
    assert (H1 : ~ In id (played_ids fl h [op] w))
      by (intro; apply Hplay; apply in_or_app; left; assumption).
    assert (H2 : ~ In id (played_ids fl h ops (exec (step fl h op) w)))
      by (intro; apply Hplay; apply in_or_app; right; assumption).
    pose proof (step_keeps_absent fl h op w id Habs H1) as Hnext.
    destruct (IH _ Hnext H2) as [IHa IHb].
    split; [rewrite run_cons; exact IHa|].
    destruct op as [filePath volume|id'|this_|c ev]; simpl; try exact IHb.
    destruct (String.eqb id' id) eqn:E; [|exact IHb].
    apply String.eqb_eq in E. subst id'.
    constructor; [|exact IHb].
    rewrite stop_result. unfold JsMap.has. rewrite Habs. reflexivity.
Qed.

Lemma count_true_all_false l :
  Forall (fun b => b = false) l -> count_true l = 0.
Proof.
  unfold count_true. induction 1 as [|b l Hb _ IH]; [reflexivity|].
  subst b. exact IH.
Qed.

Lemma stops_true_at_most_once fl h id ops w :
  ~ In id (played_ids fl h ops w) ->
  count_true (stop_results fl h id ops w) <= 1.
Proof.
  revert w. induction ops as [|op ops IH]; intros w Hplay; [unfold count_true; simpl; lia|].
  rewrite played_ids_cons in Hplay.
  assert (H2 : ~ In id (played_ids fl h ops (exec (step fl h op) w)))
    by (intro; apply Hplay; apply in_or_app; right; assumption).
  destruct op as [filePath volume|id'|this_|c ev]; try (apply IH; exact H2).
  cbn [stop_results].
  destruct (String.eqb id' id) eqn:E; [|apply IH; exact H2].
  apply String.eqb_eq in E. subst id'.
  assert (Hgone : JsMap.get id (activeChildren (exec (step fl h (Stop id)) w)) = None)
    by (rewrite exec_step_stop, stop_registry; apply get_delete_same).
  destruct (absent_run fl h id ops _ Hgone H2) as [_ Hall].
  pose proof (count_true_all_false _ Hall) as Hz.
  unfold count_true in *. cbn [filter].
  destruct (eval (stop id) w); cbn [List.length]; rewrite Hz; lia.
Qed.

Lemma count_true_cons b l :
  count_true (b :: l) = (if b then 1 else 0) + count_true l.
Proof. unfold count_true. destruct b; reflexivity. Qed.

(** Each [stop id] that returns [true] uses up one registration of the
    id: the one in place at the start, or one made by a [play] that
    returned the id. *)
Ltac count_lia :=
  change (@count_occ string) with (@count_occ PlaybackId) in *; lia.

Lemma stops_true_bound fl h id ops w :
  count_true (stop_results fl h id ops w)
  <= (if JsMap.has id (activeChildren w) then 1 else 0)
     + count_occ string_dec (played_ids fl h ops w) id.
Proof.
  revert w. induction ops as [|op ops IH]; intro w;
    [unfold count_true; simpl; lia|].
  assert (Hmono : forall w',
             (JsMap.get id (activeChildren w) = None ->
              JsMap.get id (activeChildren w') = None) ->
             (if JsMap.has id (activeChildren w') then 1 else 0)
             <= (if JsMap.has id (activeChildren w) then 1 else 0)).
  { intros w' Hw'. unfold JsMap.has.
    destruct (JsMap.get id (activeChildren w)) as [c|]; [|rewrite Hw' by reflexivity; lia].
    destruct (JsMap.get id (activeChildren w')); count_lia. }
  specialize (IH (exec (step fl h op) w)).
  rewrite played_ids_cons, count_occ_app.
  destruct op as [filePath volume|id'|this_|c ev].
  - cbn [stop_results played_ids].
    rewrite exec_step_play in *.
    destruct (play_error h filePath volume) as [e|] eqn:Ep.
    + unfold eval. rewrite (play_of_throws _ _ _ _ _ _ Ep). cbn [fst count_occ].
      rewrite (exec_play_of_throws _ _ _ _ _ _ Ep) in IH |- *. count_lia.
    + rewrite (play_of_id _ _ _ _ _ Ep). cbn [count_occ].
      destruct (string_dec (Hex.encode (next_bytes w)) id) as [E|E].
      * assert (Hle : (if JsMap.has id
                            (activeChildren (exec (play_of fl h filePath volume) w))
                       then 1 else 0) <= 1)
          by (destruct (JsMap.has _ _); lia).
        count_lia.
      * assert (Hsame : JsMap.has id
                          (activeChildren (exec (play_of fl h filePath volume) w))
                        = JsMap.has id (activeChildren w)).
        { unfold JsMap.has. rewrite (play_of_registry _ _ _ _ _ Ep).
          rewrite get_set_other by congruence. reflexivity. }
        rewrite Hsame in IH. count_lia.
  - cbn [stop_results played_ids count_occ].
    rewrite exec_step_stop in *.
    destruct (String.eqb id' id) eqn:E.
    + apply String.eqb_eq in E. subst id'.
      rewrite count_true_cons, stop_result.
      assert (Hgone : JsMap.has id (activeChildren (exec (stop id) w)) = false)
        by (unfold JsMap.has; rewrite stop_registry, get_delete_same; reflexivity).
      rewrite Hgone in IH. count_lia.
    + assert (Hle := Hmono (exec (stop id') w)).
      assert (Hpre : JsMap.get id (activeChildren w) = None ->
                     JsMap.get id (activeChildren (exec (stop id') w)) = None)
        by (intro Hn; rewrite stop_registry;
            apply (get_deletes_absent [id']); exact Hn).
      specialize (Hle Hpre). count_lia.
  - cbn [stop_results played_ids count_occ].
    rewrite exec_step_stopAll in *.
    destruct (stopAll_throws fl this_ w) eqn:Et; [count_lia|].
    assert (Hle := Hmono (exec stopAll w)).
    assert (Hpre : JsMap.get id (activeChildren w) = None ->
                   JsMap.get id (activeChildren (exec stopAll w)) = None)
      by (intros _; rewrite stopAll_registry; reflexivity).
    specialize (Hle Hpre). count_lia.
  - cbn [stop_results played_ids count_occ].
    cbn [step] in *.
    assert (Hle := Hmono (exec (emit c ev) w)).
    assert (Hpre : JsMap.get id (activeChildren w) = None ->
                   JsMap.get id (activeChildren (exec (emit c ev) w)) = None)
      by (intro Hn; rewrite emit_registry; apply get_deletes_absent; exact Hn).
    specialize (Hle Hpre). count_lia.
Qed.

(** C1, as the code has it. [stop id] on an id that is not registered
    returns [false] and leaves the world as it was; on a registered id
    it sends the termination signal to the process of the id, removes
    the id from the registry in the same call and returns [true]. So the
    id is gone once [stop id] returns and a second [stop id] returns
    [false]. A [stop id] returns [true] at most once for each time the
    id was registered: in every run the calls that return [true] are no
    more than the registration in place at the start and the calls of
    [play] that returned the id; hence in every run in which no [play]
    returns the id anew at most one [stop id] returns [true] and every
    [stop id] after a first one returns [false]. *)
Theorem stop_removes_and_reports (w : World) (id : PlaybackId) :
  (JsMap.get id (activeChildren w) = None -> stop id w = (false, w))
  /\ (forall c, JsMap.get id (activeChildren w) = Some c ->
        eval (stop id) w = true
        /\ processes (exec (stop id) w)
           = update_nth c (add_signal SIGTERM) (processes w)
        /\ (c < List.length (processes w) ->
            signals_of c (exec (stop id) w) = (signals_of c w ++ [SIGTERM])%list)
        /\ activeChildren (exec (stop id) w)
           = JsMap.delete id (activeChildren w))
  /\ JsMap.get id (activeChildren (exec (stop id) w)) = None
  /\ eval (stop id) (exec (stop id) w) = false
  /\ (forall fl h ops,
        count_true (stop_results fl h id ops w)
        <= (if JsMap.has id (activeChildren w) then 1 else 0)
           + count_occ string_dec (played_ids fl h ops w) id)
  /\ (forall fl h ops,
        ~ In id (played_ids fl h ops w) ->
        count_true (stop_results fl h id ops w) <= 1)
  /\ (forall fl h ops,
        ~ In id (played_ids fl h ops (exec (stop id) w)) ->
        Forall (fun b => b = false)
          (stop_results fl h id ops (exec (stop id) w))).
Proof.
  assert (Hgone : JsMap.get id (activeChildren (exec (stop id) w)) = None)
    by (rewrite stop_registry; apply get_delete_same).
  split; [apply stop_absent|].
  split; [|split; [|split; [|split; [|split]]]].
  - intros c H. split; [|split; [|split]].
    + unfold eval. rewrite (stop_present _ _ _ H). reflexivity.
    + unfold exec. rewrite (stop_present _ _ _ H). reflexivity.
    + intro Hc. unfold exec. rewrite (stop_present _ _ _ H). simpl.
      apply (signals_after_kill c w Hc).
    + apply stop_registry.
  - exact Hgone.
  - rewrite stop_result. unfold JsMap.has. rewrite Hgone. reflexivity.
  - intros fl h ops. apply stops_true_bound.
  - intros fl h ops. apply stops_true_at_most_once.
  - intros fl h ops Hplay. apply (absent_run fl h id ops _ Hgone Hplay).
Qed.

(** A registered id: the first [stop] returns [true] and signals the
    child, the second returns [false]. *)
Lemma stop_removes_and_reports_witness :
  let w := exec (run TypeScript darwin_host [Play "ding.wav" None])
             (initial counting_bytes) in
  eval (stop "00254a6f") w = true
  /\ signals_of 0 (exec (stop "00254a6f") w) = [SIGTERM]
  /\ eval (stop "00254a6f") (exec (stop "00254a6f") w) = false
  /\ count_true (stop_results TypeScript darwin_host "00254a6f"
                   [Stop "00254a6f"; Emit 0 ExitEvent; Stop "00254a6f"] w) <= 1.
Proof.
  intro w.
  destruct (stop_removes_and_reports w "00254a6f") as (_ & Hp & _ & H2 & _ & H3 & _).
  destruct (Hp 0 eq_refl) as (Ht & _ & Hs & _).
  split; [exact Ht|]. split; [apply Hs; vm_compute; lia|].
  split; [exact H2|]. apply H3. vm_compute. tauto.
Defined.

(** C1 as stated fails: with a random source that repeats itself the
    second [play] returns the id of the first, and [stop] on that id
    returns [true] twice. *)
Lemma stop_returns_true_twice :
  played_ids TypeScript darwin_host
    [Play "ding.wav" None; Stop "2a2a2a2a"; Play "dong.wav" None; Stop "2a2a2a2a"]
    (initial constant_bytes)
  = ["2a2a2a2a"; "2a2a2a2a"]
  /\ stop_results TypeScript darwin_host "2a2a2a2a"
       [Play "ding.wav" None; Stop "2a2a2a2a"; Play "dong.wav" None; Stop "2a2a2a2a"]
       (initial constant_bytes)
     = [true; true].
Proof. split; vm_compute; reflexivity. Qed.

(** C10. [stop id] touches no entry but the one of [id]: every other key
    keeps its handle, the remaining entries keep their order, and when
    [id] is not registered the whole world, registry included, is left
    as it was. *)
Theorem stop_frame (w : World) (id : PlaybackId) :
  (forall k, k <> id ->
     JsMap.get k (activeChildren (exec (stop id) w))
     = JsMap.get k (activeChildren w))
  /\ (forall e, In e (activeChildren (exec (stop id) w))
                <-> In e (activeChildren w) /\ fst e <> id)
  /\ JsMap.keys (activeChildren (exec (stop id) w))
     = filter (fun k => negb (String.eqb k id)) (JsMap.keys (activeChildren w))
  /\ (JsMap.get id (activeChildren w) = None -> exec (stop id) w = w).
Proof.
  rewrite stop_registry. split; [|split; [|split]].
  - intros k Hk. apply get_delete_other. exact Hk.
  - intro e. apply In_delete.
  - apply keys_delete.
  - intro H. unfold exec. rewrite (stop_absent _ _ H). reflexivity.
Qed.

(** Two playbacks: stopping the first leaves the second registered with
    its own handle; stopping an unknown id changes nothing. *)
Lemma stop_frame_witness :
  let w := exec (run TypeScript darwin_host
                   [Play "ding.wav" None; Play "dong.wav" None])
             (initial counting_bytes) in
  JsMap.get "94b9de03" (activeChildren (exec (stop "00254a6f") w)) = Some 1
  /\ exec (stop "ffffffff") w = w.
Proof.
  intro w.
  destruct (stop_frame w "00254a6f") as (Hk & _).
  destruct (stop_frame w "ffffffff") as (_ & _ & _ & Hn).
  split.
  - rewrite Hk; [reflexivity|discriminate].
  - apply Hn. reflexivity.
Defined.

(* ------------------------------------------------------------------ *)
(** ** The script and the path it opens *)
(* ------------------------------------------------------------------ *)

Lemma typographic_squote_second (a c : ascii) :
  PowerShell.typographic a JsString.squote c = false.
Proof.
  unfold PowerShell.typographic.
  change (N_of_ascii JsString.squote =? 128)%N with false.
  rewrite andb_false_r. reflexivity.
Qed.

Lemma typographic_squote_third (a b : ascii) :
  PowerShell.typographic a b JsString.squote = false.
Proof.
  unfold PowerShell.typographic.
  change (152 <=? N_of_ascii JsString.squote)%N with false.
  rewrite andb_false_r. reflexivity.
Qed.

(** Doubling the ASCII quotes makes no typographic quote. *)
Lemma starts_typographic_escaped (b : ascii) (p tail : string) :
  PowerShell.starts_typographic (String b p) = false ->
  PowerShell.starts_typographic
    (String b (Command.escaped p ++ String JsString.squote tail)) = false.
Proof.
  intro H. unfold Command.escaped.
  destruct p as [|c p]; cbn [JsString.replace_char String.append].
  - destruct tail; [reflexivity|]. apply typographic_squote_second.
  - destruct (Ascii.eqb c JsString.squote) eqn:Ec.
    + cbn [String.append]. apply typographic_squote_second.
    + cbn [String.append].
      destruct p as [|d p]; cbn [JsString.replace_char String.append].
      * apply typographic_squote_third.
      * destruct (Ascii.eqb d JsString.squote) eqn:Ed.
        -- cbn [String.append]. apply typographic_squote_third.
        -- cbn [String.append]. exact H.
Qed.

(** The literal built around a path reads back as the path, when the
    path holds no typographic single quote and the text after the closing
    quote does not start with a single quote. *)
Lemma read_literal_escaped (filePath tail : string) :
  PowerShell.typographic_quote_free filePath = true ->
  PowerShell.starts_with_quote tail = false ->
  PowerShell.read_literal (Command.escaped filePath ++ String JsString.squote tail)
  = Some (filePath, tail).
Proof.
  intros Hfree Htail. induction filePath as [|b p IH].
  - cbn [Command.escaped JsString.replace_char String.append PowerShell.read_literal].
    change (Ascii.eqb JsString.squote JsString.squote) with true. cbv iota.
    destruct tail as [|c tail']; [reflexivity|].
    unfold PowerShell.starts_with_quote in Htail.
    apply orb_false_iff in Htail. destruct Htail as [H1 H2].
    rewrite H1, H2. reflexivity.
  - cbn [PowerShell.typographic_quote_free] in Hfree.
    apply andb_true_iff in Hfree. destruct Hfree as [Hb Hp].
    apply negb_true_iff in Hb. specialize (IH Hp).
    unfold Command.escaped in *. cbn [JsString.replace_char].
    destruct (Ascii.eqb b JsString.squote) eqn:E.
    + apply Ascii.eqb_eq in E. subst b.
      cbn [String.append PowerShell.read_literal].
      change (Ascii.eqb JsString.squote JsString.squote) with true. cbv iota.
      rewrite IH. reflexivity.
    + cbn [String.append]. 
      pose proof (starts_typographic_escaped b p tail Hb) as Ht.
      unfold Command.escaped in Ht.
      set (rest := (JsString.replace_char JsString.squote "''" p
                    ++ String JsString.squote tail)%string) in *.
      cbn [PowerShell.read_literal]. rewrite E, Ht, IH. reflexivity.
Qed.

(** In the script of the spawn-based modules the literal handed to
    [$player.open] reads back as the path, whatever ASCII quotes it
    holds. *)
Lemma script_opens_the_path (filePath : string) (volume : Number.number) :
  PowerShell.typographic_quote_free filePath = true ->
  opened_file (Command.windowsPowerShellScript filePath volume) = Some filePath.
Proof.
  intro Hfree.
  unfold opened_file, Command.windowsPowerShellScript, JsString.nl.
  cbn -[PowerShell.read_literal Command.escaped Number.toString].
  rewrite read_literal_escaped; [reflexivity|exact Hfree|reflexivity].
Qed.

(* ------------------------------------------------------------------ *)
(** ** The world after [play] *)
(* ------------------------------------------------------------------ *)

Lemma update_nth_last {A : Type} (f : A -> A) (l : list A) (x : A) :
  update_nth (List.length l) f (l ++ [x])%list = (l ++ [f x])%list.
Proof. induction l as [|y l IH]; simpl; [reflexivity|]. rewrite IH. reflexivity. Qed.

Lemma AudioPlayer_play_world h filePath volume w :
  play_error h filePath volume = None ->
  AudioPlayer.play h filePath volume w
  = let id := Hex.encode (next_bytes w) in
    (Normal id,
     {| activeChildren := JsMap.set id (next_child w) (activeChildren w);
        processes :=
          (processes w
           ++ [launched h filePath volume
                 [on_exit true (DeleteId id); on_error true (DeleteId id)]])%list;
        promises := promises w;
        fulfilments := fulfilments w;
        entropy := entropy w;
        drawn := drawn w + 4 |}).
Proof.
  unfold play_error. intro E.
  cbv beta zeta delta [AudioPlayer.play bind_normal spawn]. rewrite E.
  unfold bind, makeId, bind, randomBytes, ret,
    activeChildren_set, child_once, set_processes, set_activeChildren, set_drawn.
  cbn [processes activeChildren promises fulfilments entropy drawn fst snd].
  rewrite update_nth_last. cbn [add_listener listeners signals spawnfile spawnargs options app].
  rewrite update_nth_last. reflexivity.
Qed.

Lemma CommonJS_play_world h filePath volume w :
  play_error h filePath volume = None ->
  CommonJS.play h filePath volume w
  = let id := Hex.encode (next_bytes w) in
    (Normal id,
     {| activeChildren := JsMap.set id (next_child w) (activeChildren w);
        processes :=
          (processes w
           ++ [launched h filePath volume
                 [on_exit false (DeleteId id); on_error false (DeleteId id)]])%list;
        promises := promises w;
        fulfilments := fulfilments w;
        entropy := entropy w;
        drawn := drawn w + 4 |}).
Proof.
  unfold play_error. intro E.
  cbv beta zeta delta [CommonJS.play bind_normal spawn]. rewrite E.
  unfold bind, makeId, bind, randomBytes, ret,
    activeChildren_set, child_on, set_processes, set_activeChildren, set_drawn.
  cbn [processes activeChildren promises fulfilments entropy drawn fst snd].
  rewrite update_nth_last. cbn [add_listener listeners signals spawnfile spawnargs options app].
  rewrite update_nth_last. reflexivity.
Qed.

Lemma Enhanced_play_world h filePath volume w :
  play_error h filePath volume = None ->
  Enhanced.play h filePath volume w
  = let id := Hex.encode (next_bytes w) in
    let p := next_promise w in
    (Normal {| Enhanced.id := id; Enhanced.finished := p |},
     {| activeChildren := JsMap.set id (next_child w) (activeChildren w);
        processes :=
          (processes w
           ++ [launched h filePath volume
                 [on_exit true (DeleteAndResolve id p);
                  on_error true (DeleteAndResolve id p)]])%list;
        promises := (promises w ++ [Pending])%list;
        fulfilments := fulfilments w;
        entropy := entropy w;
        drawn := drawn w + 4 |}).
Proof.
  unfold play_error. intro E.
  cbv beta zeta delta [Enhanced.play bind_normal spawn]. rewrite E.
  unfold bind, makeId, bind, randomBytes, ret, new_Promise,
    activeChildren_set, child_once, set_processes, set_activeChildren, set_drawn,
    set_promises.
  cbn [processes activeChildren promises fulfilments entropy drawn fst snd].
  rewrite update_nth_last. cbn [add_listener listeners signals spawnfile spawnargs options app].
  rewrite update_nth_last. reflexivity.
Qed.


Lemma Enhanced_play_throws h filePath volume e w :
  play_error h filePath volume = Some e ->
  Enhanced.play h filePath volume w = (Throw e, w).
Proof.
  unfold play_error. intro E.
  cbv beta zeta delta [Enhanced.play bind_normal spawn]. rewrite E. reflexivity.
Qed.

Lemma play_of_world fl h filePath volume w :
  play_error h filePath volume = None ->
  exec (play_of fl h filePath volume) w
  = let id := Hex.encode (next_bytes w) in
    {| activeChildren := JsMap.set id (next_child w) (activeChildren w);
       processes :=
         (processes w
          ++ [launched h filePath volume
                (registered_listeners fl id (next_promise w))])%list;
       promises := promises_after_play fl (promises w);
       fulfilments := fulfilments w;
       entropy := entropy w;
       drawn := drawn w + 4 |}.
Proof.
  intro Ep. unfold exec, play_of. destruct fl.
  - rewrite (AudioPlayer_play_world _ _ _ _ Ep). reflexivity.
  - rewrite (CommonJS_play_world _ _ _ _ Ep). reflexivity.
  - unfold bind_normal. rewrite (Enhanced_play_world _ _ _ _ Ep). reflexivity.
Qed.

Lemma process_after_play fl h filePath volume w :
  play_error h filePath volume = None ->
  process (next_child w) (exec (play_of fl h filePath volume) w)
  = Some (launched h filePath volume
            (registered_listeners fl (Hex.encode (next_bytes w)) (next_promise w))).
Proof.
  intro Ep. rewrite (play_of_world _ _ _ _ _ Ep). unfold process, next_child. simpl.
  rewrite nth_error_app2 by lia. rewrite Nat.sub_diag. reflexivity.
Qed.

Lemma older_process_after_play fl h filePath volume w c :
  c < List.length (processes w) ->
  process c (exec (play_of fl h filePath volume) w) = process c w.
Proof.
  intro Hc. destruct (play_error h filePath volume) as [e|] eqn:Ep;
    [rewrite (exec_play_of_throws _ _ _ _ _ _ Ep); reflexivity|].
  rewrite (play_of_world _ _ _ _ _ Ep). unfold process. simpl.
  apply nth_error_app1. exact Hc.
Qed.

Lemma command_after_play fl h filePath volume w :
  play_error h filePath volume = None ->
  spawned_command (next_child w) (exec (play_of fl h filePath volume) w)
  = Some (Command.playCommand h (path_resolve h filePath)
            (Command.volForOs h (with_default Number.half volume))).
Proof.
  intro Ep. unfold spawned_command. rewrite (process_after_play _ _ _ _ _ Ep).
  unfold launched, Command.playCommand. destruct (is_darwin h); reflexivity.
Qed.

Lemma stop_of_registered w id c :
  JsMap.get id (activeChildren w) = Some c ->
  c < List.length (processes w) ->
  eval (stop id) w = true
  /\ signals_of c (exec (stop id) w) = (signals_of c w ++ [SIGTERM])%list
  /\ JsMap.get id (activeChildren (exec (stop id) w)) = None.
Proof.
  intros Hget Hc. split; [|split].
  - unfold eval. rewrite (stop_present _ _ _ Hget). reflexivity.
  - unfold exec. rewrite (stop_present _ _ _ Hget). apply signals_after_kill. exact Hc.
  - rewrite stop_registry. apply get_delete_same.
Qed.

(** A registered id whose handle is a process of the table can be
    stopped. *)
Lemma registered_is_stoppable w id c :
  JsMap.get id (activeChildren w) = Some c ->
  c < List.length (processes w) ->
  stoppable id c w.
Proof.
  intros Hget Hc. unfold stoppable.
  destruct (stop_of_registered w id c Hget Hc) as (H1 & H2 & H3).
  repeat split; assumption.
Qed.

(** C8. In each module [play] has put the pair of the id and the handle
    of the process it spawned into the registry by the time it returns:
    in the world that [play] leaves when it returns an id, that id is
    registered with that process, and a [stop] on it finds it, signals
    the process and returns [true]. The process runs the command of the
    platform. And [play] does return an id whenever [spawn] does not
    throw. *)
Theorem play_registers_before_returning (h : Host) (filePath : string)
    (volume : option Number.number) (w : World) :
  (forall id w', AudioPlayer.play h filePath volume w = (Normal id, w') ->
     stoppable id (next_child w) w')
  /\ (forall id w', CommonJS.play h filePath volume w = (Normal id, w') ->
        stoppable id (next_child w) w')
  /\ (forall r w', Enhanced.play h filePath volume w = (Normal r, w') ->
        stoppable (Enhanced.id r) (next_child w) w')
  /\ (forall fl id,
        eval (play_of fl h filePath volume) w = Normal id ->
        spawned_command (next_child w) (exec (play_of fl h filePath volume) w)
        = Some (Command.playCommand h (path_resolve h filePath)
                  (Command.volForOs h (with_default Number.half volume))))
  /\ (play_error h filePath volume = None ->
        (exists id w', AudioPlayer.play h filePath volume w = (Normal id, w'))
        /\ (exists id w', CommonJS.play h filePath volume w = (Normal id, w'))
        /\ (exists r w', Enhanced.play h filePath volume w = (Normal r, w'))).
Proof.
  assert (Hlen : forall (l : list ChildProcess) x,
             List.length l < List.length (l ++ [x])%list)
    by (intros; rewrite length_app; simpl; lia).
  split; [|split; [|split; [|split]]].
  - intros id w' H.
    destruct (play_of_returns TypeScript h filePath volume w id) as [Ep _];
      [unfold eval; cbn [play_of]; rewrite H; reflexivity|].
    rewrite (AudioPlayer_play_world _ _ _ _ Ep) in H. cbv zeta in H.
    injection H as <- <-.
    apply registered_is_stoppable; simpl; [apply get_set_same|apply Hlen].
  - intros id w' H.
    destruct (play_of_returns CommonJs h filePath volume w id) as [Ep _];
      [unfold eval; cbn [play_of]; rewrite H; reflexivity|].
    rewrite (CommonJS_play_world _ _ _ _ Ep) in H. cbv zeta in H.
    injection H as <- <-.
    apply registered_is_stoppable; simpl; [apply get_set_same|apply Hlen].
  - intros r w' H.
    destruct (play_error h filePath volume) as [e|] eqn:Ep;
      [rewrite (Enhanced_play_throws _ _ _ _ _ Ep) in H; discriminate|].
    rewrite (Enhanced_play_world _ _ _ _ Ep) in H. cbv zeta in H.
    injection H as <- <-.
    apply registered_is_stoppable; simpl; [apply get_set_same|apply Hlen].
  - intros fl id H. apply command_after_play.
    apply (play_of_returns _ _ _ _ _ _ H).
  - intro Ep. split; [|split].
    + rewrite (AudioPlayer_play_world _ _ _ _ Ep). eexists. eexists. reflexivity.
    + rewrite (CommonJS_play_world _ _ _ _ Ep). eexists. eexists. reflexivity.
    + rewrite (Enhanced_play_world _ _ _ _ Ep). eexists. eexists. reflexivity.
Qed.

(** A first [play] on the sample host: the id it returns can be
    stopped. *)
Lemma play_registers_before_returning_witness :
  stoppable "00254a6f" 0
    (exec (AudioPlayer.play darwin_host "ding.wav" None) (initial counting_bytes))
  /\ spawned_command 0
       (exec (AudioPlayer.play darwin_host "ding.wav" None) (initial counting_bytes))
     = Some ["afplay"; "/Users/me/ding.wav"; "-v"; "1"].
Proof.
  destruct (play_registers_before_returning darwin_host "ding.wav" None
              (initial counting_bytes)) as (H1 & _ & _ & H4 & _).
  split.
  - apply H1. reflexivity.
  - pose proof (H4 TypeScript "00254a6f" eq_refl) as H.
    vm_compute in H |- *. exact H.
Defined.

(* ------------------------------------------------------------------ *)
(** ** Doubling a volume between 0 and 1 *)
(* ------------------------------------------------------------------ *)

Section DoublingVolume.
Import Number.

(** Twice a normal number of exponent at most -52: the exponent goes up
    by one, exactly. *)
Lemma mul_two_normal (m : positive) (e : Z) :
  digits2_pos m = 53%positive -> (-1074 <= e <= -52)%Z ->
  mul (S754_finite false m e) two = S754_finite false m (e + 1).
Proof.
  intros Hd He. unfold mul, two, of_Z, of_dyadic. 
  change (binary_normalize prec emax 2 0 false) with (S754_finite false 4503599627370496 (-51)).
  unfold SFmul. cbn [xorb].
  unfold binary_round_aux, shr_fexp.
  rewrite (Pos.mul_comm m). 
  cbn [Pos.mul Zdigits2 digits2_pos]. rewrite Hd.
  cbn [Pos.succ shr_record_of_loc].
  match goal with |- context [Z.sub (fexp prec emax ?a) ?b] =>
    replace (Z.sub (fexp prec emax a) b) with 52%Z by (unfold fexp, emin, prec, emax; lia) end.
  cbn [shr iter_pos shr_1 orb shr_m loc_of_shr_record round_nearest_even Zdigits2 digits2_pos].
  rewrite Hd.
  match goal with |- context [Z.sub (fexp prec emax ?a) ?b] =>
    replace (Z.sub (fexp prec emax a) b) with 0%Z by (unfold fexp, emin, prec, emax; lia) end.
  cbn [shr shr_m].
  replace (e + -51 + 52)%Z with (e + 1)%Z by lia.
  replace (e + 1 <=? emax - prec)%Z with true by (symmetry; apply Z.leb_le; unfold emax, prec; lia).
  reflexivity.
Qed.

(** Twice a subnormal number: the mantissa is doubled, exactly. *)
Lemma mul_two_subnormal (m : positive) :
  (Zpos (digits2_pos m) <= 52)%Z ->
  mul (S754_finite false m (-1074)) two = S754_finite false (xO m) (-1074).
Proof.
  intros Hd. unfold mul, two, of_Z, of_dyadic. 
  change (binary_normalize prec emax 2 0 false) with (S754_finite false 4503599627370496 (-51)).
  unfold SFmul. cbn [xorb].
  unfold binary_round_aux, shr_fexp.
  rewrite (Pos.mul_comm m). 
  cbn [Pos.mul Zdigits2 digits2_pos shr_record_of_loc].
  match goal with |- context [Z.sub (fexp prec emax ?a) ?b] =>
    replace (Z.sub (fexp prec emax a) b) with 51%Z by (unfold fexp, emin, prec, emax; lia) end.
  cbn [shr iter_pos shr_1 orb shr_m loc_of_shr_record round_nearest_even Zdigits2 digits2_pos].
  match goal with |- context [Z.sub (fexp prec emax ?a) ?b] =>
    replace (Z.sub (fexp prec emax a) b) with 0%Z by (unfold fexp, emin, prec, emax; lia) end.
  cbn [shr shr_m].
  reflexivity.
Qed.

(** A mantissa of [d] binary digits is at least [2 ^ (d - 1)]. *)
Lemma digits2_pos_lower (m : positive) :
  (2 ^ (Zpos (digits2_pos m) - 1) <= Zpos m)%Z.
Proof.
  induction m as [p IH|p IH|]; cbn [digits2_pos].
  - rewrite Pos2Z.inj_succ. replace (Z.succ (Zpos (digits2_pos p)) - 1)%Z with (Z.succ (Zpos (digits2_pos p) - 1)) by lia.
    rewrite Z.pow_succ_r by lia. lia.
  - rewrite Pos2Z.inj_succ. replace (Z.succ (Zpos (digits2_pos p)) - 1)%Z with (Z.succ (Zpos (digits2_pos p) - 1)) by lia.
    rewrite Z.pow_succ_r by lia. lia.
  - simpl. lia.
Qed.

(** For a volume between 0 and 1 the doubled value is exact, lies
    between 0 and 2, and [Math.min] leaves it as it is. *)
Lemma adjusted_volume_in_range (v : number) :
  is_number v = true -> leb zero v = true -> leb v one = true ->
  Math_min two (mul v two) = mul v two
  /\ leb zero (mul v two) = true
  /\ leb (mul v two) two = true.
Proof.
  intros Hv H0 H1.
  destruct v as [s|s| |s m e]; try discriminate.
  - destruct s; repeat split; reflexivity.
  - destruct s; discriminate.
  - destruct s; [discriminate|].
    unfold is_number, valid_binary, bounded, canonical_mantissa in Hv.
    apply andb_true_iff in Hv. destruct Hv as [Hc _].
    apply Z.eqb_eq in Hc. unfold fexp, emin in Hc.
    change one with (S754_finite false 4503599627370496 (-52)) in H1.
    unfold leb, SFleb, SFcompare in H1.
    assert (He : (e <= -52)%Z).
    { destruct (Z.compare e (-52)) eqn:E; try discriminate.
      - apply Z.compare_eq in E. lia.
      - change (e < -52)%Z in E. lia. }
    assert (Hcases : digits2_pos m = 53%positive /\ (-1074 <= e)%Z
                     \/ (e = -1074 /\ Zpos (digits2_pos m) <= 52)%Z).
    { unfold prec, emax in Hc.
      destruct (Z.eq_dec (Zpos (digits2_pos m)) 53) as [E|E].
      - left. split; [congruence|lia].
      - right. lia. }
    destruct Hcases as [[Hd Hlo]|[-> Hd]].
    + rewrite (mul_two_normal m e Hd) by lia.
      change two with (S754_finite false 4503599627370496 (-51)).
      destruct (Z.eq_dec e (-52)) as [->|Hne].
      * assert (Hm : m = 4503599627370496%positive).
        { pose proof (digits2_pos_lower m) as Hlow. rewrite Hd in Hlow.
          change (2 ^ (53 - 1))%Z with 4503599627370496%Z in Hlow.
          rewrite Z.compare_refl in H1.
          destruct (Pos.compare_cont Eq m 4503599627370496) eqn:E; try discriminate.
          - apply Pos.compare_eq in E. exact E.
          - assert (Hlt : (m < 4503599627370496)%positive) by exact E.
            apply Pos2Z.pos_lt_pos in Hlt. lia. }
        subst m. repeat split; reflexivity.
      * unfold Math_min, leb, SFleb, SFcompare. cbn [is_nan orb].
        assert (E1 : (e + 1 ?= -51)%Z = Lt) by (apply Z.compare_lt_iff; lia).
        assert (E2 : (-51 ?= e + 1)%Z = Gt) by (apply Z.compare_gt_iff; lia).
        rewrite E1, E2. repeat split; reflexivity.
    + rewrite (mul_two_subnormal m Hd). repeat split; reflexivity.
Qed.

End DoublingVolume.

Lemma string_append_assoc (s1 s2 s3 : string) :
  (s1 ++ s2) ++ s3 = s1 ++ (s2 ++ s3).
Proof. induction s1 as [|a s1 IH]; simpl; [reflexivity|]. rewrite IH. reflexivity. Qed.

(** [play] ends as its [spawn] does. *)
Lemma play_of_eval fl h filePath volume w :
  eval (play_of fl h filePath volume) w
  = match play_error h filePath volume with
    | Some e => Throw e
    | None => Normal (Hex.encode (next_bytes w))
    end.
Proof.
  destruct (play_error h filePath volume) as [e|] eqn:Ep.
  - unfold eval. rewrite (play_of_throws _ _ _ _ _ _ Ep). reflexivity.
  - apply play_of_id. exact Ep.
Qed.

(** The command of [play], written out. *)
Lemma playCommand_written_out h absolutePath volume :
  Command.playCommand h absolutePath (Command.volForOs h volume)
  = if is_darwin h
    then [ "afplay"; absolutePath; "-v";
           Number.toString (Number.Math_min Number.two (Number.mul volume Number.two)) ]
    else [ "powershell"; "-NoProfile"; "-Command";
           JsString.nl ++ "Add-Type -AssemblyName presentationCore;" ++ JsString.nl
           ++ "$player = New-Object system.windows.media.mediaplayer;" ++ JsString.nl
           ++ "$player.open('"
           ++ JsString.replace_char JsString.squote "''" absolutePath
           ++ "');" ++ JsString.nl
           ++ "$player.Volume = " ++ Number.toString volume ++ ";" ++ JsString.nl
           ++ "$player.Play();" ++ JsString.nl
           ++ "# Keep the process alive until the media finishes" ++ JsString.nl
           ++ "Start-Sleep -s $player.NaturalDuration.TimeSpan.TotalSeconds;"
           ++ JsString.nl ].
Proof.
  unfold Command.playCommand, Command.volForOs. destruct (is_darwin h); reflexivity.
Qed.

Lemma legacy_playCommand_written_out h path volume rate :
  Legacy.playCommand h path volume rate
  = if is_darwin h
    then "afplay " ++ JsString.dquote ++ path ++ JsString.dquote ++ " -v "
         ++ Number.toString (Number.Math_min Number.two (Number.mul volume Number.two))
         ++ " -r " ++ Number.toString rate
    else "powershell -c Add-Type -AssemblyName presentationCore; "
         ++ "$player = New-Object system.windows.media.mediaplayer; "
         ++ "$player.open('" ++ path ++ "'); $player.Volume = "
         ++ Number.toString volume
         ++ "; $player.Play(); Start-Sleep 1; "
         ++ "Start-Sleep -s $player.NaturalDuration.TimeSpan.TotalSeconds;Exit;".
Proof.
  unfold Legacy.playCommand, Legacy.volumeAdjustedByOS.
  destruct (is_darwin h); [reflexivity|].
  unfold Legacy.windowPlayCommand, Legacy.addPresentationCore,
    Legacy.createMediaPlayer, Legacy.loadAudioFile, Legacy.playAudio,
    Legacy.stopAudio.
  cbn -[Number.toString].
  rewrite string_append_assoc. reflexivity.
Qed.

(** C3. For a volume [v] between 0 and 1, the volume that reaches the
    macOS command is [Math.min(2, v * 2)] and the volume written into
    the Windows script is [v] itself, in the three spawn-based modules
    and in the exec-based one. The commands are written out: [spawn] is
    called with the command shown, whether it throws or returns, and
    when [play] returns, the process it has spawned runs that command;
    the exec-based [play] hands the line shown to [exec]. For such a [v]
    that is a value of the number format, the macOS volume is the exact
    double of [v] and lies between 0 and 2. *)
Theorem volume_per_platform (h : Host) (filePath : string) (v rate : Number.number)
    (w : World) :
  Number.leb zero v = true ->
  Number.leb v Number.one = true ->
  let argv :=
    if is_darwin h
    then [ "afplay"; path_resolve h filePath; "-v";
           Number.toString (Number.Math_min Number.two (Number.mul v Number.two)) ]
    else [ "powershell"; "-NoProfile"; "-Command";
           JsString.nl ++ "Add-Type -AssemblyName presentationCore;" ++ JsString.nl
           ++ "$player = New-Object system.windows.media.mediaplayer;" ++ JsString.nl
           ++ "$player.open('"
           ++ JsString.replace_char JsString.squote "''" (path_resolve h filePath)
           ++ "');" ++ JsString.nl
           ++ "$player.Volume = " ++ Number.toString v ++ ";" ++ JsString.nl
           ++ "$player.Play();" ++ JsString.nl
           ++ "# Keep the process alive until the media finishes" ++ JsString.nl
           ++ "Start-Sleep -s $player.NaturalDuration.TimeSpan.TotalSeconds;"
           ++ JsString.nl ] in
  let line :=
    if is_darwin h
    then "afplay " ++ JsString.dquote ++ filePath ++ JsString.dquote ++ " -v "
         ++ Number.toString (Number.Math_min Number.two (Number.mul v Number.two))
         ++ " -r " ++ Number.toString rate
    else "powershell -c Add-Type -AssemblyName presentationCore; "
         ++ "$player = New-Object system.windows.media.mediaplayer; "
         ++ "$player.open('" ++ filePath ++ "'); $player.Volume = "
         ++ Number.toString v
         ++ "; $player.Play(); Start-Sleep 1; "
         ++ "Start-Sleep -s $player.NaturalDuration.TimeSpan.TotalSeconds;Exit;" in
  (forall fl,
     eval (play_of fl h filePath (Some v)) w
     = match spawn_error h (List.hd EmptyString argv) (List.tl argv) with
       | Some e => Throw e
       | None => Normal (Hex.encode (next_bytes w))
       end)
  /\ (forall fl id,
        eval (play_of fl h filePath (Some v)) w = Normal id ->
        spawned_command (next_child w) (exec (play_of fl h filePath (Some v)) w)
        = Some argv)
  /\ (forall exec,
        Legacy.play h exec filePath (Some v) (Some rate)
        = match exec line true with
          | Legacy.ExecDone _ _ => Legacy.Resolved
          | Legacy.ExecFailed err => Legacy.RejectedWith err
          end)
  /\ (Number.is_number v = true ->
      Number.Math_min Number.two (Number.mul v Number.two)
      = Number.mul v Number.two
      /\ Number.leb zero (Number.Math_min Number.two (Number.mul v Number.two)) = true
      /\ Number.leb (Number.Math_min Number.two (Number.mul v Number.two)) Number.two
         = true).
Proof.
  intros H0 H1 argv line.
  assert (Hargv : argv = Command.playCommand h (path_resolve h filePath)
                           (Command.volForOs h (with_default Number.half (Some v))))
    by (symmetry; apply playCommand_written_out).
  assert (Hline : line = Legacy.playCommand h filePath v rate)
    by (symmetry; apply legacy_playCommand_written_out).
  split; [|split; [|split]].
  - intro fl. rewrite play_of_eval. unfold play_error. rewrite <- Hargv. reflexivity.
  - intros fl id Hid. rewrite Hargv. apply command_after_play.
    apply (play_of_returns _ _ _ _ _ _ Hid).
  - intro exec. rewrite Hline. reflexivity.
  - intro Hv. destruct (adjusted_volume_in_range v Hv H0 H1) as (E & Hlo & Hhi).
    rewrite E. split; [reflexivity|]. split; assumption.
Qed.

(** Volume 0.8: [afplay] is handed 1.6, the script is handed 0.8. *)
Lemma volume_per_platform_witness :
  spawned_command 0
    (exec (AudioPlayer.play darwin_host "ding.wav" (Some zero_point_eight))
       (initial counting_bytes))
  = Some ["afplay"; "/Users/me/ding.wav"; "-v"; "1.6"]
  /\ spawned_command 0
       (exec (AudioPlayer.play win32_host "ding.wav" (Some zero_point_eight))
          (initial counting_bytes))
     = Some ["powershell"; "-NoProfile"; "-Command";
             JsString.nl ++ "Add-Type -AssemblyName presentationCore;" ++ JsString.nl
             ++ "$player = New-Object system.windows.media.mediaplayer;" ++ JsString.nl
             ++ "$player.open('C:\sounds\ding.wav');" ++ JsString.nl
             ++ "$player.Volume = 0.8;" ++ JsString.nl
             ++ "$player.Play();" ++ JsString.nl
             ++ "# Keep the process alive until the media finishes" ++ JsString.nl
             ++ "Start-Sleep -s $player.NaturalDuration.TimeSpan.TotalSeconds;"
             ++ JsString.nl]
  /\ Legacy.play win32_host failing_exec "ding.wav" (Some zero_point_eight)
       (Some Number.one)
     = Legacy.RejectedWith "spawn afplay ENOENT"
  /\ Number.leb
       (Number.Math_min Number.two (Number.mul zero_point_eight Number.two))
       Number.two = true.
Proof.
  assert (H0 : Number.leb zero zero_point_eight = true) by reflexivity.
  assert (H1 : Number.leb zero_point_eight Number.one = true) by reflexivity.
  destruct (volume_per_platform darwin_host "ding.wav" zero_point_eight Number.one
              (initial counting_bytes) H0 H1) as (_ & Hm & _ & _).
  destruct (volume_per_platform win32_host "ding.wav" zero_point_eight Number.one
              (initial counting_bytes) H0 H1) as (_ & Hw & Hl & Hrange).
  destruct (Hrange eq_refl) as (_ & _ & Hhi).
  split; [|split; [|split]].
  - etransitivity; [exact (Hm TypeScript "00254a6f" eq_refl)|]. vm_compute. reflexivity.
  - etransitivity; [exact (Hw TypeScript "00254a6f" eq_refl)|]. vm_compute. reflexivity.
  - rewrite Hl. reflexivity.
  - exact Hhi.
Defined.

(** The scenario of the Windows script: volume 0.8 is written as it is,
    and the path is written with its quotes doubled. *)
Example windows_script_scenario :
  Command.windowsPowerShellScript "C:\sounds\it's.wav" zero_point_eight
  = JsString.nl ++ "Add-Type -AssemblyName presentationCore;" ++ JsString.nl
    ++ "$player = New-Object system.windows.media.mediaplayer;" ++ JsString.nl
    ++ "$player.open('C:\sounds\it''s.wav');" ++ JsString.nl
    ++ "$player.Volume = 0.8;" ++ JsString.nl
    ++ "$player.Play();" ++ JsString.nl
    ++ "# Keep the process alive until the media finishes" ++ JsString.nl
    ++ "Start-Sleep -s $player.NaturalDuration.TimeSpan.TotalSeconds;" ++ JsString.nl.
Proof. vm_compute. reflexivity. Qed.

(** C6, as the code has it. On a macOS host the spawn-based modules run
    [afplay] with exactly three arguments: the resolved path, [-v] and the
    adjusted volume [Math.min(2, volume * 2)]. That is the command the
    process of a [play] that returns runs, and the command on which
    [spawn] decides whether [play] returns or throws. The exec-based
    module builds a shell line instead, with the path as it was given,
    in double quotes, and with [-r] and the playback rate after the
    volume. *)
Theorem mac_command_shape (h : Host) (filePath : string)
    (volume : option Number.number) (rate : Number.number) (w : World) :
  is_darwin h = true ->
  (forall fl id,
     eval (play_of fl h filePath volume) w = Normal id ->
     spawned_command (next_child w) (exec (play_of fl h filePath volume) w)
     = Some [ "afplay"; path_resolve h filePath; "-v";
              Number.toString
                (Number.Math_min Number.two
                   (Number.mul (with_default Number.half volume) Number.two)) ])
  /\ (forall fl,
        eval (play_of fl h filePath volume) w
        = match spawn_error h "afplay"
                  [ path_resolve h filePath; "-v";
                    Number.toString
                      (Number.Math_min Number.two
                         (Number.mul (with_default Number.half volume) Number.two)) ]
          with
          | Some e => Throw e
          | None => Normal (Hex.encode (next_bytes w))
          end)
  /\ Legacy.playCommand h filePath (with_default Number.half volume) rate
     = "afplay " ++ JsString.dquote ++ filePath ++ JsString.dquote ++ " -v "
       ++ Number.toString
            (Number.Math_min Number.two
               (Number.mul (with_default Number.half volume) Number.two))
       ++ " -r " ++ Number.toString rate.
Proof.
  intro Hd. split; [|split].
  - intros fl id Hid.
    rewrite (command_after_play _ _ _ _ _ (proj1 (play_of_returns _ _ _ _ _ _ Hid))).
    unfold Command.playCommand, Command.volForOs. rewrite Hd. reflexivity.
  - intro fl. rewrite play_of_eval. unfold play_error.
    unfold Command.playCommand, Command.volForOs. rewrite Hd. reflexivity.
  - unfold Legacy.playCommand, Legacy.volumeAdjustedByOS. rewrite Hd. reflexivity.
Qed.

(** [play("./ding.wav", 0.5)] on macOS runs [afplay <path> -v 1]. *)
Lemma mac_command_shape_witness :
  spawned_command 0
    (exec (AudioPlayer.play darwin_host "./ding.wav" (Some Number.half))
       (initial counting_bytes))
  = Some ["afplay"; path_resolve darwin_host "./ding.wav"; "-v"; "1"].
Proof.
  destruct (mac_command_shape darwin_host "./ding.wav" (Some Number.half) Number.one
              (initial counting_bytes) eq_refl) as [Hm _].
  etransitivity; [exact (Hm TypeScript "00254a6f" eq_refl)|]. vm_compute. reflexivity.
Defined.

(** C6 as stated fails on the exec-based module: its command for
    [play("./ding.wav", 0.5)] is not [afplay], the resolved path, [-v]
    and the volume, but carries the unresolved path and [-r 1]. *)
Lemma legacy_mac_command_has_rate :
  Legacy.playCommand darwin_host "./ding.wav" Number.half Number.one
  = "afplay " ++ JsString.dquote ++ "./ding.wav" ++ JsString.dquote ++ " -v 1 -r 1"
  /\ Legacy.playCommand darwin_host "./ding.wav" Number.half Number.one
     <> JsString.join " "
          (Command.macPlayCommand (path_resolve darwin_host "./ding.wav") Number.one).
Proof. split; [vm_compute; reflexivity|vm_compute; discriminate]. Qed.

(* ------------------------------------------------------------------ *)
(** ** Events on the child of a [play] *)
(* ------------------------------------------------------------------ *)

Lemma listeners_after_play fl h filePath volume w :
  play_error h filePath volume = None ->
  listeners_of (next_child w) (exec (play_of fl h filePath volume) w)
  = registered_listeners fl (Hex.encode (next_bytes w)) (next_promise w).
Proof.
  intro Ep. unfold listeners_of. rewrite (process_after_play _ _ _ _ _ Ep).
  reflexivity.
Qed.

Lemma registered_listeners_delete fl id p ev :
  In id (map (fun l => deleted_id (callback l))
           (filter (listens ev) (registered_listeners fl id p))).
Proof. destruct fl, ev; simpl; auto. Qed.

(** Either event on the child of a [play] removes the id from the
    registry. *)
Lemma event_unregisters fl h filePath volume w ev :
  play_error h filePath volume = None ->
  JsMap.get (Hex.encode (next_bytes w))
    (activeChildren
       (exec (emit (next_child w) ev) (exec (play_of fl h filePath volume) w)))
  = None.
Proof.
  intro Ep. rewrite emit_registry. apply get_deletes_member.
  rewrite (listeners_after_play _ _ _ _ _ Ep). apply registered_listeners_delete.
Qed.

Lemma has_nul_app (s t : string) :
  has_nul (s ++ t) = has_nul s || has_nul t.
Proof.
  induction s as [|a s IH]; [reflexivity|].
  cbn [String.append has_nul]. rewrite IH. apply orb_assoc.
Qed.

Lemma has_nul_escaped (s : string) : has_nul (Command.escaped s) = has_nul s.
Proof.
  unfold Command.escaped. induction s as [|a s IH]; [reflexivity|].
  cbn [JsString.replace_char].
  destruct (Ascii.eqb a JsString.squote) eqn:E.
  - apply Ascii.eqb_eq in E. subst a. rewrite has_nul_app, IH. reflexivity.
  - cbn [has_nul]. rewrite IH. reflexivity.
Qed.

Lemma has_nul_string_of_uint (d : Decimal.uint) :
  has_nul (NilEmpty.string_of_uint d) = false.
Proof. induction d; cbn [NilEmpty.string_of_uint has_nul]; try exact IHd; reflexivity. Qed.

Lemma has_nul_digits (z : Z) : has_nul (Number.digits z) = false.
Proof.
  unfold Number.digits, NilZero.string_of_uint.
  destruct (N.to_uint (Z.to_N z)); try apply has_nul_string_of_uint. reflexivity.
Qed.

Lemma has_nul_zeros (n : Z) : has_nul (Number.zeros n) = false.
Proof.
  unfold Number.zeros. induction (Z.to_nat n) as [|k IH]; [reflexivity|exact IH].
Qed.

Lemma has_nul_substring (n m : nat) (s : string) :
  has_nul s = false -> has_nul (substring n m s) = false.
Proof.
  revert n m. induction s as [|a s IH]; intros n m H.
  - destruct n, m; reflexivity.
  - cbn [has_nul] in H. apply orb_false_iff in H. destruct H as [Ha Hs].
    destruct n as [|n]; destruct m as [|m]; cbn [substring]; try reflexivity.
    + cbn [has_nul]. rewrite Ha. apply (IH 0 m Hs).
    + apply (IH n 0 Hs).
    + apply (IH n (S m) Hs).
Qed.

Lemma has_nul_layout (k n s : Z) : has_nul (Number.layout k n s) = false.
Proof.
  unfold Number.layout.
  pose proof (has_nul_digits s) as Hd.
  repeat match goal with
         | |- context [if ?b then _ else _] => destruct b
         end;
    rewrite ?has_nul_app, ?has_nul_zeros, ?has_nul_digits,
      ?(has_nul_substring _ _ _ Hd); reflexivity.
Qed.

Lemma has_nul_toString (x : Number.number) : has_nul (Number.toString x) = false.
Proof.
  destruct x as [s| s | |s m e]; cbn [Number.toString]; try reflexivity.
  - destruct s; reflexivity.
  - destruct (Number.shortest 17 m e 1) as [k [s' n]].
    rewrite has_nul_app, has_nul_layout. destruct s; reflexivity.
Qed.

Lemma has_nul_script (filePath : string) (volume : Number.number) :
  has_nul (Command.windowsPowerShellScript filePath volume) = has_nul filePath.
Proof.
  unfold Command.windowsPowerShellScript.
  rewrite !has_nul_app, has_nul_escaped, has_nul_toString.
  destruct (has_nul filePath); reflexivity.
Qed.

(** The argument check of [spawn] refuses the command of [play] exactly
    when the resolved path holds the character of code zero. *)
Lemma play_command_rejected h filePath volume :
  rejected_arguments
    (cmd_of (Command.playCommand h (path_resolve h filePath)
               (Command.volForOs h (with_default Number.half volume))))
    (args_of (Command.playCommand h (path_resolve h filePath)
                (Command.volForOs h (with_default Number.half volume))))
  = has_nul (path_resolve h filePath).
Proof.
  unfold rejected_arguments, Command.playCommand. destruct (is_darwin h).
  - cbn [Command.macPlayCommand cmd_of args_of List.hd List.tl existsb].
    rewrite has_nul_toString.
    destruct (has_nul (path_resolve h filePath)); reflexivity.
  - cbn [Command.windowsPlayCommand cmd_of args_of List.hd List.tl existsb].
    rewrite has_nul_script.
    destruct (has_nul (path_resolve h filePath)); reflexivity.
Qed.

Lemma play_error_nul h filePath volume :
  has_nul (path_resolve h filePath) = true ->
  play_error h filePath volume = Some ERR_INVALID_ARG_VALUE.
Proof.
  intro Hn. unfold play_error, spawn_error.
  rewrite play_command_rejected, Hn. reflexivity.
Qed.

(** C2, as the code has it. In the spawn-based modules [play] does not
    wait for the playback, and it throws exactly when [spawn] throws: for
    a command that the argument check of [spawn] refuses, as it does any
    path that holds the character of code zero, or for an error code that
    the system reports at once and that is not left to the [error]
    event. A [play] that throws has drawn no id and has registered
    nothing. In every other case [play] returns its id whatever becomes
    of the process: the call registers an observer of the [error] event
    on the child, and a failure to find or to start the program shows
    only when that event is emitted, upon which the id is removed from
    the registry. In the exec-based module the promise that [play]
    returns settles when the command has run, and it is rejected with the
    error of [exec] when the command fails. (The calls of [path.resolve]
    and of [crypto.randomBytes] are taken to return, as the definitions
    of the host and of the random source say.) *)
Theorem spawn_failure_is_asynchronous (h : Host) (filePath : string)
    (volume : option Number.number) (w : World) :
  let argv :=
    Command.playCommand h (path_resolve h filePath)
      (Command.volForOs h (with_default Number.half volume)) in
  (forall fl e,
     spawn_error h (cmd_of argv) (args_of argv) = Some e ->
     play_of fl h filePath volume w = (Throw e, w))
  /\ (forall fl,
        spawn_error h (cmd_of argv) (args_of argv) = None ->
        let id := Hex.encode (next_bytes w) in
        let w' := exec (play_of fl h filePath volume) w in
        eval (play_of fl h filePath volume) w = Normal id
        /\ JsMap.get id (activeChildren w') = Some (next_child w)
        /\ listeners_of (next_child w) w'
           = registered_listeners fl id (next_promise w)
        /\ JsMap.get id (activeChildren (exec (emit (next_child w) ErrorEvent) w'))
           = None)
  /\ (has_nul (path_resolve h filePath) = true ->
      forall fl, play_of fl h filePath volume w = (Throw ERR_INVALID_ARG_VALUE, w))
  /\ (has_nul (path_resolve h filePath) = false ->
      spawn_errno h (cmd_of argv) (args_of argv) = None ->
      forall fl,
        eval (play_of fl h filePath volume) w = Normal (Hex.encode (next_bytes w)))
  /\ (has_nul (path_resolve h filePath) = false ->
      forall code,
        spawn_errno h (cmd_of argv) (args_of argv) = Some code ->
        forall fl,
          play_of fl h filePath volume w = (Throw (ErrnoException code), w))
  /\ (forall exec_ rate,
        Legacy.play h exec_ filePath volume rate
        = match exec_ (Legacy.playCommand h filePath
                         (with_default Number.half volume)
                         (with_default Number.one rate)) true with
          | Legacy.ExecDone _ _ => Legacy.Resolved
          | Legacy.ExecFailed err => Legacy.RejectedWith err
          end).
Proof.
  intro argv. split; [|split; [|split; [|split; [|split]]]].
  - intros fl e E. apply play_of_throws. exact E.
  - intros fl Ep id w'. subst id w'.
    split; [apply play_of_id; exact Ep|].
    split; [rewrite (play_of_registry _ _ _ _ _ Ep); apply get_set_same|].
    split; [apply listeners_after_play; exact Ep|apply event_unregisters; exact Ep].
  - intros Hn fl. apply play_of_throws. apply play_error_nul. exact Hn.
  - intros Hn He fl. apply play_of_id. unfold play_error. fold argv.
    unfold spawn_error. rewrite He. subst argv.
    rewrite play_command_rejected, Hn. reflexivity.
  - intros Hn code He fl. apply play_of_throws. unfold play_error. fold argv.
    unfold spawn_error. rewrite He. subst argv.
    rewrite play_command_rejected, Hn. reflexivity.
  - intros exec_ rate. reflexivity.
Qed.

(** A path without the character of code zero: [play] returns, and the
    [error] event of the child removes the id. With that character in the
    path, [play] throws and leaves the world as it was. *)
Lemma spawn_failure_is_asynchronous_witness :
  let w := initial counting_bytes in
  let w' := exec (AudioPlayer.play darwin_host "ding.wav" None) w in
  eval (AudioPlayer.play darwin_host "ding.wav" None) w = Normal "00254a6f"
  /\ JsMap.get "00254a6f" (activeChildren w') = Some 0
  /\ JsMap.get "00254a6f" (activeChildren (exec (emit 0 ErrorEvent) w')) = None
  /\ AudioPlayer.play darwin_host ("ding" ++ nul ++ ".wav") None w
     = (Throw ERR_INVALID_ARG_VALUE, w).
Proof.
  intros w w'.
  destruct (spawn_failure_is_asynchronous darwin_host "ding.wav" None w)
    as (_ & Hret & _).
  destruct (Hret TypeScript eq_refl) as (Hid & Hreg & _ & Hgone).
  destruct (spawn_failure_is_asynchronous darwin_host ("ding" ++ nul ++ ".wav")
              None w) as (_ & _ & Hnul & _).
  split; [exact Hid|]. split; [exact Hreg|]. split; [exact Hgone|].
  exact (Hnul eq_refl TypeScript).
Defined.

(** C2 as stated fails on the exec-based module: when the player cannot
    be started, the error comes back from [play], as the rejection of the
    promise it returns. *)
Lemma legacy_play_rejects :
  Legacy.play darwin_host failing_exec "ding.wav" None None
  = Legacy.RejectedWith "spawn afplay ENOENT".
Proof. reflexivity. Qed.

(** C5, where the code departs from it. The exec-based module writes the
    path into the script as it is: for a path with a quote the literal
    handed to [$player.open] ends at that quote, so the literal names
    another file and the rest of the path is read as script text. The
    spawn-based modules double the quote, and there the literal names the
    path. *)
Theorem legacy_script_breaks_on_quote :
  Legacy.loadAudioFile "C:\sounds\it's.wav" = "$player.open('C:\sounds\it's.wav');"
  /\ opened_file (Legacy.windowPlayCommand "C:\sounds\it's.wav" Number.half)
     = Some "C:\sounds\it"
  /\ opened_file (Command.windowsPowerShellScript "C:\sounds\it's.wav" Number.half)
     = Some "C:\sounds\it's.wav".
Proof. split; [|split]; vm_compute; reflexivity. Qed.

(* ------------------------------------------------------------------ *)
(** ** The id generator *)
(* ------------------------------------------------------------------ *)

Lemma decode_of_byte (b : byte) (s : string) :
  Hex.decode (Hex.of_byte b ++ s)
  = match Hex.decode s with Some bs => Some (b :: bs) | None => None end.
Proof. destruct b; reflexivity. Qed.

Lemma decode_encode (buf : list byte) : Hex.decode (Hex.encode buf) = Some buf.
Proof.
  induction buf as [|b buf IH]; [reflexivity|].
  cbn [Hex.encode]. rewrite decode_of_byte, IH. reflexivity.
Qed.

Lemma encode_injective (a b : list byte) : Hex.encode a = Hex.encode b -> a = b.
Proof.
  intro H. apply (f_equal Hex.decode) in H. rewrite !decode_encode in H.
  congruence.
Qed.

Lemma of_byte_shape (b : byte) :
  exists d1 d2, Hex.of_byte b = String d1 (String d2 EmptyString)
                /\ Hex.is_digit d1 = true /\ Hex.is_digit d2 = true.
Proof. destruct b; do 2 eexists; repeat split. Qed.

Lemma length_encode (buf : list byte) :
  String.length (Hex.encode buf) = 2 * List.length buf.
Proof.
  induction buf as [|b buf IH]; [reflexivity|].
  destruct (of_byte_shape b) as (d1 & d2 & E & _).
  cbn [Hex.encode]. rewrite E. simpl. rewrite IH. lia.
Qed.

Lemma all_hex_encode (buf : list byte) : all_hex (Hex.encode buf) = true.
Proof.
  unfold all_hex, JsString.chars.
  induction buf as [|b buf IH]; [reflexivity|].
  destruct (of_byte_shape b) as (d1 & d2 & E & H1 & H2).
  cbn [Hex.encode]. rewrite E. simpl. rewrite H1, H2, IH. reflexivity.
Qed.

Lemma length_next_bytes w : List.length (next_bytes w) = 4.
Proof. reflexivity. Qed.

(** C7, as the code has it. The id that [play] returns is the one its
    generator made: the next four bytes of the random source, written as
    eight lowercase hexadecimal characters. The registry is not consulted,
    so the id is the same whatever is registered. It is not among the
    active ids when no active id encodes the four bytes drawn; when one
    does, [play] returns that id again and its entry now holds the new
    process. *)
Theorem play_id_is_generated (fl : Flavour) (h : Host) (filePath : string)
    (volume : option Number.number) (w : World) (id : PlaybackId) :
  eval (play_of fl h filePath volume) w = Normal id ->
  id = Hex.encode (next_bytes w)
  /\ String.length id = 8
  /\ all_hex id = true
  /\ (forall w2, entropy w2 = entropy w -> drawn w2 = drawn w ->
        eval (play_of fl h filePath volume) w2 = Normal id)
  /\ ((forall k, In k (JsMap.keys (activeChildren w)) ->
                 Hex.decode k <> Some (next_bytes w)) ->
      JsMap.has id (activeChildren w) = false)
  /\ JsMap.get id (activeChildren (exec (play_of fl h filePath volume) w))
     = Some (next_child w).
Proof.
  intro Hid. destruct (play_of_returns _ _ _ _ _ _ Hid) as [Ep ->].
  split; [reflexivity|].
  split; [rewrite length_encode, length_next_bytes; reflexivity|].
  split; [apply all_hex_encode|].
  split; [|split].
  - intros w2 He Hd. rewrite (play_of_id _ _ _ _ _ Ep).
    unfold next_bytes. rewrite He, Hd. reflexivity.
  - intro Hfresh.
    destruct (JsMap.has _ _) eqn:E; [|reflexivity].
    apply has_true_iff in E. exfalso. apply (Hfresh _ E). apply decode_encode.
  - rewrite (play_of_registry _ _ _ _ _ Ep). apply get_set_same.
Qed.

(** With a source that never repeats, the second id is not among the
    active ones. *)
Lemma play_id_is_generated_witness :
  let w := exec (AudioPlayer.play darwin_host "ding.wav" None)
             (initial counting_bytes) in
  eval (AudioPlayer.play darwin_host "dong.wav" None) w = Normal "94b9de03"
  /\ JsMap.has "94b9de03" (activeChildren w) = false.
Proof.
  intro w.
  assert (Hid : eval (play_of TypeScript darwin_host "dong.wav" None) w
                = Normal "94b9de03") by (vm_compute; reflexivity).
  destruct (play_id_is_generated TypeScript darwin_host "dong.wav" None w
              "94b9de03" Hid)
    as (_ & _ & _ & _ & Hfresh & _).
  split; [exact Hid|].
  apply Hfresh. intros k [Hk|[]]. subst k. vm_compute. discriminate.
Defined.

(** C7 as stated fails: when the random source yields the same four
    bytes again, the second [play] returns an id that is registered at
    the time of the call. *)
Lemma play_can_return_an_active_id :
  let w := exec (AudioPlayer.play darwin_host "ding.wav" None)
             (initial constant_bytes) in
  eval (AudioPlayer.play darwin_host "dong.wav" None) w = Normal "2a2a2a2a"
  /\ JsMap.has "2a2a2a2a" (activeChildren w) = true.
Proof. split; vm_compute; reflexivity. Qed.

(* ------------------------------------------------------------------ *)
(** ** [stopAll] *)
(* ------------------------------------------------------------------ *)

Lemma stop_processes w id :
  processes (exec (stop id) w)
  = kills (handles_of [id] (activeChildren w)) (processes w).
Proof.
  unfold handles_of, exec. simpl.
  destruct (JsMap.get id (activeChildren w)) as [c|] eqn:E.
  - rewrite (stop_present _ _ _ E). reflexivity.
  - rewrite (stop_absent _ _ E). reflexivity.
Qed.

Lemma handles_of_ext ids (m1 m2 : JsMap.t ChildRef) :
  (forall id, In id ids -> JsMap.get id m1 = JsMap.get id m2) ->
  handles_of ids m1 = handles_of ids m2.
Proof.
  unfold handles_of. induction ids as [|id ids IH]; intro H; [reflexivity|].
  simpl. rewrite (H id) by (left; reflexivity).
  rewrite IH; [reflexivity|]. intros. apply H. right. assumption.
Qed.

Lemma handles_of_cons id ids (m : JsMap.t ChildRef) :
  handles_of (id :: ids) m = (handles_of [id] m ++ handles_of ids m)%list.
Proof. unfold handles_of. simpl. rewrite app_nil_r. reflexivity. Qed.

Lemma handles_of_keys (m : JsMap.t ChildRef) :
  NoDup (JsMap.keys m) -> handles_of (JsMap.keys m) m = JsMap.values m.
Proof.
  induction m as [|[k v] m IH]; intro H; [reflexivity|].
  inversion H as [|x l Hk Hm]; subst.
  simpl JsMap.keys. rewrite handles_of_cons.
  unfold handles_of at 1. simpl. rewrite String.eqb_refl. simpl. f_equal.
  rewrite <- (IH Hm). apply handles_of_ext.
  intros id Hin. simpl. destruct (String.eqb k id) eqn:E; [|reflexivity].
  apply String.eqb_eq in E. subst id. contradiction.
Qed.

Lemma stop_loop_processes ids w :
  NoDup ids ->
  processes (exec (for_of ids (fun id => stop id ;; ret tt)) w)
  = kills (handles_of ids (activeChildren w)) (processes w).
Proof.
  revert w. induction ids as [|id ids IH]; intros w Hnd; [reflexivity|].
  inversion Hnd as [|x l Hid Hrest]; subst.
  rewrite exec_for_of_cons, (IH _ Hrest).
  rewrite exec_bind. simpl exec at 2. simpl exec at 3.
  change (exec (ret tt) (exec (stop id) w)) with (exec (stop id) w).
  rewrite stop_registry, stop_processes.
  rewrite (handles_of_cons id ids). unfold kills. rewrite fold_left_app.
  rewrite (handles_of_ext ids (JsMap.delete id (activeChildren w)) (activeChildren w));
    [reflexivity|].
  intros k Hk. apply get_delete_other.
  intro E. subst k. contradiction.
Qed.

Lemma signals_in_kills cs ps c :
  signals_in (kills cs ps) c
  = match nth_error ps c with
    | Some p => (signals p ++ repeat SIGTERM (count_occ Nat.eq_dec cs c))%list
    | None => []
    end.
Proof.
  unfold signals_in. revert ps. induction cs as [|c0 cs IH]; intro ps.
  - simpl. destruct (nth_error ps c); [rewrite app_nil_r|]; reflexivity.
  - simpl kills. change (fold_left _ cs ?x) with (kills cs x). rewrite IH.
    simpl count_occ. destruct (Nat.eq_dec c0 c) as [->|Hne].
    + rewrite nth_error_update_nth_same. destruct (nth_error ps c); [|reflexivity].
      simpl. rewrite <- app_assoc. reflexivity.
    + rewrite nth_error_update_nth_other by congruence. reflexivity.
Qed.

Lemma stopAll_processes w :
  NoDup (JsMap.keys (activeChildren w)) ->
  processes (exec stopAll w) = kills (JsMap.values (activeChildren w)) (processes w).
Proof.
  intro H. unfold exec. rewrite stopAll_unfold.
  rewrite <- (handles_of_keys _ H). apply (stop_loop_processes _ w H).
Qed.

(** C4, as the code has it. [stopAll] takes the keys of the registry as
    they are when it is called and runs [stop] on each of them in turn.
    In a well-formed world each registered id occurs once among them, so
    the process of each registered id is sent the termination signal
    exactly once, a process that is not registered is sent none, and the
    registry is empty when [stopAll] returns. That is so in
    [audio-player.ts] and in the enhanced module, and in the CommonJS
    module when [stopAll] is called on the exported object. The loop of
    the CommonJS module calls [this.stop]: called on a receiver without
    a [stop], it throws at the first id and stops nothing, and it returns
    without a change when there is no id. *)
Theorem stopAll_stops_each_once (w : World) :
  let ids := JsMap.keys (activeChildren w) in
  stopAll w = for_of ids (fun id => stop id ;; ret tt) w
  /\ activeChildren (exec stopAll w) = []
  /\ (registry_ok w ->
      (forall id, count_occ string_dec ids id
                  = if JsMap.has id (activeChildren w) then 1 else 0)
      /\ (forall id c, JsMap.get id (activeChildren w) = Some c ->
            signals_of c (exec stopAll w) = (signals_of c w ++ [SIGTERM])%list)
      /\ (forall c, ~ In c (JsMap.values (activeChildren w)) ->
            signals_of c (exec stopAll w) = signals_of c w))
  /\ CommonJS.stopAll CommonJS.ExportsObject w = (Normal tt, exec stopAll w)
  /\ CommonJS.stopAll CommonJS.NoStopMethod w
     = match ids with
       | [] => (Normal tt, w)
       | _ :: _ => (Throw TypeError_not_a_function, w)
       end.
Proof.
  intro ids. split; [reflexivity|]. split; [apply stopAll_registry|].
  split; [|split; [apply CommonJS_stopAll_bound|
                   rewrite CommonJS_stopAll_unbound; subst ids;
                   destruct (activeChildren w) as [|[k c] m]; reflexivity]].
  intros [Hkeys Hvals Hlive].
  assert (Hsig : forall c, signals_of c (exec stopAll w)
                           = signals_in (kills (JsMap.values (activeChildren w))
                                           (processes w)) c)
    by (intro c; unfold signals_of, process, signals_in;
        rewrite (stopAll_processes _ Hkeys); reflexivity).
  split; [|split].
  - intro id. subst ids. destruct (JsMap.has id (activeChildren w)) eqn:E.
    + apply has_true_iff in E.
      exact (proj1 (NoDup_count_occ' string_dec _) Hkeys id E).
    + apply count_occ_not_In. intro Hin. apply has_true_iff in Hin. congruence.
  - intros id c Hget. rewrite Hsig, signals_in_kills.
    pose proof (get_Some_value _ _ _ Hget) as Hin.
    pose proof (Hlive c Hin) as Hc.
    unfold signals_of, process.
    destruct (nth_error (processes w) c) as [p|] eqn:E;
      [|apply nth_error_None in E; lia].
    rewrite (proj1 (NoDup_count_occ' Nat.eq_dec _) Hvals c Hin). reflexivity.
  - intros c Hout. rewrite Hsig, signals_in_kills.
    unfold signals_of, process.
    destruct (nth_error (processes w) c) as [p|]; [|reflexivity].
    rewrite (proj1 (count_occ_not_In Nat.eq_dec _ _) Hout). apply app_nil_r.
Qed.

(** Two playbacks of the CommonJS module: [stopAll] on the exported
    object signals each process once and leaves the registry empty. *)
Lemma stopAll_stops_each_once_witness :
  let w := exec (run CommonJs darwin_host
                   [Play "ding.wav" None; Play "dong.wav" None])
             (initial counting_bytes) in
  let w' := exec (CommonJS.stopAll CommonJS.ExportsObject) w in
  JsMap.keys (activeChildren w) = ["00254a6f"; "94b9de03"]
  /\ eval (CommonJS.stopAll CommonJS.ExportsObject) w = Normal tt
  /\ signals_of 0 w' = [SIGTERM]
  /\ signals_of 1 w' = [SIGTERM]
  /\ activeChildren w' = [].
Proof.
  intros w w'.
  assert (Hok : registry_ok w).
  { constructor.
    - vm_compute. repeat constructor; simpl; intuition discriminate.
    - vm_compute. repeat constructor; simpl; intuition discriminate.
    - vm_compute. intros c [<-|[<-|[]]]; repeat constructor. }
  destruct (stopAll_stops_each_once w) as (_ & Hempty & Hrest & Hcjs & _).
  destruct (Hrest Hok) as (_ & Hsig & _).
  subst w'. unfold exec at 1 2 3, eval. rewrite Hcjs. cbn [fst snd].
  split; [reflexivity|]. split; [reflexivity|].
  split; [exact (Hsig "00254a6f" 0 eq_refl)|].
  split; [exact (Hsig "94b9de03" 1 eq_refl)|exact Hempty].
Defined.

(** C4 as stated fails on the CommonJS module: [stopAll] called on its
    own, after [const { stopAll } = require(...)], throws with a playback
    registered; the playback stays registered and its process is sent no
    signal. *)
Lemma detached_stopAll_stops_nothing :
  let w := exec (CommonJS.play darwin_host "ding.wav" None)
             (initial counting_bytes) in
  CommonJS.stopAll CommonJS.NoStopMethod w = (Throw TypeError_not_a_function, w)
  /\ JsMap.get "00254a6f" (activeChildren w) = Some 0
  /\ signals_of 0 w = [].
Proof. split; [|split]; vm_compute; reflexivity. Qed.

(* ------------------------------------------------------------------ *)
(** ** Worlds that differ in registry and signals only *)
(* ------------------------------------------------------------------ *)

Lemma same_observers_refl w : same_observers w w.
Proof. constructor; reflexivity. Qed.

Lemma same_observers_trans w1 w2 w3 :
  same_observers w1 w2 -> same_observers w2 w3 -> same_observers w1 w3.
Proof.
  intros [P1 F1 L1 S1] [P2 F2 L2 S2]. constructor.
  - rewrite P2. exact P1.
  - rewrite F2. exact F1.
  - intro c. rewrite L2. apply L1.
  - rewrite S2. exact S1.
Qed.

Lemma listeners_after_signal c c' ps :
  match nth_error (update_nth c (add_signal SIGTERM) ps) c' with
  | Some p => listeners p
  | None => []
  end
  = match nth_error ps c' with Some p => listeners p | None => [] end.
Proof.
  destruct (Nat.eq_dec c' c) as [->|Hne].
  - rewrite nth_error_update_nth_same. destruct (nth_error ps c); reflexivity.
  - rewrite nth_error_update_nth_other by exact Hne. reflexivity.
Qed.

Lemma stop_same_observers w id : same_observers w (exec (stop id) w).
Proof.
  unfold exec. destruct (JsMap.get id (activeChildren w)) as [c|] eqn:E.
  - rewrite (stop_present _ _ _ E). constructor; simpl; try reflexivity.
    + intro c'. unfold listeners_of, process. simpl. apply listeners_after_signal.
    + apply length_update_nth.
  - rewrite (stop_absent _ _ E). apply same_observers_refl.
Qed.

Lemma stop_loop_same_observers ids w :
  same_observers w (exec (for_of ids (fun id => stop id ;; ret tt)) w).
Proof.
  revert w. induction ids as [|id ids IH]; intro w; [apply same_observers_refl|].
  rewrite exec_for_of_cons.
  eapply same_observers_trans; [|apply IH].
  rewrite exec_bind. apply stop_same_observers.
Qed.

Lemma stopAll_same_observers w : same_observers w (exec stopAll w).
Proof. apply (stop_loop_same_observers (JsMap.keys (activeChildren w)) w). Qed.

Lemma step_stopAll_same_observers fl h this_ w :
  same_observers w (exec (step fl h (StopAll this_)) w).
Proof.
  rewrite exec_step_stopAll. destruct (stopAll_throws fl this_ w).
  - apply same_observers_refl.
  - apply stopAll_same_observers.
Qed.


(* ------------------------------------------------------------------ *)
(** ** The world after an event *)
(* ------------------------------------------------------------------ *)

Lemma call_processes cb w : processes (exec (call cb) w) = processes w.
Proof.
  destruct cb as [id|id p]; [reflexivity|].
  simpl. rewrite exec_bind. unfold exec at 1, resolve.
  destruct (promise_state p _) as [[| |]|]; reflexivity.
Qed.

Lemma call_promises cb w :
  (promises (exec (call cb) w), fulfilments (exec (call cb) w))
  = settle_all (promises_resolved_by [{| event := ExitEvent; once := true; callback := cb |}])
      (promises w, fulfilments w).
Proof.
  destruct cb as [id|id p]; [reflexivity|].
  simpl. rewrite exec_bind. unfold exec at 1 3, resolve, settle, promise_state.
  simpl. destruct (nth_error (promises w) p) as [[| |]|]; reflexivity.
Qed.

Lemma call_loop_processes (ls : list Listener) w :
  processes (exec (for_of ls (fun l => call (callback l))) w) = processes w.
Proof.
  revert w. induction ls as [|l ls IH]; intro w; [reflexivity|].
  rewrite exec_for_of_cons, IH. apply call_processes.
Qed.

Lemma promises_resolved_by_cons l ls :
  promises_resolved_by (l :: ls)
  = (promises_resolved_by [l] ++ promises_resolved_by ls)%list.
Proof. unfold promises_resolved_by. simpl. rewrite app_nil_r. reflexivity. Qed.

Lemma call_loop_promises (ls : list Listener) w :
  (promises (exec (for_of ls (fun l => call (callback l))) w),
   fulfilments (exec (for_of ls (fun l => call (callback l))) w))
  = settle_all (promises_resolved_by ls) (promises w, fulfilments w).
Proof.
  revert w. induction ls as [|l ls IH]; intro w; [reflexivity|].
  rewrite exec_for_of_cons, IH, promises_resolved_by_cons.
  unfold settle_all at 2. rewrite fold_left_app. fold settle_all. f_equal.
  destruct l as [ev o cb]. simpl callback. rewrite call_promises.
  unfold promises_resolved_by. reflexivity.
Qed.

Lemma emit_processes c ev w :
  processes (exec (emit c ev) w)
  = update_nth c (set_listeners (kept_listeners ev (listeners_of c w))) (processes w).
Proof.
  unfold exec, emit, listeners_of, process.
  destruct (nth_error (processes w) c) as [p|] eqn:E.
  - match goal with |- processes (snd (for_of ?fired ?body ?w')) = _ =>
      exact (call_loop_processes fired w') end.
  - simpl. symmetry. apply update_nth_out_of_range. apply nth_error_None. exact E.
Qed.

Lemma emit_promises c ev w :
  (promises (exec (emit c ev) w), fulfilments (exec (emit c ev) w))
  = settle_all (promises_resolved_by (filter (listens ev) (listeners_of c w)))
      (promises w, fulfilments w).
Proof.
  unfold exec, emit, listeners_of, process.
  destruct (nth_error (processes w) c) as [p|] eqn:E; [|reflexivity].
  match goal with |- (promises (snd (for_of ?fired ?body ?w')), _) = _ =>
    exact (call_loop_promises fired w') end.
Qed.

Lemma listeners_after_emit c ev w c' :
  listeners_of c' (exec (emit c ev) w)
  = if Nat.eqb c' c then kept_listeners ev (listeners_of c w) else listeners_of c' w.
Proof.
  unfold listeners_of at 1, process. rewrite emit_processes.
  destruct (Nat.eqb c' c) eqn:E.
  - apply Nat.eqb_eq in E. subst c'. rewrite nth_error_update_nth_same.
    unfold listeners_of, process. destruct (nth_error (processes w) c); reflexivity.
  - apply Nat.eqb_neq in E. rewrite nth_error_update_nth_other by exact E. reflexivity.
Qed.

Lemma length_processes_after_emit c ev w :
  List.length (processes (exec (emit c ev) w)) = List.length (processes w).
Proof. rewrite emit_processes. apply length_update_nth. Qed.

(* ------------------------------------------------------------------ *)
(** ** Resolving promises *)
(* ------------------------------------------------------------------ *)

Lemma settle_length q st :
  List.length (fst (settle q st)) = List.length (fst st).
Proof.
  unfold settle. destruct (nth_error (fst st) q) as [[| |]|]; try reflexivity.
  simpl. apply length_update_nth.
Qed.

Lemma settle_all_length qs st :
  List.length (fst (settle_all qs st)) = List.length (fst st).
Proof.
  revert st. induction qs as [|q qs IH]; intro st; [reflexivity|].
  simpl. unfold settle_all in IH. rewrite IH. apply settle_length.
Qed.

Lemma settle_other q p st :
  p <> q -> nth_error (fst (settle q st)) p = nth_error (fst st) p.
Proof.
  intro Hne. unfold settle.
  destruct (nth_error (fst st) q) as [[| |]|]; try reflexivity.
  simpl. apply nth_error_update_nth_other. exact Hne.
Qed.

Lemma settle_self q st :
  nth_error (fst (settle q st)) q
  = match nth_error (fst st) q with
    | Some Pending => Some Fulfilled
    | other => other
    end.
Proof.
  unfold settle. destruct (nth_error (fst st) q) as [[| |]|] eqn:E; try exact E.
  simpl. rewrite nth_error_update_nth_same, E. reflexivity.
Qed.

Lemma settle_keeps_fulfilled q p st :
  nth_error (fst st) p = Some Fulfilled ->
  nth_error (fst (settle q st)) p = Some Fulfilled.
Proof.
  intro H. destruct (Nat.eq_dec p q) as [->|Hne].
  - rewrite settle_self, H. reflexivity.
  - rewrite settle_other; assumption.
Qed.

Lemma settle_all_keeps_fulfilled qs p st :
  nth_error (fst st) p = Some Fulfilled ->
  nth_error (fst (settle_all qs st)) p = Some Fulfilled.
Proof.
  revert st. induction qs as [|q qs IH]; intros st H; [exact H|].
  simpl. apply IH. apply settle_keeps_fulfilled. exact H.
Qed.

Lemma settle_all_not_member qs p st :
  ~ In p qs -> nth_error (fst (settle_all qs st)) p = nth_error (fst st) p.
Proof.
  revert st. induction qs as [|q qs IH]; intros st H; [reflexivity|].
  simpl. unfold settle_all in IH. rewrite IH by (intro; apply H; right; assumption).
  apply settle_other. intro E. apply H. left. congruence.
Qed.

Lemma settle_all_member qs p st :
  In p qs ->
  nth_error (fst st) p = Some Pending \/ nth_error (fst st) p = Some Fulfilled ->
  nth_error (fst (settle_all qs st)) p = Some Fulfilled.
Proof.
  revert st. induction qs as [|q qs IH]; intros st Hin Hst; [destruct Hin|].
  simpl. destruct (Nat.eq_dec q p) as [->|Hne].
  - apply (settle_all_keeps_fulfilled qs). rewrite settle_self.
    destruct Hst as [-> | ->]; reflexivity.
  - destruct Hin as [E|Hin]; [contradiction|].
    apply IH; [exact Hin|]. rewrite settle_other by congruence. exact Hst.
Qed.

Lemma settle_log_ok q st :
  log_ok (fst st) (snd st) -> log_ok (fst (settle q st)) (snd (settle q st)).
Proof.
  intros Hok p. destruct (Hok p) as [Hc Hr].
  destruct (nth_error (fst st) q) as [[| |]|] eqn:E;
    try (unfold settle; rewrite E; split; assumption).
  assert (Hsnd : snd (settle q st) = (snd st ++ [q])%list)
    by (unfold settle; rewrite E; reflexivity).
  rewrite Hsnd, count_occ_app. cbn [count_occ].
  destruct (Nat.eq_dec q p) as [Heq|Hne].
  - subst p. rewrite settle_self, E. rewrite Hc, E. split; [reflexivity|discriminate].
  - rewrite settle_other by congruence. split; [rewrite Hc; lia|exact Hr].
Qed.

Lemma settle_all_log_ok qs st :
  log_ok (fst st) (snd st) ->
  log_ok (fst (settle_all qs st)) (snd (settle_all qs st)).
Proof.
  revert st. induction qs as [|q qs IH]; intros st H; [exact H|].
  simpl. apply IH. apply settle_log_ok. exact H.
Qed.

Lemma promises_after_emit c ev w :
  promises (exec (emit c ev) w)
  = fst (settle_all (promises_resolved_by (filter (listens ev) (listeners_of c w)))
           (promises w, fulfilments w)).
Proof. rewrite <- emit_promises. reflexivity. Qed.

Lemma fulfilments_after_emit c ev w :
  fulfilments (exec (emit c ev) w)
  = snd (settle_all (promises_resolved_by (filter (listens ev) (listeners_of c w)))
           (promises w, fulfilments w)).
Proof. rewrite <- emit_promises. reflexivity. Qed.

Lemma In_promises_resolved_by p ls :
  In p (promises_resolved_by ls)
  <-> exists l, In l ls /\ resolved_promise (callback l) = Some p.
Proof.
  unfold promises_resolved_by. rewrite in_flat_map. split.
  - intros (l & Hl & Hp). exists l. split; [exact Hl|].
    destruct (resolved_promise (callback l)) as [q|]; [|destruct Hp].
    destruct Hp as [->|[]]. reflexivity.
  - intros (l & Hl & Hp). exists l. split; [exact Hl|]. rewrite Hp. left. reflexivity.
Qed.

(* ------------------------------------------------------------------ *)
(** ** Invariants of a run *)
(* ------------------------------------------------------------------ *)

Lemma promises_after_play_prefix fl ps q :
  q < List.length ps ->
  nth_error (promises_after_play fl ps) q = nth_error ps q.
Proof.
  intro Hq. destruct fl; try reflexivity. simpl. apply nth_error_app1. exact Hq.
Qed.

Lemma length_promises_after_play fl ps :
  List.length ps <= List.length (promises_after_play fl ps).
Proof. destruct fl; simpl; try lia. rewrite length_app. simpl. lia. Qed.

Lemma promises_ok_step fl h op w :
  promises_ok w -> promises_ok (exec (step fl h op) w).
Proof.
  unfold promises_ok. intro Hok.
  destruct op as [filePath volume|id|this_|c ev].
  - rewrite exec_step_play.
    destruct (play_error h filePath volume) as [e|] eqn:Ep;
      [rewrite (exec_play_of_throws _ _ _ _ _ _ Ep); exact Hok|].
    rewrite (play_of_world _ _ _ _ _ Ep). simpl.
    intro q. destruct (Hok q) as [Hc Hr].
    destruct (Nat.lt_ge_cases q (List.length (promises w))) as [Hq|Hq].
    + rewrite promises_after_play_prefix by exact Hq. split; assumption.
    + assert (Hnone : nth_error (promises w) q = None) by (apply nth_error_None; exact Hq).
      rewrite Hnone in Hc. rewrite Hc. destruct fl; simpl; rewrite ?Hnone;
        try (split; [reflexivity|discriminate]).
      destruct (Nat.eq_dec q (List.length (promises w))) as [->|Hne].
      * rewrite nth_error_app2, Nat.sub_diag by lia. simpl.
        split; [reflexivity|discriminate].
      * assert (Hn : nth_error (promises w ++ [Pending])%list q = None)
          by (apply nth_error_None; rewrite length_app; simpl; lia).
        rewrite Hn. split; [reflexivity|discriminate].
  - destruct (stop_same_observers w id) as [P F _ _].
    rewrite exec_step_stop, P, F. exact Hok.
  - rewrite exec_step_stopAll.
    destruct (stopAll_throws fl this_ w); [exact Hok|].
    destruct (stopAll_same_observers w) as [P F _ _].
    rewrite P, F. exact Hok.
  - simpl step. rewrite promises_after_emit, fulfilments_after_emit.
    apply (settle_all_log_ok _ (promises w, fulfilments w)). exact Hok.
Qed.

Lemma In_kept_listeners ev l ls : In l (kept_listeners ev ls) -> In l ls.
Proof. unfold kept_listeners. intro H. apply filter_In in H. tauto. Qed.

Lemma later_process_after_play fl h filePath volume w c :
  List.length (processes w) < c ->
  process c (exec (play_of fl h filePath volume) w) = None.
Proof.
  intro Hc. destruct (play_error h filePath volume) as [e|] eqn:Ep.
  - rewrite (exec_play_of_throws _ _ _ _ _ _ Ep). unfold process.
    apply nth_error_None. lia.
  - rewrite (play_of_world _ _ _ _ _ Ep). unfold process. cbn [processes].
    apply nth_error_None. rewrite length_app. simpl. lia.
Qed.

Lemma listeners_after_play_cases fl h filePath volume w c l :
  In l (listeners_of c (exec (play_of fl h filePath volume) w)) ->
  In l (listeners_of c w)
  \/ (c = next_child w
      /\ In l (registered_listeners fl (Hex.encode (next_bytes w)) (next_promise w))).
Proof.
  intro Hin.
  destruct (play_error h filePath volume) as [e|] eqn:Ep;
    [left; rewrite (exec_play_of_throws _ _ _ _ _ _ Ep) in Hin; exact Hin|].
  destruct (Nat.lt_trichotomy c (List.length (processes w))) as [Hc|[Hc|Hc]].
  - left. unfold listeners_of in *. rewrite older_process_after_play in Hin; assumption.
  - right. subst c. split; [reflexivity|].
    fold (next_child w) in Hin. rewrite (listeners_after_play _ _ _ _ _ Ep) in Hin.
    exact Hin.
  - exfalso. unfold listeners_of in Hin.
    rewrite later_process_after_play in Hin by exact Hc. destruct Hin.
Qed.

Lemma registered_listeners_promise fl id p l q :
  In l (registered_listeners fl id p) ->
  resolved_promise (callback l) = Some q ->
  q = p /\ deleted_id (callback l) = id.
Proof.
  destruct fl; simpl; intros [<-|[<-|[]]]; simpl; intro H;
    try discriminate; inversion H; split; reflexivity.
Qed.

Lemma closures_ok_step fl h op w :
  closures_ok w -> closures_ok (exec (step fl h op) w).
Proof.
  unfold closures_ok. intros Hok c l q Hin Hq.
  destruct op as [filePath volume|id|this_|c' ev].
  - rewrite exec_step_play in *.
    destruct (play_error h filePath volume) as [e|] eqn:Ep;
      [rewrite (exec_play_of_throws _ _ _ _ _ _ Ep) in *; exact (Hok _ _ _ Hin Hq)|].
    assert (Hlen : List.length (promises w)
                   <= List.length (promises (exec (play_of fl h filePath volume) w)))
      by (rewrite (play_of_world _ _ _ _ _ Ep); simpl;
          apply length_promises_after_play).
    destruct (listeners_after_play_cases _ _ _ _ _ _ _ Hin) as [Hold|[_ Hnew]].
    + pose proof (Hok _ _ _ Hold Hq). lia.
    + destruct (registered_listeners_promise _ _ _ _ _ Hnew Hq) as [-> _].
      rewrite (play_of_world _ _ _ _ _ Ep). simpl. unfold next_promise.
      destruct fl; simpl in Hnew; destruct Hnew as [<-|[<-|[]]]; simpl in Hq;
        try discriminate.
      * simpl. rewrite length_app. simpl. lia.
      * simpl. rewrite length_app. simpl. lia.
  - destruct (stop_same_observers w id) as [P _ L _].
    rewrite exec_step_stop in *. rewrite P. rewrite L in Hin. exact (Hok _ _ _ Hin Hq).
  - destruct (step_stopAll_same_observers fl h this_ w) as [P _ L _]. rewrite P. rewrite L in Hin. exact (Hok _ _ _ Hin Hq).
  - simpl step in *. rewrite promises_after_emit, settle_all_length. simpl.
    rewrite listeners_after_emit in Hin.
    destruct (Nat.eqb c c') eqn:E.
    + apply In_kept_listeners in Hin. exact (Hok _ _ _ Hin Hq).
    + exact (Hok _ _ _ Hin Hq).
Qed.

Lemma promise_state_after_step_other fl h op w p :
  p < List.length (promises w) ->
  (forall c ev, op <> Emit c ev) ->
  promise_state p (exec (step fl h op) w) = promise_state p w.
Proof.
  intros Hp He. unfold promise_state.
  destruct op as [filePath volume|id|this_|c ev].
  - rewrite exec_step_play.
    destruct (play_error h filePath volume) as [e|] eqn:Ep;
      [rewrite (exec_play_of_throws _ _ _ _ _ _ Ep); reflexivity|].
    rewrite (play_of_world _ _ _ _ _ Ep). simpl.
    apply promises_after_play_prefix. exact Hp.
  - destruct (stop_same_observers w id) as [P _ _ _].
    rewrite exec_step_stop, P. reflexivity.
  - destruct (step_stopAll_same_observers fl h this_ w) as [P _ _ _]. rewrite P. reflexivity.
  - exfalso. exact (He _ _ eq_refl).
Qed.

Lemma fulfilled_is_stable fl h op w p :
  promise_state p w = Some Fulfilled ->
  promise_state p (exec (step fl h op) w) = Some Fulfilled.
Proof.
  intro H.
  assert (Hp : p < List.length (promises w))
    by (apply nth_error_Some; unfold promise_state in H; congruence).
  destruct op as [filePath volume|id|this_|c ev];
    try (rewrite promise_state_after_step_other; [exact H|exact Hp|discriminate]).
  unfold promise_state. simpl step. rewrite promises_after_emit.
  apply settle_all_keeps_fulfilled. exact H.
Qed.

Lemma length_promises_step fl h op w :
  List.length (promises w) <= List.length (promises (exec (step fl h op) w)).
Proof.
  destruct op as [filePath volume|id|this_|c ev].
  - rewrite exec_step_play.
    destruct (play_error h filePath volume) as [e|] eqn:Ep;
      [rewrite (exec_play_of_throws _ _ _ _ _ _ Ep); lia|].
    rewrite (play_of_world _ _ _ _ _ Ep). simpl. apply length_promises_after_play.
  - destruct (stop_same_observers w id) as [P _ _ _].
    rewrite exec_step_stop, P. lia.
  - destruct (step_stopAll_same_observers fl h this_ w) as [P _ _ _]. rewrite P. lia.
  - simpl step. rewrite promises_after_emit, settle_all_length. simpl. lia.
Qed.

Lemma length_processes_step fl h op w :
  List.length (processes w) <= List.length (processes (exec (step fl h op) w)).
Proof.
  destruct op as [filePath volume|id|this_|c ev].
  - rewrite exec_step_play.
    destruct (play_error h filePath volume) as [e|] eqn:Ep;
      [rewrite (exec_play_of_throws _ _ _ _ _ _ Ep); lia|].
    rewrite (play_of_world _ _ _ _ _ Ep). simpl. rewrite length_app. lia.
  - destruct (stop_same_observers w id) as [_ _ _ S].
    rewrite exec_step_stop, S. lia.
  - destruct (step_stopAll_same_observers fl h this_ w) as [_ _ _ S]. rewrite S. lia.
  - simpl step. rewrite length_processes_after_emit. lia.
Qed.

Lemma In_kept_other_event ev' l ls :
  In l ls -> listens ev' l = false -> In l (kept_listeners ev' ls).
Proof.
  intros Hin Hl. unfold kept_listeners. apply filter_In. split; [exact Hin|].
  rewrite Hl. reflexivity.
Qed.

Lemma armed_step fl h op w id p c :
  promises_ok w ->
  armed id p c w -> armed id p c (exec (step fl h op) w).
Proof.
  intros Hok [Hp Hc Hobs Hown].
  constructor.
  - pose proof (length_promises_step fl h op w). lia.
  - pose proof (length_processes_step fl h op w). lia.
  - intro ev. destruct (Hobs ev) as [Hf|Hin];
      [left; apply fulfilled_is_stable; exact Hf|].
    destruct op as [filePath volume|id'|this_|c' ev'].
    + right. rewrite exec_step_play. unfold listeners_of.
      rewrite older_process_after_play by exact Hc. exact Hin.
    + right. destruct (stop_same_observers w id') as [_ _ L _].
      rewrite exec_step_stop, L. exact Hin.
    + right. destruct (step_stopAll_same_observers fl h this_ w) as [_ _ L _]. rewrite L. exact Hin.
    + simpl step. rewrite listeners_after_emit.
      destruct (Nat.eqb c c') eqn:E; [|right; exact Hin].
      apply Nat.eqb_eq in E. subst c'.
      destruct (EventName_eqb ev ev') eqn:Eev.
      * left. unfold promise_state. rewrite promises_after_emit.
        apply settle_all_member.
        -- apply In_promises_resolved_by. exists (cleanup_on ev id p).
           split; [|reflexivity]. apply filter_In. split; [exact Hin|exact Eev].
        -- simpl. destruct (Hok p) as [_ Hr].
           destruct (nth_error (promises w) p) as [[| |]|] eqn:Est; auto.
           ++ congruence.
           ++ apply nth_error_None in Est. lia.
      * right. apply In_kept_other_event; [exact Hin|exact Eev].
  - intros c' l Hin Hq.
    destruct op as [filePath volume|id'|this_|c'' ev'].
    + rewrite exec_step_play in Hin.
      destruct (listeners_after_play_cases _ _ _ _ _ _ _ Hin) as [Hold|[_ Hnew]];
        [exact (Hown _ _ Hold Hq)|].
      destruct (registered_listeners_promise _ _ _ _ _ Hnew Hq) as [E _].
      unfold next_promise in E. lia.
    + destruct (stop_same_observers w id') as [_ _ L _].
      rewrite exec_step_stop, L in Hin. exact (Hown _ _ Hin Hq).
    + destruct (step_stopAll_same_observers fl h this_ w) as [_ _ L _]. rewrite L in Hin. exact (Hown _ _ Hin Hq).
    + simpl step in Hin. rewrite listeners_after_emit in Hin.
      destruct (Nat.eqb c' c'').
      * apply In_kept_listeners in Hin. exact (Hown _ _ Hin Hq).
      * exact (Hown _ _ Hin Hq).
Qed.

(** The invariants hold when the module is loaded and along every run. *)
Lemma initial_promises_ok rnd : promises_ok (initial rnd).
Proof.
  intro q. simpl. destruct q; split; try reflexivity; discriminate.
Qed.

Lemma initial_closures_ok rnd : closures_ok (initial rnd).
Proof.
  intros c l q Hin. unfold listeners_of, process in Hin. simpl in Hin.
  destruct c; destruct Hin.
Qed.

Lemma promises_ok_run fl h ops w :
  promises_ok w -> promises_ok (exec (run fl h ops) w).
Proof.
  revert w. induction ops as [|op ops IH]; intros w H; [exact H|].
  rewrite run_cons. apply IH. apply promises_ok_step. exact H.
Qed.

Lemma closures_ok_run fl h ops w :
  closures_ok w -> closures_ok (exec (run fl h ops) w).
Proof.
  revert w. induction ops as [|op ops IH]; intros w H; [exact H|].
  rewrite run_cons. apply IH. apply closures_ok_step. exact H.
Qed.

Lemma armed_run fl h ops w id p c :
  promises_ok w -> armed id p c w -> armed id p c (exec (run fl h ops) w).
Proof.
  revert w. induction ops as [|op ops IH]; intros w Hok H; [exact H|].
  rewrite run_cons. apply IH; [apply promises_ok_step; exact Hok|].
  apply armed_step; assumption.
Qed.

(** The enhanced [play] arms the playback it starts. *)
Lemma enhanced_play_arms h filePath volume w :
  play_error h filePath volume = None ->
  closures_ok w ->
  armed (Hex.encode (next_bytes w)) (next_promise w) (next_child w)
    (exec (play_of EnhancedJs h filePath volume) w).
Proof.
  intros Ep Hok. constructor.
  - rewrite (play_of_world _ _ _ _ _ Ep). simpl. rewrite length_app. simpl.
    unfold next_promise. lia.
  - rewrite (play_of_world _ _ _ _ _ Ep). simpl. rewrite length_app. simpl.
    unfold next_child. lia.
  - intro ev. right. rewrite (listeners_after_play _ _ _ _ _ Ep).
    destruct ev; simpl; auto.
  - intros c' l Hin Hq.
    destruct (listeners_after_play_cases _ _ _ _ _ _ _ Hin) as [Hold|[_ Hnew]].
    + pose proof (Hok _ _ _ Hold Hq) as Hlt. unfold next_promise in Hlt. lia.
    + exact (proj2 (registered_listeners_promise _ _ _ _ _ Hnew Hq)).
Qed.

Lemma enhanced_play_pending h filePath volume w :
  play_error h filePath volume = None ->
  promise_state (next_promise w) (exec (play_of EnhancedJs h filePath volume) w)
  = Some Pending.
Proof.
  intro Ep. rewrite (play_of_world _ _ _ _ _ Ep).
  unfold promise_state, next_promise. simpl.
  rewrite nth_error_app2, Nat.sub_diag by lia. reflexivity.
Qed.

Lemma exec_enhanced_play h filePath volume w :
  exec (Enhanced.play h filePath volume) w
  = exec (play_of EnhancedJs h filePath volume) w.
Proof.
  unfold exec, play_of, bind_normal.
  destruct (Enhanced.play h filePath volume w) as [[r|e] w']; reflexivity.
Qed.

Lemma eval_enhanced_play h filePath volume w :
  play_error h filePath volume = None ->
  eval (Enhanced.play h filePath volume) w
  = Normal {| Enhanced.id := Hex.encode (next_bytes w);
              Enhanced.finished := next_promise w |}.
Proof. intro Ep. unfold eval. rewrite (Enhanced_play_world _ _ _ _ Ep). reflexivity. Qed.

(** The result of an enhanced [play] that returns. *)
Lemma enhanced_play_returns h filePath volume w r :
  eval (Enhanced.play h filePath volume) w = Normal r ->
  play_error h filePath volume = None
  /\ r = {| Enhanced.id := Hex.encode (next_bytes w);
            Enhanced.finished := next_promise w |}.
Proof.
  intro H. destruct (play_error h filePath volume) as [e|] eqn:Ep.
  - unfold eval in H. rewrite (Enhanced_play_throws _ _ _ _ _ Ep) in H. discriminate.
  - rewrite (eval_enhanced_play _ _ _ _ Ep) in H. split; congruence.
Qed.

(** An armed promise is fulfilled by either event on its child. *)
Lemma armed_event_fulfils id p c w ev :
  promises_ok w -> armed id p c w ->
  promise_state p (exec (emit c ev) w) = Some Fulfilled.
Proof.
  intros Hok Harmed.
  pose proof (armed_step TypeScript darwin_host (Emit c ev) w id p c Hok Harmed)
    as [_ _ Hobs _].
  destruct (Hobs ev) as [Hf|Hin]; [exact Hf|].
  exfalso. simpl step in Hin. rewrite listeners_after_emit, Nat.eqb_refl in Hin.
  unfold kept_listeners in Hin. apply filter_In in Hin. destruct Hin as [_ Hin].
  unfold listens in Hin. simpl in Hin. destruct ev; discriminate.
Qed.

(** When a step fulfils an armed promise, the id of its playback is not
    registered after the step. *)
Lemma fulfilling_step_unregisters fl h op id p c w :
  armed id p c w ->
  promise_state p w = Some Pending ->
  promise_state p (exec (step fl h op) w) = Some Fulfilled ->
  JsMap.get id (activeChildren (exec (step fl h op) w)) = None.
Proof.
  intros [Hp Hc Hobs Hown] Hpend Hful.
  destruct op as [filePath volume|id'|this_|c' ev];
    try (rewrite promise_state_after_step_other in Hful;
         [congruence|exact Hp|discriminate]).
  simpl step in *. rewrite emit_registry. apply get_deletes_member.
  unfold promise_state in *. rewrite promises_after_emit in Hful.
  destruct (in_dec Nat.eq_dec p
              (promises_resolved_by (filter (listens ev) (listeners_of c' w))))
    as [Hin|Hout].
  - apply In_promises_resolved_by in Hin. destruct Hin as (l & Hl & Hq).
    apply in_map_iff. exists l. split; [|exact Hl].
    apply (Hown c' l); [|exact Hq]. apply filter_In in Hl. tauto.
  - rewrite settle_all_not_member in Hful by exact Hout. simpl in Hful. congruence.
Qed.

(** C9. In the enhanced module, take any run of the module, a [play]
    after it, and any run after that [play]. The [finished] promise of
    the [play] starts pending, is never rejected, and is fulfilled at
    most once. Whenever the child emits [exit] (the process has ended, by
    itself or after a [stop]) or [error] (the process could not be
    started), the promise is fulfilled. And whenever a step fulfils the
    promise, the id of the playback is not registered after that step. *)
Theorem finished_resolves_once (h : Host) (rnd : nat -> byte) (earlier : list Op)
    (filePath : string) (volume : option Number.number)
    (r : Enhanced.PlayResult) :
  let w0 := exec (run EnhancedJs h earlier) (initial rnd) in
  eval (Enhanced.play h filePath volume) w0 = Normal r ->
  let w1 := exec (Enhanced.play h filePath volume) w0 in
  let child := next_child w0 in
  promise_state (Enhanced.finished r) w1 = Some Pending
  /\ forall later : list Op,
       let w := exec (run EnhancedJs h later) w1 in
       promise_state (Enhanced.finished r) w <> Some Rejected
       /\ fulfilled_times (Enhanced.finished r) w <= 1
       /\ (promise_state (Enhanced.finished r) w = Some Fulfilled ->
           fulfilled_times (Enhanced.finished r) w = 1)
       /\ (forall ev,
             promise_state (Enhanced.finished r) (exec (emit child ev) w)
             = Some Fulfilled)
       /\ (forall op,
             promise_state (Enhanced.finished r) w = Some Pending ->
             promise_state (Enhanced.finished r) (exec (step EnhancedJs h op) w)
             = Some Fulfilled ->
             JsMap.get (Enhanced.id r)
               (activeChildren (exec (step EnhancedJs h op) w)) = None).
Proof.
  intros w0 Hr w1 child. subst w1 child.
  destruct (enhanced_play_returns _ _ _ _ _ Hr) as [Ep ->].
  rewrite exec_enhanced_play. cbn [Enhanced.finished Enhanced.id].
  assert (Hok0 : promises_ok w0)
    by (apply promises_ok_run, initial_promises_ok).
  assert (Hcl0 : closures_ok w0)
    by (apply closures_ok_run, initial_closures_ok).
  assert (Hok1 : promises_ok (exec (play_of EnhancedJs h filePath volume) w0))
    by (rewrite <- exec_step_play; apply promises_ok_step; exact Hok0).
  pose proof (enhanced_play_arms h filePath volume w0 Ep Hcl0) as Harm1.
  split; [apply enhanced_play_pending; exact Ep|].
  intro later. cbv zeta.
  set (w := exec (run EnhancedJs h later)
              (exec (play_of EnhancedJs h filePath volume) w0)).
  assert (Hok : promises_ok w) by (apply promises_ok_run; exact Hok1).
  assert (Harm : armed (Hex.encode (next_bytes w0)) (next_promise w0)
                   (next_child w0) w)
    by (apply armed_run; assumption).
  destruct (Hok (next_promise w0)) as [Hcount Hrej].
  unfold fulfilled_times, promise_state.
  split; [exact Hrej|]. split; [|split; [|split]].
  - rewrite Hcount.
    destruct (nth_error (promises w) (next_promise w0)) as [[| |]|]; lia.
  - intro Hf. rewrite Hcount, Hf. reflexivity.
  - intro ev. apply (armed_event_fulfils _ _ _ _ ev Hok Harm).
  - intros op Hpend Hful.
    exact (fulfilling_step_unregisters _ _ _ _ _ _ _ Harm Hpend Hful).
Qed.

(** A playback that is stopped and whose process then exits, with a late
    [error] event besides: the promise is fulfilled, once, and the id is
    gone. *)
Lemma finished_resolves_once_witness :
  let w1 := exec (Enhanced.play darwin_host "ding.wav" None) (initial counting_bytes) in
  let w := exec (run EnhancedJs darwin_host
                   [Stop "00254a6f"; Emit 0 ExitEvent; Emit 0 ErrorEvent]) w1 in
  eval (Enhanced.play darwin_host "ding.wav" None) (initial counting_bytes)
  = Normal {| Enhanced.id := "00254a6f"; Enhanced.finished := 0 |}
  /\ promise_state 0 w1 = Some Pending
  /\ promise_state 0 w = Some Fulfilled
  /\ fulfilled_times 0 w = 1
  /\ JsMap.get "00254a6f" (activeChildren w) = None.
Proof.
  intros w1 w.
  destruct (finished_resolves_once darwin_host counting_bytes [] "ding.wav" None
              {| Enhanced.id := "00254a6f"; Enhanced.finished := 0 |} eq_refl)
    as [Hpend Hlater].
  destruct (Hlater [Stop "00254a6f"; Emit 0 ExitEvent; Emit 0 ErrorEvent])
    as (_ & _ & Hone & _).
  split; [reflexivity|].
  split; [exact Hpend|]. split; [reflexivity|].
  split; [apply Hone; reflexivity|reflexivity].
Defined.

(* ------------------------------------------------------------------ *)
(** ** The registry of a reachable world is well formed *)
(* ------------------------------------------------------------------ *)

Lemma registry_ok_initial rnd : registry_ok (initial rnd).
Proof. constructor; simpl; [constructor|constructor|intros c []]. Qed.

Lemma registry_ok_deletes ks w w' :
  registry_ok w ->
  activeChildren w' = deletes ks (activeChildren w) ->
  List.length (processes w) <= List.length (processes w') ->
  registry_ok w'.
Proof.
  intros [Hk Hv Hl] Hreg Hlen.
  assert (Hgen : forall m : JsMap.t ChildRef,
             NoDup (JsMap.keys m) -> NoDup (JsMap.values m) ->
             (forall c, In c (JsMap.values m) -> c < List.length (processes w)) ->
             NoDup (JsMap.keys (deletes ks m)) /\ NoDup (JsMap.values (deletes ks m))
             /\ (forall c, In c (JsMap.values (deletes ks m)) ->
                           c < List.length (processes w))).
  { clear Hreg. induction ks as [|k ks IH]; intros m H1 H2 H3; [tauto|].
    simpl. apply IH.
    - apply NoDup_keys_delete. exact H1.
    - apply NoDup_values_delete. exact H2.
    - intros c Hc. apply H3. exact (In_values_delete _ _ _ Hc). }
  destruct (Hgen _ Hk Hv Hl) as (G1 & G2 & G3).
  constructor; rewrite Hreg; try assumption.
  intros c Hc. pose proof (G3 c Hc). lia.
Qed.

Lemma registry_ok_step fl h op w :
  registry_ok w -> registry_ok (exec (step fl h op) w).
Proof.
  intro Hok. destruct op as [filePath volume|id|this_|c ev].
  - rewrite exec_step_play.
    destruct (play_error h filePath volume) as [e|] eqn:Ep;
      [rewrite (exec_play_of_throws _ _ _ _ _ _ Ep); exact Hok|].
    destruct Hok as [Hk Hv Hl].
    rewrite (play_of_world _ _ _ _ _ Ep). constructor; simpl.
    + apply NoDup_keys_set. exact Hk.
    + apply NoDup_values_set; [exact Hv|].
      intro Hin. apply Hl in Hin. unfold next_child in Hin. lia.
    + intros c Hc. rewrite length_app. simpl.
      apply In_values_set in Hc. destruct Hc as [->|Hc].
      * unfold next_child. lia.
      * apply Hl in Hc. lia.
  - apply (registry_ok_deletes [id] w); [exact Hok| |apply length_processes_step].
    rewrite exec_step_stop. apply stop_registry.
  - rewrite exec_step_stopAll.
    destruct (stopAll_throws fl this_ w); [exact Hok|].
    apply (registry_ok_deletes (JsMap.keys (activeChildren w)) w);
      [exact Hok| |destruct (stopAll_same_observers w) as [_ _ _ S]; rewrite S; lia].
    rewrite stopAll_registry, deletes_all_keys. reflexivity.
  - eapply registry_ok_deletes;
      [exact Hok|apply emit_registry|apply (length_processes_step fl h (Emit c ev))].
Qed.

(** Every world that a module can reach has a well-formed registry. *)
Lemma reachable_registry_ok fl h w : reachable fl h w -> registry_ok w.
Proof.
  intros (rnd & ops & ->).
  assert (H : forall w0, registry_ok w0 -> registry_ok (exec (run fl h ops) w0)).
  { induction ops as [|op ops IH]; intros w0 H0; [exact H0|].
    rewrite run_cons. apply IH. apply registry_ok_step. exact H0. }
  apply H. apply registry_ok_initial.
Qed.

(* ------------------------------------------------------------------ *)
(** ** Further properties of the id generator *)
(* ------------------------------------------------------------------ *)

Lemma makeId_value w : eval makeId w = Hex.encode (next_bytes w).
Proof. reflexivity. Qed.

(** X1. Two calls of [makeId] return the same id exactly when the random
    source handed them the same four bytes, and each call uses up four
    bytes of the source: the call after it reads the next four. *)
Theorem makeId_collides_only_on_equal_bytes (w1 w2 : World) :
  (eval makeId w1 = eval makeId w2 <-> next_bytes w1 = next_bytes w2)
  /\ eval makeId (exec makeId w1)
     = Hex.encode (map (entropy w1) (seq (drawn w1 + 4) 4))
  /\ drawn (exec makeId w1) = drawn w1 + 4
  /\ activeChildren (exec makeId w1) = activeChildren w1.
Proof.
  rewrite !makeId_value. split; [|repeat split].
  split; [apply encode_injective|intro E; rewrite E; reflexivity].
Qed.

(* ------------------------------------------------------------------ *)
(** ** A playback that has ended *)
(* ------------------------------------------------------------------ *)

Lemma signals_after_emit c ev c' w :
  signals_of c' (exec (emit c ev) w) = signals_of c' w.
Proof.
  unfold signals_of, process. rewrite emit_processes.
  destruct (Nat.eq_dec c' c) as [->|Hne].
  - rewrite nth_error_update_nth_same.
    destruct (nth_error (processes w) c); reflexivity.
  - rewrite nth_error_update_nth_other by exact Hne. reflexivity.
Qed.

Lemma signals_after_play fl h filePath volume w c :
  signals_of c (exec (play_of fl h filePath volume) w) = signals_of c w.
Proof.
  destruct (play_error h filePath volume) as [e|] eqn:Ep;
    [rewrite (exec_play_of_throws _ _ _ _ _ _ Ep); reflexivity|].
  unfold signals_of.
  destruct (Nat.lt_trichotomy c (List.length (processes w))) as [Hc|[Hc|Hc]].
  - rewrite older_process_after_play by exact Hc. reflexivity.
  - subst c. fold (next_child w). rewrite (process_after_play _ _ _ _ _ Ep).
    unfold process, next_child.
    assert (E : nth_error (processes w) (List.length (processes w)) = None)
      by (apply nth_error_None; lia).
    rewrite E. reflexivity.
  - rewrite later_process_after_play by exact Hc.
    unfold process.
    assert (E : nth_error (processes w) c = None) by (apply nth_error_None; lia).
    rewrite E. reflexivity.
Qed.

Lemma registered_listeners_id fl id p l :
  In l (registered_listeners fl id p) -> deleted_id (callback l) = id.
Proof. destruct fl; simpl; intros [<-|[<-|[]]]; reflexivity. Qed.

(** X2. When the child of a [play] emits [exit] or [error], whichever
    module is loaded, the id of the playback is removed from the registry
    and every other id keeps its handle; a [stop] on the id then returns
    [false] and changes nothing, so the process that has ended is sent no
    signal. *)
Theorem ended_playback_cannot_be_stopped (fl : Flavour) (h : Host)
    (filePath : string) (volume : option Number.number) (w : World)
    (ev : EventName) (id : PlaybackId) :
  eval (play_of fl h filePath volume) w = Normal id ->
  let w1 := exec (play_of fl h filePath volume) w in
  let w2 := exec (emit (next_child w) ev) w1 in
  JsMap.get id (activeChildren w2) = None
  /\ (forall k, k <> id ->
        JsMap.get k (activeChildren w2) = JsMap.get k (activeChildren w1))
  /\ stop id w2 = (false, w2)
  /\ signals_of (next_child w) (exec (stop id) w2) = [].
Proof.
  intros Hid w1 w2. subst w1 w2.
  destruct (play_of_returns _ _ _ _ _ _ Hid) as [Ep ->].
  assert (Hgone : JsMap.get (Hex.encode (next_bytes w))
                    (activeChildren
                       (exec (emit (next_child w) ev)
                          (exec (play_of fl h filePath volume) w))) = None)
    by (apply event_unregisters; exact Ep).
  split; [exact Hgone|]. split; [|split].
  - intros k Hk. rewrite emit_registry, (listeners_after_play _ _ _ _ _ Ep).
    apply get_deletes_other. intro Hin.
    apply in_map_iff in Hin. destruct Hin as (l & Hl & Hin).
    apply filter_In in Hin. destruct Hin as [Hin _].
    apply registered_listeners_id in Hin. congruence.
  - apply stop_absent. exact Hgone.
  - unfold exec at 1. rewrite (stop_absent _ _ Hgone). simpl.
    rewrite signals_after_emit, signals_after_play.
    unfold signals_of, process, next_child.
    assert (E : nth_error (processes w) (List.length (processes w)) = None)
      by (apply nth_error_None; lia).
    rewrite E. reflexivity.
Qed.

(** A playback whose process has exited: [stop] on its id returns
    [false] and the process is sent no signal. *)
Lemma ended_playback_cannot_be_stopped_witness :
  let w1 := exec (CommonJS.play darwin_host "ding.wav" None) (initial counting_bytes) in
  let w2 := exec (emit 0 ExitEvent) w1 in
  JsMap.get "00254a6f" (activeChildren w1) = Some 0
  /\ stop "00254a6f" w2 = (false, w2)
  /\ signals_of 0 (exec (stop "00254a6f") w2) = [].
Proof.
  intros w1 w2.
  destruct (ended_playback_cannot_be_stopped CommonJs darwin_host "ding.wav" None
              (initial counting_bytes) ExitEvent "00254a6f" eq_refl)
    as (_ & _ & Hstop & Hsig).
  split; [reflexivity|]. split; [exact Hstop|exact Hsig].
Defined.

(* ------------------------------------------------------------------ *)
(** ** [stopAll] twice, and on an empty registry *)
(* ------------------------------------------------------------------ *)

Lemma stopAll_empty w : activeChildren w = [] -> stopAll w = (tt, w).
Proof. intro H. rewrite stopAll_unfold, H. reflexivity. Qed.

(** X3. On an empty registry [stopAll] does nothing at all. So after a
    [stopAll] a second [stopAll] changes nothing, and [stop] returns
    [false] for every id and changes nothing either. In the CommonJS
    module that holds for a [stopAll] called on the exported object,
    which does what the [stopAll] of the other modules does; and on an
    empty registry the CommonJS [stopAll] returns without a change also
    on a receiver without a [stop], since its loop makes no turn. *)
Theorem stopAll_is_idempotent (w : World) :
  (activeChildren w = [] -> stopAll w = (tt, w))
  /\ stopAll (exec stopAll w) = (tt, exec stopAll w)
  /\ (forall id, stop id (exec stopAll w) = (false, exec stopAll w))
  /\ CommonJS.stopAll CommonJS.ExportsObject w = (Normal tt, exec stopAll w)
  /\ (activeChildren w = [] ->
      forall this_, CommonJS.stopAll this_ w = (Normal tt, w))
  /\ (forall this_,
        CommonJS.stopAll this_ (exec stopAll w) = (Normal tt, exec stopAll w)).
Proof.
  assert (Hempty : forall w0, activeChildren w0 = [] ->
                     forall this_, CommonJS.stopAll this_ w0 = (Normal tt, w0)).
  { intros w0 H0 this_. destruct this_.
    - rewrite CommonJS_stopAll_bound. unfold exec.
      rewrite (stopAll_empty _ H0). reflexivity.
    - rewrite CommonJS_stopAll_unbound, H0. reflexivity. }
  split; [apply stopAll_empty|]. split; [|split; [|split; [|split]]].
  - apply stopAll_empty, stopAll_registry.
  - intro id. apply stop_absent. rewrite stopAll_registry. reflexivity.
  - apply CommonJS_stopAll_bound.
  - apply Hempty.
  - apply Hempty, stopAll_registry.
Qed.

(** Two playbacks stopped by [stopAll]: nothing is left to stop. *)
Lemma stopAll_is_idempotent_witness :
  let w := exec (run CommonJs darwin_host
                   [Play "ding.wav" None; Play "dong.wav" None;
                    StopAll CommonJS.ExportsObject])
             (initial counting_bytes) in
  stopAll w = (tt, w)
  /\ CommonJS.stopAll CommonJS.NoStopMethod w = (Normal tt, w)
  /\ stop "00254a6f" w = (false, w).
Proof.
  intro w. destruct (stopAll_is_idempotent w) as (Hempty & _ & _ & _ & Hcjs & _).
  split; [apply Hempty; reflexivity|].
  split; [apply Hcjs; reflexivity|reflexivity].
Defined.

(* ------------------------------------------------------------------ *)
(** ** What [play] leaves alone *)
(* ------------------------------------------------------------------ *)

(** X4. A [play] changes the registry at the id it returns only: every
    other id keeps its handle, a new id is appended behind the keys that
    were there, the processes spawned before are as they were (no signal,
    no listener added), and the promises made before keep their state. *)
Theorem play_frame (fl : Flavour) (h : Host) (filePath : string)
    (volume : option Number.number) (w : World) (id : PlaybackId) :
  eval (play_of fl h filePath volume) w = Normal id ->
  let w' := exec (play_of fl h filePath volume) w in
  (forall k, k <> id ->
     JsMap.get k (activeChildren w') = JsMap.get k (activeChildren w))
  /\ JsMap.keys (activeChildren w')
     = (if JsMap.has id (activeChildren w)
        then JsMap.keys (activeChildren w)
        else (JsMap.keys (activeChildren w) ++ [id])%list)
  /\ (forall c, c < List.length (processes w) -> process c w' = process c w)
  /\ (forall p, p < List.length (promises w) ->
        promise_state p w' = promise_state p w)
  /\ fulfilments w' = fulfilments w.
Proof.
  intros Hid w'. subst w'.
  destruct (play_of_returns _ _ _ _ _ _ Hid) as [Ep ->].
  rewrite (play_of_registry _ _ _ _ _ Ep).
  split; [|split; [|split; [|split]]].
  - intros k Hk. apply get_set_other. exact Hk.
  - apply keys_set.
  - intros c Hc. apply older_process_after_play. exact Hc.
  - intros p Hp. unfold promise_state. rewrite (play_of_world _ _ _ _ _ Ep). simpl.
    apply promises_after_play_prefix. exact Hp.
  - rewrite (play_of_world _ _ _ _ _ Ep). reflexivity.
Qed.

(** A second playback leaves the first registered with its process. *)
Lemma play_frame_witness :
  let w := exec (AudioPlayer.play darwin_host "ding.wav" None)
             (initial counting_bytes) in
  let w' := exec (play_of TypeScript darwin_host "dong.wav" None) w in
  JsMap.get "00254a6f" (activeChildren w') = Some 0
  /\ JsMap.keys (activeChildren w') = ["00254a6f"; "94b9de03"]
  /\ process 0 w' = process 0 w.
Proof.
  intros w w'.
  destruct (play_frame TypeScript darwin_host "dong.wav" None w "94b9de03" eq_refl)
    as (Hk & Hkeys & Hp & _).
  split; [rewrite Hk; [reflexivity|vm_compute; discriminate]|].
  split; [exact Hkeys|apply Hp; vm_compute; lia].
Defined.

(* ------------------------------------------------------------------ *)
(** ** What an event leaves alone *)
(* ------------------------------------------------------------------ *)

Lemma deletes_only_step fl h op w id c :
  c < List.length (processes w) ->
  deletes_only id c w -> deletes_only id c (exec (step fl h op) w).
Proof.
  intros Hc Hinv l Hin.
  destruct op as [filePath volume|id'|this_|c' ev].
  - rewrite exec_step_play in Hin. unfold listeners_of in Hin.
    rewrite older_process_after_play in Hin by exact Hc. exact (Hinv l Hin).
  - destruct (stop_same_observers w id') as [_ _ L _].
    rewrite exec_step_stop, L in Hin. exact (Hinv l Hin).
  - destruct (step_stopAll_same_observers fl h this_ w) as [_ _ L _]. rewrite L in Hin. exact (Hinv l Hin).
  - simpl step in Hin. rewrite listeners_after_emit in Hin.
    destruct (Nat.eqb c c') eqn:E; [|exact (Hinv l Hin)].
    apply Nat.eqb_eq in E. subst c'. apply In_kept_listeners in Hin.
    exact (Hinv l Hin).
Qed.

Lemma deletes_only_run fl h ops w id c :
  c < List.length (processes w) ->
  deletes_only id c w -> deletes_only id c (exec (run fl h ops) w).
Proof.
  revert w. induction ops as [|op ops IH]; intros w Hc H; [exact H|].
  rewrite run_cons. apply IH.
  - pose proof (length_processes_step fl h op w). lia.
  - apply deletes_only_step; assumption.
Qed.

(** X5. The observers that [play] registers on a child delete the id of
    that playback and no other. So at any later time, whatever was
    played, stopped or emitted in between, an [exit] or [error] event of
    that child leaves every other id in the registry with its handle, and
    sends no signal to any process. *)
Theorem event_frame (fl : Flavour) (h : Host) (filePath : string)
    (volume : option Number.number) (w0 : World) (later : list Op)
    (ev : EventName) (id : PlaybackId) :
  eval (play_of fl h filePath volume) w0 = Normal id ->
  let w := exec (run fl h later) (exec (play_of fl h filePath volume) w0) in
  let w' := exec (emit (next_child w0) ev) w in
  (forall k, k <> id ->
     JsMap.get k (activeChildren w') = JsMap.get k (activeChildren w))
  /\ (forall c, signals_of c w' = signals_of c w).
Proof.
  intros Hid w w'. subst w w'.
  destruct (play_of_returns _ _ _ _ _ _ Hid) as [Ep ->]. split.
  - intros k Hk. rewrite emit_registry. apply get_deletes_other.
    intro Hin. apply in_map_iff in Hin. destruct Hin as (l & Hl & Hin).
    apply filter_In in Hin. destruct Hin as [Hin _].
    assert (Honly : deletes_only (Hex.encode (next_bytes w0)) (next_child w0)
                      (exec (run fl h later)
                         (exec (play_of fl h filePath volume) w0))).
    { apply deletes_only_run.
      - rewrite (play_of_world _ _ _ _ _ Ep). simpl. rewrite length_app. simpl.
        unfold next_child. lia.
      - intros l' Hl'. rewrite (listeners_after_play _ _ _ _ _ Ep) in Hl'.
        exact (registered_listeners_id _ _ _ _ Hl'). }
    rewrite (Honly l Hin) in Hl. congruence.
  - intro c. apply signals_after_emit.
Qed.

(** The first of two playbacks ends after the second was stopped: the
    event touches neither the registry entry of the second nor any
    signal. *)
Lemma event_frame_witness :
  let w0 := exec (AudioPlayer.play darwin_host "dong.wav" None)
              (initial counting_bytes) in
  let w := exec (run TypeScript darwin_host [Play "bell.wav" None])
             (exec (play_of TypeScript darwin_host "ding.wav" None) w0) in
  JsMap.get "00254a6f" (activeChildren (exec (emit 1 ExitEvent) w)) = Some 0
  /\ JsMap.get "94b9de03" (activeChildren (exec (emit 1 ExitEvent) w)) = None.
Proof.
  intros w0 w.
  destruct (event_frame TypeScript darwin_host "ding.wav" None w0
              [Play "bell.wav" None] ExitEvent "94b9de03" eq_refl) as [Hk _].
  split; [|reflexivity].
  etransitivity; [apply Hk; vm_compute; discriminate|reflexivity].
Defined.

(* ------------------------------------------------------------------ *)
(** ** Invariants of the registry along a run *)
(* ------------------------------------------------------------------ *)

Lemma In_keys_deletes ks k (m : JsMap.t ChildRef) :
  In k (JsMap.keys (deletes ks m)) -> In k (JsMap.keys m).
Proof.
  intro H. apply has_true_iff in H. apply has_true_iff.
  unfold JsMap.has in *.
  destruct (JsMap.get k m) eqn:E; [reflexivity|].
  rewrite (get_deletes_absent ks k m E) in H. discriminate.
Qed.

Lemma generated_ids_step fl h op w :
  Forall generated_id (JsMap.keys (activeChildren w)) ->
  Forall generated_id (JsMap.keys (activeChildren (exec (step fl h op) w))).
Proof.
  intro H. rewrite Forall_forall in *.
  assert (Hdel : forall ks w',
             activeChildren w' = deletes ks (activeChildren w) ->
             forall k, In k (JsMap.keys (activeChildren w')) -> generated_id k).
  { intros ks w' E k Hk. rewrite E in Hk. apply H.
    exact (In_keys_deletes _ _ _ Hk). }
  destruct op as [filePath volume|id|this_|c ev].
  - rewrite exec_step_play.
    destruct (play_error h filePath volume) as [e|] eqn:Ep;
      [rewrite (exec_play_of_throws _ _ _ _ _ _ Ep); exact H|].
    rewrite (play_of_registry _ _ _ _ _ Ep), keys_set. intros k Hk.
    destruct (JsMap.has _ _); [exact (H k Hk)|].
    apply in_app_or in Hk. destruct Hk as [Hk|[<-|[]]]; [exact (H k Hk)|].
    split; [rewrite length_encode, length_next_bytes; reflexivity|apply all_hex_encode].
  - apply (Hdel [id]). rewrite exec_step_stop. apply stop_registry.
  - rewrite exec_step_stopAll.
    destruct (stopAll_throws fl this_ w); [exact H|].
    rewrite stopAll_registry. intros k [].
  - eapply Hdel. apply emit_registry.
Qed.

Lemma length_values_bound (l : list nat) (n : nat) :
  NoDup l -> (forall c, In c l -> c < n) -> List.length l <= n.
Proof.
  intros Hnd Hlt.
  rewrite <- (length_seq n 0). apply NoDup_incl_length; [exact Hnd|].
  intros c Hc. apply in_seq. specialize (Hlt c Hc). lia.
Qed.

(** X6. Along every run of a module, from the moment it is loaded, the
    registry stays well formed: every registered handle is a process
    that was spawned, no two ids share a process, every key is an id of
    eight lowercase hexadecimal characters, and there are never more
    registered ids than processes spawned. *)
Theorem registry_invariant (fl : Flavour) (h : Host) (rnd : nat -> byte)
    (ops : list Op) :
  let w := exec (run fl h ops) (initial rnd) in
  registry_ok w
  /\ Forall generated_id (JsMap.keys (activeChildren w))
  /\ List.length (JsMap.keys (activeChildren w)) <= List.length (processes w).
Proof.
  intro w. subst w.
  assert (H : forall w0,
             registry_ok w0 /\ Forall generated_id (JsMap.keys (activeChildren w0)) ->
             registry_ok (exec (run fl h ops) w0)
             /\ Forall generated_id
                  (JsMap.keys (activeChildren (exec (run fl h ops) w0)))).
  { induction ops as [|op ops IH]; intros w0 H0; [exact H0|].
    rewrite run_cons. apply IH. destruct H0 as [Hok Hgen].
    split; [apply registry_ok_step; exact Hok|apply generated_ids_step; exact Hgen]. }
  destruct (H (initial rnd)) as [Hok Hgen];
    [split; [apply registry_ok_initial|constructor]|].
  split; [exact Hok|]. split; [exact Hgen|].
  destruct Hok as [_ Hv Hl].
  unfold JsMap.keys. rewrite length_map.
  rewrite <- (length_map snd). apply length_values_bound; assumption.
Qed.

(* ------------------------------------------------------------------ *)
(** ** Signals along a run *)
(* ------------------------------------------------------------------ *)

Lemma value_not_in_delete id c0 (m : JsMap.t ChildRef) :
  NoDup (JsMap.values m) -> JsMap.get id m = Some c0 ->
  ~ In c0 (JsMap.values (JsMap.delete id m)).
Proof.
  induction m as [|[k v] m IH]; simpl; [discriminate|].
  intros Hnd Hget. inversion Hnd as [|x l Hv Hm]; subst.
  destruct (String.eqb k id) eqn:E.
  - inversion Hget. subst v. intro Hin. apply Hv.
    exact (In_values_delete _ _ _ Hin).
  - simpl. intros [Heq|Hin].
    + subst v. apply Hv. exact (get_Some_value _ _ _ Hget).
    + exact (IH Hm Hget Hin).
Qed.

Lemma In_values_deletes ks c (m : JsMap.t ChildRef) :
  In c (JsMap.values (deletes ks m)) -> In c (JsMap.values m).
Proof.
  revert m. induction ks as [|k ks IH]; intros m H; [exact H|].
  simpl in H. apply IH in H. exact (In_values_delete _ _ _ H).
Qed.

Lemma signals_after_stop w id c :
  signals_of c (exec (stop id) w)
  = if match JsMap.get id (activeChildren w) with
       | Some c0 => Nat.eqb c c0
       | None => false
       end
    then match process c w with
         | Some p => (signals p ++ [SIGTERM])%list
         | None => []
         end
    else signals_of c w.
Proof.
  unfold exec. destruct (JsMap.get id (activeChildren w)) as [c0|] eqn:E.
  - rewrite (stop_present _ _ _ E). unfold signals_of, process. simpl.
    destruct (Nat.eqb c c0) eqn:Ec.
    + apply Nat.eqb_eq in Ec. subst c0. rewrite nth_error_update_nth_same.
      destruct (nth_error (processes w) c); reflexivity.
    + apply Nat.eqb_neq in Ec. rewrite nth_error_update_nth_other by exact Ec.
      reflexivity.
  - rewrite (stop_absent _ _ E). reflexivity.
Qed.

Lemma signals_ok_stop w id :
  registry_ok w -> signals_ok w -> signals_ok (exec (stop id) w).
Proof.
  intros [_ Hv _] [Hreg Honce]. constructor.
  - intros c Hc. rewrite stop_registry in Hc. rewrite signals_after_stop.
    destruct (JsMap.get id (activeChildren w)) as [c0|] eqn:E.
    + destruct (Nat.eqb c c0) eqn:Ec.
      * apply Nat.eqb_eq in Ec. subst c0. exfalso.
        exact (value_not_in_delete _ _ _ Hv E Hc).
      * apply Hreg. exact (In_values_delete _ _ _ Hc).
    + apply Hreg. exact (In_values_delete _ _ _ Hc).
  - intro c. rewrite signals_after_stop.
    destruct (JsMap.get id (activeChildren w)) as [c0|] eqn:E; [|apply Honce].
    destruct (Nat.eqb c c0) eqn:Ec; [|apply Honce].
    apply Nat.eqb_eq in Ec. subst c0.
    pose proof (Hreg c (get_Some_value _ _ _ E)) as Hnone.
    unfold signals_of in Hnone.
    destruct (process c w) as [p|]; [rewrite Hnone|]; simpl; lia.
Qed.

Lemma stop_loop_signals_ok ids w :
  registry_ok w -> signals_ok w ->
  registry_ok (exec (for_of ids (fun id => stop id ;; ret tt)) w)
  /\ signals_ok (exec (for_of ids (fun id => stop id ;; ret tt)) w).
Proof.
  revert w. induction ids as [|id ids IH]; intros w Hok Hsig; [split; assumption|].
  rewrite exec_for_of_cons, exec_bind.
  change (exec (ret tt) (exec (stop id) w)) with (exec (stop id) w).
  apply IH.
  - rewrite <- (exec_step_stop TypeScript darwin_host). apply registry_ok_step. exact Hok.
  - apply signals_ok_stop; assumption.
Qed.

Lemma signals_ok_step fl h op w :
  registry_ok w -> signals_ok w -> signals_ok (exec (step fl h op) w).
Proof.
  intros Hok Hsig. destruct op as [filePath volume|id|this_|c ev].
  - rewrite exec_step_play.
    destruct (play_error h filePath volume) as [e|] eqn:Ep;
      [rewrite (exec_play_of_throws _ _ _ _ _ _ Ep); exact Hsig|].
    destruct Hok as [_ _ Hl]. destruct Hsig as [Hreg Honce].
    constructor.
    + intros c Hc. rewrite signals_after_play.
      rewrite (play_of_registry _ _ _ _ _ Ep) in Hc. apply In_values_set in Hc.
      destruct Hc as [->|Hc]; [|exact (Hreg c Hc)].
      unfold signals_of, process, next_child.
      assert (E : nth_error (processes w) (List.length (processes w)) = None)
        by (apply nth_error_None; lia).
      rewrite E. reflexivity.
    + intro c. rewrite signals_after_play. apply Honce.
  - rewrite exec_step_stop. apply signals_ok_stop; assumption.
  - rewrite exec_step_stopAll.
    destruct (stopAll_throws fl this_ w); [exact Hsig|].
    exact (proj2 (stop_loop_signals_ok (JsMap.keys (activeChildren w)) w Hok Hsig)).
  - destruct Hsig as [Hreg Honce]. simpl step. constructor.
    + intros c' Hc. rewrite signals_after_emit. apply Hreg.
      rewrite emit_registry in Hc. exact (In_values_deletes _ _ _ Hc).
    + intro c'. rewrite signals_after_emit. apply Honce.
Qed.

Lemma signals_ok_run (fl : Flavour) (h : Host)
    (rnd : nat -> byte) (ops : list Op) :
  signals_ok (exec (run fl h ops) (initial rnd)).
Proof.
  assert (H : forall w0, registry_ok w0 -> signals_ok w0 ->
                         signals_ok (exec (run fl h ops) w0)).
  { induction ops as [|op ops IH]; intros w0 Hok Hsig; [exact Hsig|].
    rewrite run_cons. apply IH.
    - apply registry_ok_step. exact Hok.
    - apply signals_ok_step; assumption. }
  apply H; [apply registry_ok_initial|].
  constructor; [intros c []|intro c; unfold signals_of, process; simpl;
                            destruct c; simpl; lia].
Qed.

(** X7. Along every run of a module, a process that is registered has
    been sent no signal, and no process is ever sent the termination
    signal more than once: [stop] and [stopAll] signal registered
    processes only and unregister what they signal. *)
Theorem each_process_is_signalled_at_most_once (fl : Flavour) (h : Host)
    (rnd : nat -> byte) (ops : list Op) :
  let w := exec (run fl h ops) (initial rnd) in
  (forall c, In c (JsMap.values (activeChildren w)) -> signals_of c w = [])
  /\ (forall c, signals_of c w = [] \/ signals_of c w = [SIGTERM]).
Proof.
  intro w. subst w.
  destruct (signals_ok_run fl h rnd ops) as [Hreg Honce].
  split; [exact Hreg|]. intro c. specialize (Honce c).
  destruct (signals_of c _) as [|[] [|s rest]]; simpl in Honce; auto; lia.
Qed.

(** A playback stopped twice and then caught by [stopAll]: its
    process holds one signal. *)
Lemma each_process_is_signalled_at_most_once_witness :
  signals_of 0
    (exec (run EnhancedJs darwin_host
             [Play "ding.wav" None; Stop "00254a6f"; Stop "00254a6f"; StopAll CommonJS.ExportsObject])
       (initial counting_bytes))
  = [SIGTERM].
Proof.
  destruct (each_process_is_signalled_at_most_once EnhancedJs darwin_host
              counting_bytes
              [Play "ding.wav" None; Stop "00254a6f"; Stop "00254a6f"; StopAll CommonJS.ExportsObject])
    as [_ Honce].
  destruct (Honce 0) as [E|E]; [vm_compute in E; discriminate|exact E].
Defined.

(* ------------------------------------------------------------------ *)
(** ** What [stop] and [stopAll] leave alone *)
(* ------------------------------------------------------------------ *)

Lemma stop_process_frame w id c :
  JsMap.get id (activeChildren w) <> Some c ->
  process c (exec (stop id) w) = process c w.
Proof.
  intro Hne. unfold exec.
  destruct (JsMap.get id (activeChildren w)) as [c0|] eqn:E.
  - rewrite (stop_present _ _ _ E). unfold process. simpl.
    apply nth_error_update_nth_other. congruence.
  - rewrite (stop_absent _ _ E). reflexivity.
Qed.

Lemma stop_loop_process_frame ids w c :
  ~ In c (JsMap.values (activeChildren w)) ->
  process c (exec (for_of ids (fun id => stop id ;; ret tt)) w) = process c w.
Proof.
  revert w. induction ids as [|id ids IH]; intros w Hout; [reflexivity|].
  rewrite exec_for_of_cons, exec_bind.
  change (exec (ret tt) (exec (stop id) w)) with (exec (stop id) w).
  rewrite IH.
  - apply stop_process_frame. intro E. apply Hout. exact (get_Some_value _ _ _ E).
  - rewrite stop_registry. intro Hin. apply Hout. exact (In_values_delete _ _ _ Hin).
Qed.



(* ------------------------------------------------------------------ *)
(** ** Registered playbacks are observed *)
(* ------------------------------------------------------------------ *)

Lemma get_deletes_Some ks id c (m : JsMap.t ChildRef) :
  JsMap.get id (deletes ks m) = Some c ->
  JsMap.get id m = Some c /\ ~ In id ks.
Proof.
  intro H.
  destruct (in_dec string_dec id ks) as [Hin|Hout].
  - rewrite (get_deletes_member ks id m Hin) in H. discriminate.
  - rewrite (get_deletes_other ks id m Hout) in H. split; assumption.
Qed.

Lemma registered_listeners_observe fl id p ev :
  exists l, In l (registered_listeners fl id p)
            /\ listens ev l = true /\ deleted_id (callback l) = id.
Proof.
  destruct fl, ev; simpl;
    (eexists; split; [left; reflexivity|split; reflexivity])
    || (eexists; split; [right; left; reflexivity|split; reflexivity]).
Qed.

Lemma observed_step fl h op w :
  registry_ok w -> observed w -> observed (exec (step fl h op) w).
Proof.
  intros [_ _ Hlive] Hobs id c ev Hget.
  destruct op as [filePath volume|id'|this_|c' ev'].
  - rewrite exec_step_play in *.
    destruct (play_error h filePath volume) as [e|] eqn:Ep;
      [rewrite (exec_play_of_throws _ _ _ _ _ _ Ep) in *; exact (Hobs id c ev Hget)|].
    rewrite (play_of_registry _ _ _ _ _ Ep) in Hget.
    destruct (string_dec id (Hex.encode (next_bytes w))) as [->|Hne].
    + rewrite get_set_same in Hget. inversion Hget. subst c.
      rewrite (listeners_after_play _ _ _ _ _ Ep). apply registered_listeners_observe.
    + rewrite get_set_other in Hget by exact Hne.
      unfold listeners_of. rewrite older_process_after_play.
      * exact (Hobs id c ev Hget).
      * apply Hlive. exact (get_Some_value _ _ _ Hget).
  - destruct (stop_same_observers w id') as [_ _ L _].
    rewrite exec_step_stop in *. rewrite L. rewrite stop_registry in Hget.
    apply (get_deletes_Some [id']) in Hget. exact (Hobs id c ev (proj1 Hget)).
  - rewrite exec_step_stopAll in *.
    destruct (stopAll_throws fl this_ w); [exact (Hobs id c ev Hget)|].
    rewrite stopAll_registry in Hget. discriminate.
  - simpl step in *. rewrite emit_registry in Hget.
    apply get_deletes_Some in Hget. destruct Hget as [Hget Hout].
    rewrite listeners_after_emit.
    destruct (Nat.eqb c c') eqn:E; [|exact (Hobs id c ev Hget)].
    apply Nat.eqb_eq in E. subst c'. exfalso. apply Hout.
    destruct (Hobs id c ev' Hget) as (l & Hl & Hev & Hid).
    apply in_map_iff. exists l. split; [exact Hid|].
    apply filter_In. split; assumption.
Qed.

Lemma observed_run fl h rnd ops :
  observed (exec (run fl h ops) (initial rnd)).
Proof.
  assert (H : forall w0, registry_ok w0 -> observed w0 ->
                         observed (exec (run fl h ops) w0)).
  { induction ops as [|op ops IH]; intros w0 Hok Hobs; [exact Hobs|].
    rewrite run_cons. apply IH.
    - apply registry_ok_step. exact Hok.
    - apply observed_step; assumption. }
  apply H; [apply registry_ok_initial|].
  intros id c ev Hget. discriminate.
Qed.

(** X9. Along every run of a module, every registered id is still
    observed: the process it is registered with carries an observer for
    [exit] and one for [error] that delete that id. So no entry outlives
    the events of its process: whenever the process of a registered id
    emits [exit] or [error], the id is removed from the registry. *)
Theorem registered_ids_are_cleaned_up (fl : Flavour) (h : Host)
    (rnd : nat -> byte) (ops : list Op) (id : PlaybackId) (c : ChildRef)
    (ev : EventName) :
  let w := exec (run fl h ops) (initial rnd) in
  JsMap.get id (activeChildren w) = Some c ->
  (exists l, In l (listeners_of c w)
             /\ event l = ev /\ deleted_id (callback l) = id)
  /\ JsMap.get id (activeChildren (exec (emit c ev) w)) = None.
Proof.
  intros w Hget. subst w.
  destruct (observed_run fl h rnd ops id c ev Hget) as (l & Hl & Hev & Hid).
  split.
  - exists l. split; [exact Hl|]. split; [|exact Hid].
    unfold listens in Hev. destruct (event l), ev; try discriminate; reflexivity.
  - rewrite emit_registry. apply get_deletes_member.
    apply in_map_iff. exists l. split; [exact Hid|].
    apply filter_In. split; assumption.
Qed.

(** In the CommonJS module, after another playback was started and
    stopped, the exit of the first still unregisters it. *)
Lemma registered_ids_are_cleaned_up_witness :
  let w := exec (run CommonJs win32_host
                   [Play "ding.wav" None; Play "dong.wav" None; Stop "94b9de03"])
             (initial counting_bytes) in
  JsMap.get "00254a6f" (activeChildren w) = Some 0
  /\ JsMap.get "00254a6f" (activeChildren (exec (emit 0 ExitEvent) w)) = None.
Proof.
  intro w. split; [reflexivity|].
  exact (proj2 (registered_ids_are_cleaned_up CommonJs win32_host counting_bytes
                  [Play "ding.wav" None; Play "dong.wav" None; Stop "94b9de03"]
                  "00254a6f" 0 ExitEvent eq_refl)).
Defined.

(* ------------------------------------------------------------------ *)
(** ** When the generator repeats an id *)
(* ------------------------------------------------------------------ *)

Lemma not_in_values_set id c c0 (m : JsMap.t ChildRef) :
  NoDup (JsMap.values m) -> JsMap.get id m = Some c0 -> c <> c0 ->
  ~ In c0 (JsMap.values (JsMap.set id c m)).
Proof.
  induction m as [|[k v] m IH]; simpl; [discriminate|].
  intros Hnd Hget Hne. inversion Hnd as [|x l Hv Hm]; subst.
  destruct (String.eqb k id) eqn:E; simpl.
  - inversion Hget. subst v. intros [Heq|Hin]; [congruence|contradiction].
  - intros [Heq|Hin].
    + subst v. apply Hv. exact (get_Some_value _ _ _ Hget).
    + exact (IH Hm Hget Hne Hin).
Qed.

Lemma signals_after_stopAll_unregistered w c :
  ~ In c (JsMap.values (activeChildren w)) ->
  signals_of c (exec stopAll w) = signals_of c w.
Proof.
  intro Hout. unfold signals_of.
  replace (process c (exec stopAll w)) with (process c w); [reflexivity|].
  symmetry. exact (stop_loop_process_frame (JsMap.keys (activeChildren w)) w c Hout).
Qed.

Lemma exec_stopAll_of fl this_ w :
  exec (stopAll_of fl this_) w
  = if stopAll_throws fl this_ w then w else exec stopAll w.
Proof.
  unfold exec at 1. rewrite stopAll_of_cases.
  destruct (stopAll_throws fl this_ w); reflexivity.
Qed.

(** X10. [play] does not check the id it draws against the registry. When
    the id it returns is that of an active playback, whose process is
    [c0], the entry of the id is handed to the new process and [c0] is
    registered no more: neither [stop] on the id nor [stopAll], of any
    of the modules and on either receiver, sends [c0] a signal, while
    [stop] on the id does signal the new process.
    And since the observers of [c0] still delete that id, the exit of
    [c0] unregisters the new playback. *)
Theorem repeated_id_strands_the_older_process (fl : Flavour) (h : Host)
    (rnd : nat -> byte) (ops : list Op) (filePath : string)
    (volume : option Number.number) (c0 : ChildRef) (id : PlaybackId) :
  let w := exec (run fl h ops) (initial rnd) in
  let w' := exec (play_of fl h filePath volume) w in
  eval (play_of fl h filePath volume) w = Normal id ->
  JsMap.get id (activeChildren w) = Some c0 ->
  JsMap.get id (activeChildren w') = Some (next_child w)
  /\ ~ In c0 (JsMap.values (activeChildren w'))
  /\ signals_of c0 (exec (stop id) w') = []
  /\ signals_of c0 (exec stopAll w') = []
  /\ (forall this_, signals_of c0 (exec (stopAll_of fl this_) w') = [])
  /\ signals_of (next_child w) (exec (stop id) w') = [SIGTERM]
  /\ (forall ev,
        JsMap.get id (activeChildren (exec (emit c0 ev) w')) = None).
Proof.
  intros w w' Hid. subst w'.
  destruct (play_of_returns _ _ _ _ _ _ Hid) as [Ep ->]. intro Hget.
  assert (Hok : registry_ok w) by (apply (reachable_registry_ok fl h); exists rnd, ops; reflexivity).
  destruct (signals_ok_run fl h rnd ops) as [Hreg _].
  fold w in Hreg.
  pose proof (get_Some_value _ _ _ Hget) as Hin0.
  pose proof (Hreg c0 Hin0) as Hsig0.
  destruct Hok as [Hk Hv Hl]. pose proof (Hl c0 Hin0) as Hc0.
  assert (Hne : next_child w <> c0) by (unfold next_child; lia).
  assert (Hreg' : JsMap.get (Hex.encode (next_bytes w))
                    (activeChildren (exec (play_of fl h filePath volume) w))
                  = Some (next_child w))
    by (rewrite (play_of_registry _ _ _ _ _ Ep); apply get_set_same).
  assert (Hout : ~ In c0 (JsMap.values
                            (activeChildren (exec (play_of fl h filePath volume) w))))
    by (rewrite (play_of_registry _ _ _ _ _ Ep); apply not_in_values_set; assumption).
  assert (Hall : signals_of c0 (exec stopAll (exec (play_of fl h filePath volume) w))
                 = []).
  { rewrite signals_after_stopAll_unregistered by exact Hout.
    rewrite signals_after_play. exact Hsig0. }
  split; [exact Hreg'|]. split; [exact Hout|].
  split; [|split; [|split; [|split]]].
  - rewrite signals_after_stop, Hreg'.
    assert (E : Nat.eqb c0 (next_child w) = false)
      by (apply Nat.eqb_neq; congruence).
    rewrite E, signals_after_play. exact Hsig0.
  - exact Hall.
  - intro this_. rewrite exec_stopAll_of.
    destruct (stopAll_throws fl this_ _); [|exact Hall].
    rewrite signals_after_play. exact Hsig0.
  - rewrite signals_after_stop, Hreg', Nat.eqb_refl,
      (process_after_play _ _ _ _ _ Ep).
    reflexivity.
  - intro ev. rewrite emit_registry. apply get_deletes_member.
    destruct (observed_run fl h rnd ops _ c0 ev Hget) as (l & Hl0 & Hev & Hid').
    apply in_map_iff. exists l. split; [exact Hid'|].
    apply filter_In. split; [|exact Hev].
    unfold listeners_of. rewrite older_process_after_play by exact Hc0. exact Hl0.
Qed.

(** The random source repeats itself: the second playback takes over the
    id, and [stopAll] signals the second process only. *)
Lemma repeated_id_strands_the_older_process_witness :
  let w := exec (run TypeScript darwin_host [Play "ding.wav" None])
             (initial constant_bytes) in
  let w' := exec (play_of TypeScript darwin_host "dong.wav" None) w in
  JsMap.get "2a2a2a2a" (activeChildren w') = Some 1
  /\ signals_of 0 (exec stopAll w') = []
  /\ signals_of 1 (exec (stop "2a2a2a2a") w') = [SIGTERM].
Proof.
  intros w w'.
  destruct (repeated_id_strands_the_older_process TypeScript darwin_host
              constant_bytes [Play "ding.wav" None] "dong.wav" None 0 "2a2a2a2a"
              eq_refl eq_refl)
    as (H1 & _ & _ & H4 & _ & H5 & _).
  split; [exact H1|]. split; [exact H4|exact H5].
Defined.

(* ------------------------------------------------------------------ *)
(** ** The [finished] promise waits for its process *)
(* ------------------------------------------------------------------ *)

Lemma waiting_on_step fl h op w p c :
  emits_on c op = false ->
  waiting_on p c w -> waiting_on p c (exec (step fl h op) w).
Proof.
  intros Hsilent [Hpend Hc Hown].
  assert (Hp : p < List.length (promises w))
    by (apply nth_error_Some; unfold promise_state in Hpend; congruence).
  constructor.
  - destruct op as [filePath volume|id|this_|c' ev];
      try (rewrite promise_state_after_step_other;
           [exact Hpend|exact Hp|discriminate]).
    unfold promise_state. simpl step. rewrite promises_after_emit.
    rewrite settle_all_not_member; [exact Hpend|].
    intro Hin. apply In_promises_resolved_by in Hin.
    destruct Hin as (l & Hl & Hq). apply filter_In in Hl.
    pose proof (Hown c' l (proj1 Hl) Hq) as E. subst c'.
    simpl in Hsilent. rewrite Nat.eqb_refl in Hsilent. discriminate.
  - pose proof (length_processes_step fl h op w). lia.
  - intros c' l Hin Hq.
    destruct op as [filePath volume|id|this_|c'' ev].
    + rewrite exec_step_play in Hin.
      destruct (listeners_after_play_cases _ _ _ _ _ _ _ Hin) as [Hold|[_ Hnew]];
        [exact (Hown _ _ Hold Hq)|].
      destruct (registered_listeners_promise _ _ _ _ _ Hnew Hq) as [E _].
      unfold next_promise in E. lia.
    + destruct (stop_same_observers w id) as [_ _ L _].
      rewrite exec_step_stop, L in Hin. exact (Hown _ _ Hin Hq).
    + destruct (step_stopAll_same_observers fl h this_ w) as [_ _ L _]. rewrite L in Hin. exact (Hown _ _ Hin Hq).
    + simpl step in Hin. rewrite listeners_after_emit in Hin.
      destruct (Nat.eqb c' c'') eqn:E.
      * apply Nat.eqb_eq in E. subst c''.
        apply In_kept_listeners in Hin. exact (Hown _ _ Hin Hq).
      * exact (Hown _ _ Hin Hq).
Qed.

Lemma waiting_on_run fl h ops w p c :
  silent_on c ops = true ->
  waiting_on p c w -> waiting_on p c (exec (run fl h ops) w).
Proof.
  revert w. induction ops as [|op ops IH]; intros w Hs H; [exact H|].
  simpl in Hs. apply andb_true_iff in Hs. destruct Hs as [Hop Hs].
  rewrite run_cons. apply IH; [exact Hs|].
  apply waiting_on_step; [|exact H].
  destruct (emits_on c op); [discriminate|reflexivity].
Qed.

(** X11. In the enhanced module the [finished] promise of a playback is
    settled by nothing but an event of its own process: after any run in
    which that process emits neither [exit] nor [error], whatever else is
    played, stopped (the playback itself included) or emitted by other
    processes, the promise is still pending and has been fulfilled zero
    times. *)
Theorem finished_waits_for_its_process (h : Host) (rnd : nat -> byte)
    (earlier : list Op) (filePath : string) (volume : option Number.number)
    (later : list Op) (r : Enhanced.PlayResult) :
  let w0 := exec (run EnhancedJs h earlier) (initial rnd) in
  let w := exec (run EnhancedJs h later)
             (exec (Enhanced.play h filePath volume) w0) in
  eval (Enhanced.play h filePath volume) w0 = Normal r ->
  silent_on (next_child w0) later = true ->
  promise_state (Enhanced.finished r) w = Some Pending
  /\ fulfilled_times (Enhanced.finished r) w = 0.
Proof.
  intros w0 w Hr. subst w.
  destruct (enhanced_play_returns _ _ _ _ _ Hr) as [Ep ->].
  rewrite exec_enhanced_play. cbn [Enhanced.finished].
  intro Hsilent.
  assert (Hcl0 : closures_ok w0) by (apply closures_ok_run, initial_closures_ok).
  assert (Hok : promises_ok (exec (run EnhancedJs h later)
                               (exec (play_of EnhancedJs h filePath volume) w0))).
  { apply promises_ok_run. rewrite <- exec_step_play. apply promises_ok_step.
    apply promises_ok_run, initial_promises_ok. }
  assert (Hwait : waiting_on (next_promise w0) (next_child w0)
                    (exec (play_of EnhancedJs h filePath volume) w0)).
  { constructor.
    - apply enhanced_play_pending. exact Ep.
    - rewrite (play_of_world _ _ _ _ _ Ep). simpl. rewrite length_app. simpl.
      unfold next_child. lia.
    - intros c' l Hin Hq.
      destruct (listeners_after_play_cases _ _ _ _ _ _ _ Hin) as [Hold|[E _]];
        [|exact E].
      pose proof (Hcl0 _ _ _ Hold Hq) as Hlt. unfold next_promise in Hlt. lia. }
  destruct (waiting_on_run EnhancedJs h later _ _ _ Hsilent Hwait) as [Hpend _ _].
  split; [exact Hpend|].
  unfold fulfilled_times. rewrite (proj1 (Hok (next_promise w0))).
  unfold promise_state in Hpend. rewrite Hpend. reflexivity.
Qed.

(** A playback that is stopped, while another one starts, ends and
    everything is stopped again: its promise is pending until its own
    process exits. *)
Lemma finished_waits_for_its_process_witness :
  let w := exec (run EnhancedJs darwin_host
                   [Stop "00254a6f"; Play "dong.wav" None; Emit 1 ExitEvent;
                    StopAll CommonJS.ExportsObject])
             (exec (Enhanced.play darwin_host "ding.wav" None)
                (initial counting_bytes)) in
  promise_state 0 w = Some Pending
  /\ promise_state 1 w = Some Fulfilled
  /\ promise_state 0 (exec (emit 0 ExitEvent) w) = Some Fulfilled.
Proof.
  intro w.
  destruct (finished_waits_for_its_process darwin_host counting_bytes []
              "ding.wav" None
              [Stop "00254a6f"; Play "dong.wav" None; Emit 1 ExitEvent;
               StopAll CommonJS.ExportsObject]
              {| Enhanced.id := "00254a6f"; Enhanced.finished := 0 |}
              eq_refl eq_refl) as [Hpend _].
  split; [exact Hpend|]. split; reflexivity.
Defined.

(* ------------------------------------------------------------------ *)
(** ** The volume handed to the macOS player, for any number *)
(* ------------------------------------------------------------------ *)

Section Clamp.
Import Number.

Lemma SFcompare_antisym (a b : number) :
  SFcompare b a
  = match SFcompare a b with Some c => Some (CompOpp c) | None => None end.
Proof.
  destruct a as [sa|sa| |sa ma ea], b as [sb|sb| |sb mb eb];
    try destruct sa; try destruct sb; try reflexivity; simpl;
    rewrite (Z.compare_antisym ea eb); destruct (Z.compare ea eb); simpl;
    try reflexivity;
    rewrite (Pos.compare_cont_antisym ma mb Eq); reflexivity.
Qed.

Lemma SFcompare_refl (a : number) : is_nan a = false -> SFcompare a a = Some Eq.
Proof.
  destruct a as [s|s| |s m e]; try discriminate; intros _;
    try (destruct s; reflexivity).
  simpl. rewrite Z.compare_refl, Pos.compare_cont_refl. destruct s; reflexivity.
Qed.

(** [Math.min(a, x)] is at most [a], unless an argument is NaN. *)
Lemma Math_min_upper (a x : number) :
  is_nan a = false -> is_nan x = false -> leb (Math_min a x) a = true.
Proof.
  intros Ha Hx. unfold Math_min, leb, SFleb. rewrite Ha, Hx. simpl.
  pose proof (SFcompare_antisym a x) as Hanti.
  destruct (SFcompare a x) as [[| |]|] eqn:E.
  - destruct a as [sa|sa| |sa ma ea], x as [sx|sx| |sx mx ex];
      try discriminate; try (rewrite SFcompare_refl; reflexivity).
    reflexivity.
  - rewrite SFcompare_refl by exact Ha. reflexivity.
  - rewrite Hanti. reflexivity.
  - destruct a, x; discriminate.
Qed.

Lemma shr_1_nonneg (mrs : shr_record) :
  (0 <= shr_m mrs)%Z -> (0 <= shr_m (shr_1 mrs))%Z.
Proof.
  destruct mrs as [m r s]. destruct m as [|p|p]; simpl; intro H;
    try destruct p; simpl; lia.
Qed.

Lemma iter_pos_shr_1_nonneg (p : positive) (mrs : shr_record) :
  (0 <= shr_m mrs)%Z -> (0 <= shr_m (iter_pos shr_1 p mrs))%Z.
Proof.
  revert mrs. induction p as [p IH|p IH|]; intros mrs H; simpl.
  - apply IH, IH, shr_1_nonneg, H.
  - apply IH, IH, H.
  - apply shr_1_nonneg, H.
Qed.

Lemma shr_fexp_nonneg (m e : Z) (l : location) :
  (0 <= m)%Z -> (0 <= shr_m (fst (shr_fexp prec emax m e l)))%Z.
Proof.
  intro H. unfold shr_fexp, shr.
  assert (H0 : (0 <= shr_m (shr_record_of_loc m l))%Z)
    by (destruct l as [|[| |]]; exact H).
  destruct (fexp prec emax (Zdigits2 m + e) - e)%Z; simpl;
    try exact H0. apply iter_pos_shr_1_nonneg, H0.
Qed.

Lemma round_nearest_even_nonneg (mx : Z) (lx : location) :
  (0 <= mx)%Z -> (0 <= round_nearest_even mx lx)%Z.
Proof.
  intro H. destruct lx as [|[| |]]; simpl; try destruct (Z.even mx); lia.
Qed.

Lemma binary_round_aux_not_nan (sx : bool) (mx ex : Z) (lx : location) :
  (0 <= mx)%Z -> is_nan (binary_round_aux prec emax sx mx ex lx) = false.
Proof.
  intro H. unfold binary_round_aux.
  pose proof (shr_fexp_nonneg mx ex lx H) as H1.
  destruct (shr_fexp prec emax mx ex lx) as [mrs' e']. simpl in H1.
  pose proof (shr_fexp_nonneg _ e' loc_Exact
                (round_nearest_even_nonneg _ (loc_of_shr_record mrs') H1)) as H2.
  destruct (shr_fexp prec emax _ e' loc_Exact) as [mrs'' e'']. simpl in H2.
  destruct (shr_m mrs'') as [|m|m]; [reflexivity| |lia].
  destruct (e'' <=? emax - prec)%Z; reflexivity.
Qed.

(** Twice a number is a number again. *)
Lemma mul_two_not_nan (v : number) : is_nan v = false -> is_nan (mul v two) = false.
Proof.
  intro Hv. unfold mul, two, of_Z, of_dyadic.
  change (binary_normalize prec emax 2 0 false)
    with (S754_finite false 4503599627370496 (-51)).
  destruct v as [s|s| |s m e]; try discriminate; try reflexivity.
  simpl SFmul. apply binary_round_aux_not_nan. apply Pos2Z.is_nonneg.
Qed.

(** What rounding makes of a magnitude with the negative sign lies below
    the number two, and not above zero. *)
Lemma binary_round_aux_negative (mx ex : Z) (lx : location) :
  (0 <= mx)%Z ->
  SFcompare two (binary_round_aux prec emax true mx ex lx) = Some Gt
  /\ SFleb (binary_round_aux prec emax true mx ex lx) (of_Z 0) = true.
Proof.
  intro H. unfold binary_round_aux.
  pose proof (shr_fexp_nonneg mx ex lx H) as H1.
  destruct (shr_fexp prec emax mx ex lx) as [mrs' e']. simpl in H1.
  pose proof (shr_fexp_nonneg _ e' loc_Exact
                (round_nearest_even_nonneg _ (loc_of_shr_record mrs') H1)) as H2.
  destruct (shr_fexp prec emax _ e' loc_Exact) as [mrs'' e'']. simpl in H2.
  destruct (shr_m mrs'') as [|m|m]; [split; reflexivity| |lia].
  destruct (e'' <=? emax - prec)%Z; split; reflexivity.
Qed.

(** Twice a number that is not above zero is not above zero, and
    [Math.min] with two leaves it as it is. *)
Lemma min_two_of_nonpositive (v : number) :
  leb v (of_Z 0) = true ->
  Math_min two (mul v two) = mul v two
  /\ leb (mul v two) (of_Z 0) = true.
Proof.
  intro Hv.
  assert (H : SFcompare two (mul v two) = Some Gt
              /\ SFleb (mul v two) (of_Z 0) = true).
  { unfold mul, two, of_Z, of_dyadic.
    change (binary_normalize prec emax 2 0 false)
      with (S754_finite false 4503599627370496 (-51)).
    destruct v as [s|s| |s m e]; try discriminate.
    - destruct s; split; reflexivity.
    - destruct s; [split; reflexivity|discriminate].
    - destruct s; [|discriminate].
      simpl SFmul. apply binary_round_aux_negative. apply Pos2Z.is_nonneg. }
  destruct H as [Hc Hl]. split; [|exact Hl].
  unfold Math_min. rewrite Hc.
  assert (Hn : is_nan (mul v two) = false)
    by (destruct (mul v two); try reflexivity; discriminate).
  rewrite Hn. reflexivity.
Qed.

End Clamp.

(** X12. On macOS the volume handed to the player is at most 2 for every
    volume that is a number, however large, while NaN is handed on as
    NaN. Nothing bounds it from below: a volume that is not above zero
    is doubled like any other and stays not above zero, down to the
    negative infinity. On the other platforms the volume is handed on as
    it is. The exec-based module adjusts the volume in the same way. *)
Theorem macos_volume_is_capped (h : Host) (v : Number.number) :
  (is_darwin h = true -> Number.is_nan v = false ->
   Number.leb (Command.volForOs h v) Number.two = true)
  /\ (is_darwin h = true -> Number.is_nan v = true ->
      Number.is_nan (Command.volForOs h v) = true)
  /\ (is_darwin h = true -> Number.leb v zero = true ->
      Command.volForOs h v = Number.mul v Number.two
      /\ Number.leb (Command.volForOs h v) zero = true)
  /\ (is_darwin h = true ->
      Command.volForOs h minus_infinity = minus_infinity)
  /\ (is_darwin h = false -> Command.volForOs h v = v)
  /\ Legacy.volumeAdjustedByOS h v = Command.volForOs h v.
Proof.
  unfold Command.volForOs, Legacy.volumeAdjustedByOS.
  split; [|split; [|split; [|split; [|split]]]].
  - intros -> Hv. apply Math_min_upper; [reflexivity|].
    apply mul_two_not_nan. exact Hv.
  - intros -> Hv. destruct v; try discriminate. reflexivity.
  - intros -> Hv. destruct (min_two_of_nonpositive v Hv) as [E Hl].
    rewrite E. split; [reflexivity|exact Hl].
  - intros ->. reflexivity.
  - intros ->. reflexivity.
  - reflexivity.
Qed.

(** Volume 5 is cut down to 2, volume -1 becomes -2. *)
Lemma macos_volume_is_capped_witness :
  Number.leb (Command.volForOs darwin_host five) Number.two = true
  /\ Number.toString (Command.volForOs darwin_host five) = "2"
  /\ Command.volForOs darwin_host minus_one = Number.mul minus_one Number.two
  /\ Number.toString (Command.volForOs darwin_host minus_one) = "-2"
  /\ Command.volForOs win32_host five = five.
Proof.
  destruct (macos_volume_is_capped darwin_host five) as (Hcap & _).
  destruct (macos_volume_is_capped darwin_host minus_one) as (_ & _ & Hneg & _).
  destruct (macos_volume_is_capped win32_host five) as (_ & _ & _ & _ & Hwin & _).
  split; [apply Hcap; reflexivity|].
  split; [vm_compute; reflexivity|].
  split; [exact (proj1 (Hneg eq_refl eq_refl))|].
  split; [vm_compute; reflexivity|apply Hwin; reflexivity].
Defined.

(* ------------------------------------------------------------------ *)
(** ** The script of the spawn-based modules, for any path *)
(* ------------------------------------------------------------------ *)

(** X13. In the script that the spawn-based modules build, the literal
    handed to [$player.open] reads back as the file path, byte for byte,
    whatever ASCII single quotes the path holds, provided the path holds
    none of the typographic single quotes that the language also takes
    for a quote and that the builder does not double. The literal then
    ends where the builder closes it: what follows it is the rest of
    the script as written, with the volume line and the volume given. *)
Theorem script_literal_holds_the_path (filePath : string)
    (volume : Number.number) :
  PowerShell.typographic_quote_free filePath = true ->
  exists literal,
    text_after "$player.open('" (Command.windowsPowerShellScript filePath volume)
    = Some literal
    /\ PowerShell.read_literal literal
       = Some (filePath,
               ");" ++ JsString.nl
               ++ "$player.Volume = " ++ Number.toString volume ++ ";" ++ JsString.nl
               ++ "$player.Play();" ++ JsString.nl
               ++ "# Keep the process alive until the media finishes" ++ JsString.nl
               ++ "Start-Sleep -s $player.NaturalDuration.TimeSpan.TotalSeconds;"
               ++ JsString.nl).
Proof.
  intro Hfree. eexists. split.
  - unfold Command.windowsPowerShellScript, JsString.nl.
    cbn -[Command.escaped Number.toString]. reflexivity.
  - unfold JsString.nl. cbn -[PowerShell.read_literal Command.escaped Number.toString].
    apply read_literal_escaped; [exact Hfree|reflexivity].
Qed.

(** The path of the scenario, with its ASCII quote. *)
Lemma script_literal_holds_the_path_witness :
  opened_file (Command.windowsPowerShellScript "C:\sounds\it's.wav" zero_point_eight)
  = Some "C:\sounds\it's.wav".
Proof.
  destruct (script_literal_holds_the_path "C:\sounds\it's.wav" zero_point_eight
              eq_refl) as (literal & Htext & Hread).
  unfold opened_file. rewrite Htext, Hread. reflexivity.
Defined.

(** A path with the typographic apostrophe U+2019: the builder leaves it
    as it is, and the literal ends at it. *)
Example typographic_quote_ends_the_literal :
  PowerShell.typographic_quote_free its_wav = false
  /\ Command.escaped its_wav = its_wav
  /\ opened_file (Command.windowsPowerShellScript its_wav Number.half) = Some "it".
Proof. split; [|split]; vm_compute; reflexivity. Qed.

(* ------------------------------------------------------------------ *)
(** ** What a run creates *)
(* ------------------------------------------------------------------ *)

Lemma Forall_update_nth {A : Type} (P : A -> Prop) (f : A -> A) n (l : list A) :
  (forall x, P x -> P (f x)) -> Forall P l -> Forall P (update_nth n f l).
Proof.
  intros Hf H. revert n. induction H as [|x l Hx Hl IH]; intros [|n]; simpl;
    constructor; auto.
Qed.

Lemma spawned_by_play_stop h w id :
  Forall (spawned_by_play h) (processes w) ->
  Forall (spawned_by_play h) (processes (exec (stop id) w)).
Proof.
  intro H. unfold exec.
  destruct (JsMap.get id (activeChildren w)) as [c|] eqn:E.
  - rewrite (stop_present _ _ _ E). simpl.
    apply Forall_update_nth; [|exact H]. intros p Hp. exact Hp.
  - rewrite (stop_absent _ _ E). exact H.
Qed.

Lemma drawn_after_stop w id : drawn (exec (stop id) w) = drawn w.
Proof.
  unfold exec. destruct (JsMap.get id (activeChildren w)) as [c|] eqn:E.
  - rewrite (stop_present _ _ _ E). reflexivity.
  - rewrite (stop_absent _ _ E). reflexivity.
Qed.

Lemma stop_loop_creates_nothing h ids w :
  Forall (spawned_by_play h) (processes w) ->
  Forall (spawned_by_play h)
    (processes (exec (for_of ids (fun id => stop id ;; ret tt)) w))
  /\ drawn (exec (for_of ids (fun id => stop id ;; ret tt)) w) = drawn w.
Proof.
  revert w. induction ids as [|id ids IH]; intros w H; [split; [exact H|reflexivity]|].
  rewrite exec_for_of_cons, exec_bind.
  change (exec (ret tt) (exec (stop id) w)) with (exec (stop id) w).
  destruct (IH _ (spawned_by_play_stop h w id H)) as [H1 H2].
  split; [exact H1|]. rewrite H2. apply drawn_after_stop.
Qed.

Lemma call_drawn cb w : drawn (exec (call cb) w) = drawn w.
Proof.
  destruct cb as [id|id p]; [reflexivity|].
  simpl. rewrite exec_bind. unfold exec at 1, resolve.
  destruct (promise_state p _) as [[| |]|]; reflexivity.
Qed.

Lemma emit_drawn c ev w : drawn (exec (emit c ev) w) = drawn w.
Proof.
  assert (Hloop : forall (ls : list Listener) w',
             drawn (exec (for_of ls (fun l => call (callback l))) w') = drawn w').
  { induction ls as [|l ls IH]; intro w'; [reflexivity|].
    rewrite exec_for_of_cons, IH. apply call_drawn. }
  unfold exec, emit. destruct (nth_error (processes w) c) as [p|]; [|reflexivity].
  match goal with |- drawn (snd (for_of ?fired ?body ?w')) = _ =>
    exact (Hloop fired w') end.
Qed.

Lemma launched_spawned_by_play h filePath volume ls :
  spawned_by_play h (launched h filePath volume ls).
Proof.
  unfold spawned_by_play, launched, player, Command.playCommand.
  destruct (is_darwin h); repeat split; reflexivity.
Qed.

Lemma step_creates fl h op w :
  Forall (spawned_by_play h) (processes w) ->
  let n := List.length (played_ids fl h [op] w) in
  Forall (spawned_by_play h) (processes (exec (step fl h op) w))
  /\ List.length (processes (exec (step fl h op) w)) = List.length (processes w) + n
  /\ drawn (exec (step fl h op) w) = drawn w + 4 * n
  /\ List.length (promises (exec (step fl h op) w))
     = List.length (promises w)
       + match fl with EnhancedJs => n | _ => 0 end
  /\ n <= count_plays [op].
Proof.
  intros H n. subst n.
  destruct op as [filePath volume|id|this_|c ev]; unfold count_plays;
    cbn [played_ids filter List.length].
  - rewrite exec_step_play.
    destruct (play_error h filePath volume) as [e|] eqn:Ep.
    + rewrite (exec_play_of_throws _ _ _ _ _ _ Ep). unfold eval.
      rewrite (play_of_throws _ _ _ _ _ _ Ep). cbn [fst List.length].
      split; [exact H|]. split; [lia|]. split; [lia|].
      split; [destruct fl; lia|lia].
    + rewrite (play_of_id _ _ _ _ _ Ep), (play_of_world _ _ _ _ _ Ep).
      cbn [processes drawn promises List.length].
      split; [|split; [|split; [|split]]].
      * apply Forall_app. split; [exact H|].
        constructor; [apply launched_spawned_by_play|constructor].
      * rewrite length_app. reflexivity.
      * reflexivity.
      * unfold promises_after_play.
        destruct fl; rewrite ?length_app; cbn [List.length]; lia.
      * lia.
  - rewrite exec_step_stop. destruct (stop_same_observers w id) as [P _ _ S].
    split; [apply spawned_by_play_stop; exact H|].
    split; [rewrite S; simpl; lia|].
    split; [rewrite drawn_after_stop; simpl; lia|].
    split; [rewrite P; destruct fl; simpl; lia|lia].
  - rewrite exec_step_stopAll. destruct (stopAll_throws fl this_ w).
    + split; [exact H|]. split; [lia|]. split; [lia|].
      split; [destruct fl; lia|lia].
    + destruct (stopAll_same_observers w) as [P _ _ S].
      destruct (stop_loop_creates_nothing h (JsMap.keys (activeChildren w)) w H)
        as [H1 H2].
      split; [exact H1|]. split; [rewrite S; simpl; lia|].
      split; [|split; [rewrite P; destruct fl; simpl; lia|lia]].
      change (drawn (exec stopAll w) = drawn w + 4 * 0).
      rewrite Nat.mul_0_r, Nat.add_0_r. exact H2.
  - simpl step. split; [|split; [|split; [|split]]].
    + rewrite emit_processes. apply Forall_update_nth; [|exact H].
      intros p Hp. exact Hp.
    + rewrite length_processes_after_emit. simpl. lia.
    + rewrite emit_drawn. simpl. lia.
    + rewrite promises_after_emit, settle_all_length. destruct fl; simpl; lia.
    + lia.
Qed.

Lemma count_plays_cons op ops :
  count_plays (op :: ops) = count_plays [op] + count_plays ops.
Proof. unfold count_plays. simpl. destruct op; reflexivity. Qed.

(** X14. Process objects, random bytes and promises are created by a
    [play] that returns, and by nothing else: not by a [play] that
    throws, nor by [stop], [stopAll] or an event. After a run in which
    [n] calls of [play] have returned there are [n] processes, each
    started as the player of the platform ([afplay] on macOS,
    [powershell] otherwise) with [detached: false] and
    [windowsHide: true]; [4 * n] random bytes have been drawn; and there
    are [n] promises in the enhanced module and none in the other two. *)
Theorem only_play_creates (fl : Flavour) (h : Host) (rnd : nat -> byte)
    (ops : list Op) :
  let w := exec (run fl h ops) (initial rnd) in
  let n := List.length (played_ids fl h ops (initial rnd)) in
  List.length (processes w) = n
  /\ Forall (fun p =>
               spawnfile p = (if is_darwin h then "afplay" else "powershell")
               /\ detached (options p) = false
               /\ windowsHide (options p) = true)
       (processes w)
  /\ drawn w = 4 * n
  /\ List.length (promises w) = match fl with EnhancedJs => n | _ => 0 end
  /\ n <= count_plays ops.
Proof.
  intros w n. subst w n.
  assert (H : forall w0,
             Forall (spawned_by_play h) (processes w0) ->
             Forall (spawned_by_play h) (processes (exec (run fl h ops) w0))
             /\ List.length (processes (exec (run fl h ops) w0))
                = List.length (processes w0) + List.length (played_ids fl h ops w0)
             /\ drawn (exec (run fl h ops) w0)
                = drawn w0 + 4 * List.length (played_ids fl h ops w0)
             /\ List.length (promises (exec (run fl h ops) w0))
                = List.length (promises w0)
                  + match fl with
                    | EnhancedJs => List.length (played_ids fl h ops w0)
                    | _ => 0
                    end
             /\ List.length (played_ids fl h ops w0) <= count_plays ops).
  { induction ops as [|op ops IH]; intros w0 H0.
    - change (exec (run fl h []) w0) with w0.
      unfold count_plays. cbn [played_ids filter List.length].
      split; [exact H0|]. split; [lia|]. split; [lia|].
      split; [destruct fl; lia|lia].
    - rewrite run_cons, count_plays_cons, played_ids_cons, length_app.
      destruct (step_creates fl h op w0 H0) as (S1 & S2 & S3 & S4 & S5).
      destruct (IH _ S1) as (R1 & R2 & R3 & R4 & R5).
      split; [exact R1|]. split; [lia|]. split; [lia|].
      split; [rewrite R4, S4; destruct fl; lia|lia]. }
  destruct (H (initial rnd)) as (R1 & R2 & R3 & R4 & R5); [constructor|].
  simpl in R2, R3, R4. split; [exact R2|]. split; [|split; [lia|split; [exact R4|exact R5]]].
  revert R1. apply Forall_impl. intros p Hp. exact Hp.
Qed.

(** Two plays that return and one that throws, then a [stopAll]: two
    processes, eight bytes drawn. *)
Lemma only_play_creates_witness :
  let w := exec (run EnhancedJs win32_host
                   [Play "ding.wav" None; Play ("ding" ++ nul ++ ".wav") None;
                    Play "dong.wav" None; StopAll CommonJS.ExportsObject])
             (initial counting_bytes) in
  List.length (processes w) = 2 /\ drawn w = 8 /\ List.length (promises w) = 2.
Proof.
  intro w.
  destruct (only_play_creates EnhancedJs win32_host counting_bytes
              [Play "ding.wav" None; Play ("ding" ++ nul ++ ".wav") None;
               Play "dong.wav" None; StopAll CommonJS.ExportsObject])
    as (H1 & _ & H3 & H4 & _).
  split; [exact H1|]. split; [exact H3|exact H4].
Defined.
